(** * Keyset pagination in [try_sql.py]: [paginate_query]

    A shallow embedding of [paginate_query] (try_sql.py, lines 7-102) and
    the properties of the ordering clauses, the marker predicate and the
    limit it adds to a query.

    The function talks to two collaborators: the [logging] module and the
    query object it is handed.  Both are modelled as effects recorded in a
    trace, next to Python's exceptions, so that statements of the form
    "fails before anything is applied" can be read off the trace.

    [paginate_query] is the function as a builder of calls and
    expressions; [Checked.paginate_query] is the same body with the two
    operations that [sqlalchemy] refuses on some arguments, the ordering
    comparison of a column with [None] and [order_by] or [filter] on a
    query that already has a limit or an offset.  The two run alike where
    neither refusal occurs ([checked_paginate_query_agrees]). *)

From stdpp Require Import gmap strings list sorting.

(** ** Python values and exceptions *)

(** Values stored in a column or carried by a marker attribute. *)
Inductive value :=
| VNone
| VInt (z : Z)
| VStr (s : string).

#[global] Instance value_eq_dec : EqDecision value.
Proof. solve_decision. Defined.

(** The exception classes that [paginate_query] can let escape.  An
    [assert] raises [AssertionError] without arguments, whichever assertion
    it is.  [ArgumentError] and [InvalidRequestError] are the two that
    [sqlalchemy] raises when it refuses an operation. *)
Inductive exn :=
| AssertionError
| ValueError (msg : string)
| InvalidSortKey
| AttributeError (name : string)
| KeyError
| IndexError
| ArgumentError
| InvalidRequestError.

#[global] Instance exn_eq_dec : EqDecision exn.
Proof. solve_decision. Defined.

(** ** Query expressions

    What the function builds with [sqlalchemy]: comparisons of a model
    attribute with a value, n-ary [and_] / [or_], the [asc] / [desc]
    ordering wrappers, and the three query methods it calls. *)

(** [getattr(model, name)]: the attribute is identified by its name. *)
Inductive column := ModelAttr (name : string).

#[local] Set Warnings "-register-all".
Inductive expr :=
| Eq (c : column) (v : value)
| Lt (c : column) (v : value)
| Gt (c : column) (v : value)
| and_ (clauses : list expr)
| or_ (clauses : list expr).

Inductive order_clause :=
| asc (c : column)
| desc (c : column).

Inductive query_call :=
| OrderBy (o : order_clause)
| Filter (f : expr)
| Limit (n : Z)
| Offset (n : Z).

(** A query is the sequence of method calls made on it so far, oldest
    first; every method returns a new query.  [Offset] is never called by
    [paginate_query], but the query it is handed may carry one. *)
Definition Query := list query_call.

(** ** Effects *)

Inductive event :=
| LogInfo (msg : string)
| Call (c : query_call).

(** A computation extends the trace and either raises or returns. *)
Definition M (A : Type) : Type := list event → list event * (exn + A).

Definition ret {A} (a : A) : M A := fun t => (t, inr a).

Definition bind {A B} (m : M A) (k : A → M B) : M B :=
  fun t => match m t with
           | (t', inl e) => (t', inl e)
           | (t', inr a) => k a t'
           end.

Definition raise {A} (e : exn) : M A := fun t => (t, inl e).

Definition emit (ev : event) : M unit := fun t => (t ++ [ev], inr tt).

(** A pure step that may raise. *)
Definition lift {A} (r : exn + A) : M A := fun t => (t, r).

Declare Scope py_scope.
Delimit Scope py_scope with py.
Notation "x <- m ;; k" := (bind m (fun x => k))
  (at level 100, m at next level, right associativity) : py_scope.
Notation "m ;; k" := (bind m (fun _ => k))
  (at level 100, right associativity) : py_scope.
Open Scope py_scope.

(** [try: body except cls: handler] *)
Definition try_except {A} (body : M A) (cls : exn → bool) (handler : M A) : M A :=
  fun t => match body t with
           | (t', inl e) => if cls e then handler t' else (t', inl e)
           | r => r
           end.

(** [assert(b)] *)
Definition assert (b : bool) : M unit :=
  if b then ret tt else raise AssertionError.

(** [for x in l: s = body(s, x)], the loop state threaded through. *)
Fixpoint for_each {A S} (l : list A) (body : S → A → M S) (s : S) : M S :=
  match l with
  | [] => ret s
  | x :: l' => s' <- body s x ;; for_each l' body s'
  end.

(** [range(0, n)] *)
Definition range (n : nat) : list nat := seq 0 n.

(** [l[i]] for [i >= 0] *)
Definition getitem {A} (l : list A) (i : nat) : exn + A :=
  match l !! i with
  | Some x => inr x
  | None => inl IndexError
  end.

(** [d[k]] on a dict with string keys; a key that is [None] is not there. *)
Definition dict_getitem {V} (d : gmap string V) (k : option string) : exn + V :=
  match k with
  | Some s => match d !! s with
              | Some v => inr v
              | None => inl KeyError
              end
  | None => inl KeyError
  end.

Definition is_KeyError (e : exn) : bool :=
  match e with KeyError => true | _ => false end.

Definition is_AttributeError (e : exn) : bool :=
  match e with AttributeError _ => true | _ => false end.

(** Truth value of [None], of a string and of a list. *)
Definition truthy_str (s : option string) : bool :=
  match s with
  | None | Some "" => false
  | Some _ => true
  end.

Definition truthy_list {A} (l : option (list A)) : bool :=
  match l with
  | None | Some [] => false
  | Some _ => true
  end.

(** ** The collaborators *)

(** [logging.info(msg)] *)
Definition logging_info (msg : string) : M unit := emit (LogInfo msg).

(** [query.order_by(o)], [query.filter(f)], [query.limit(n)] *)
Definition order_by (query : Query) (o : order_clause) : M Query :=
  emit (Call (OrderBy o)) ;; ret (query ++ [OrderBy o]).

Definition filter_ (query : Query) (f : expr) : M Query :=
  emit (Call (Filter f)) ;; ret (query ++ [Filter f]).

Definition limit_ (query : Query) (n : Z) : M Query :=
  emit (Call (Limit n)) ;; ret (query ++ [Limit n]).

(** [getattr(model, name)]: the model class is given by the names of its
    mapped attributes. *)
Definition getattr_model (model : gset string) (name : string) : exn + column :=
  if bool_decide (name ∈ model) then inr (ModelAttr name)
  else inl (AttributeError name).

(** [getattr(marker, name)]: the marker is a row object, a finite map from
    attribute names to values; an attribute may hold [None]. *)
Definition getattr_marker (marker : gmap string value) (name : string) : exn + value :=
  match marker !! name with
  | Some v => inr v
  | None => inl (AttributeError name)
  end.

(** ** [paginate_query] *)

Definition id_warning : string := "Id not in sort_keys; is sort_keys unique?".

Definition unknown_sort_direction : string :=
  "Unknown sort direction, must be 'desc' or 'asc'".

(** The dict literal of lines 59-62. *)
Definition sort_dir_funcs : gmap string (column → order_clause) :=
  <["asc" := asc]> (<["desc" := desc]> ∅).

(** Lines 46-52: default the direction to ascending, then make sure there
    is one direction per column.  A direction is a string or [None]. *)
Definition ensure_sort_dirs (sort_keys : list string) (sort_dir : option string)
    (sort_dirs : option (list (option string))) : list (option string) :=
  let sort_dir :=
    match sort_dirs, sort_dir with
    | None, None => Some "asc"
    | _, _ => sort_dir
    end in
  match sort_dirs with
  | None => map (fun _sort_key => sort_dir) sort_keys
  | Some sort_dirs => sort_dirs
  end.

(** Lines 57-70, one iteration. *)
Definition add_sorting (model : gset string) (query : Query)
    (kd : string * option string) : M Query :=
  let '(current_sort_key, current_sort_dir) := kd in
  sort_dir_func <- try_except (lift (dict_getitem sort_dir_funcs current_sort_dir))
                     is_KeyError (raise (ValueError unknown_sort_direction)) ;;
  sort_key_attr <- try_except (lift (getattr_model model current_sort_key))
                     is_AttributeError (raise InvalidSortKey) ;;
  order_by query (sort_dir_func sort_key_attr).

(** Lines 83-85, one iteration of the inner loop. *)
Definition add_equality (model : gset string) (sort_keys : list string)
    (marker_values : list value) (crit_attrs : list expr) (j : nat) : M (list expr) :=
  k <- lift (getitem sort_keys j) ;;
  model_attr <- lift (getattr_model model k) ;;
  v <- lift (getitem marker_values j) ;;
  ret (crit_attrs ++ [Eq model_attr v]).

(** Lines 82-94, one iteration of the outer loop. *)
Definition add_criteria (model : gset string) (sort_keys : list string)
    (sort_dirs : list (option string)) (marker_values : list value)
    (criteria_list : list expr) (i : nat) : M (list expr) :=
  crit_attrs <- for_each (range i) (add_equality model sort_keys marker_values) [] ;;
  k <- lift (getitem sort_keys i) ;;
  model_attr <- lift (getattr_model model k) ;;
  d <- lift (getitem sort_dirs i) ;;
  v <- lift (getitem marker_values i) ;;
  let crit_attrs :=
    if bool_decide (d = Some "desc") then crit_attrs ++ [Lt model_attr v]
    else crit_attrs ++ [Gt model_attr v] in
  let criteria := and_ crit_attrs in
  ret (criteria_list ++ [criteria]).

(** Lines 73-97. *)
Definition add_pagination (model : gset string) (sort_keys : list string)
    (sort_dirs : list (option string)) (marker : gmap string value)
    (query : Query) : M Query :=
  marker_values <- for_each sort_keys
                     (fun marker_values sort_key =>
                        v <- lift (getattr_marker marker sort_key) ;;
                        ret (marker_values ++ [v])) [] ;;
  criteria_list <- for_each (range (length sort_keys))
                     (add_criteria model sort_keys sort_dirs marker_values) [] ;;
  let f := or_ criteria_list in
  filter_ query f.

Definition paginate_query (query : Query) (model : gset string) (limit : option Z)
    (sort_keys : list string) (marker : option (gmap string value))
    (sort_dir : option string) (sort_dirs : option (list (option string))) : M Query :=
  (if bool_decide ("id" ∉ sort_keys) then logging_info id_warning else ret tt) ;;
  assert (negb (truthy_str sort_dir && truthy_list sort_dirs)) ;;
  let sort_dirs := ensure_sort_dirs sort_keys sort_dir sort_dirs in
  assert (bool_decide (length sort_dirs = length sort_keys)) ;;
  query <- for_each (zip sort_keys sort_dirs) (add_sorting model) query ;;
  query <- match marker with
           | Some marker => add_pagination model sort_keys sort_dirs marker query
           | None => ret query
           end ;;
  query <- match limit with
           | Some limit => limit_ query limit
           | None => ret query
           end ;;
  ret query.

(** Running a call from an empty trace. *)
Definition run {A} (m : M A) : list event * (exn + A) := m [].

(** ** What the store does with a query

    The query adapter is a collaborator that the repository only uses (it
    is [sqlalchemy] and the database behind it).  A query is
    executed by keeping the rows on which every filter is true, sorting
    them by the ordering clauses as one multi-level stable sort, skipping
    the offset and keeping at most the limit.  How two values compare is
    left to the engine: [compare_values] answers [None] when the
    comparison is unknown (a NULL operand, for instance). *)

Section Adapter.

Variable compare_values : value → value → option comparison.

Definition row_value (r : gmap string value) (c : column) : value :=
  match c with ModelAttr name => default VNone (r !! name) end.

Definition holds_cmp (expected : comparison) (r : gmap string value)
    (c : column) (v : value) : option bool :=
  match compare_values (row_value r c) v with
  | Some o => Some (bool_decide (o = expected))
  | None => None
  end.

(** Three-valued conjunction and disjunction. *)
Definition and3 (a b : option bool) : option bool :=
  match a, b with
  | Some false, _ | _, Some false => Some false
  | Some true, Some true => Some true
  | _, _ => None
  end.

Definition or3 (a b : option bool) : option bool :=
  match a, b with
  | Some true, _ | _, Some true => Some true
  | Some false, Some false => Some false
  | _, _ => None
  end.

(** Modelled from the spec: the truth value the adapter gives a
    predicate on a row; the engine that evaluates predicates is not
    part of the repository. *)
Fixpoint eval (r : gmap string value) (e : expr) : option bool :=
  match e with
  | Eq c v => holds_cmp Datatypes.Eq r c v
  | Lt c v => holds_cmp Datatypes.Lt r c v
  | Gt c v => holds_cmp Datatypes.Gt r c v
  | and_ clauses => foldr and3 (Some true) (map (eval r) clauses)
  | or_ clauses => foldr or3 (Some false) (map (eval r) clauses)
  end.

(** A row passes a filter when the filter is true on it, not when it is
    false or unknown. *)
Definition selects (f : expr) (r : gmap string value) : bool :=
  bool_decide (eval r f = Some true).

(** [a] comes strictly before [b] in the order given by the clauses. *)
Fixpoint row_before (os : list order_clause) (a b : gmap string value) : bool :=
  match os with
  | [] => false
  | o :: os' =>
      let '(c, first) :=
        match o with
        | asc c => (c, Datatypes.Lt)
        | desc c => (c, Datatypes.Gt)
        end in
      match compare_values (row_value a c) (row_value b c) with
      | Some Datatypes.Eq | None => row_before os' a b
      | Some o' => bool_decide (o' = first)
      end
  end.

Fixpoint insert_row (os : list order_clause) (a : gmap string value)
    (l : list (gmap string value)) : list (gmap string value) :=
  match l with
  | [] => [a]
  | b :: l' => if row_before os b a then b :: insert_row os a l' else a :: b :: l'
  end.

Definition sort_rows (os : list order_clause) (l : list (gmap string value)) :
    list (gmap string value) :=
  foldr (insert_row os) [] l.

Definition orderings (q : Query) : list order_clause :=
  omap (fun c => match c with OrderBy o => Some o | _ => None end) q.

Definition filters (q : Query) : list expr :=
  omap (fun c => match c with Filter f => Some f | _ => None end) q.

(** The limit and the offset in force are the ones set last. *)
Definition limit_of (q : Query) : option Z :=
  last (omap (fun c => match c with Limit n => Some n | _ => None end) q).

Definition offset_of (q : Query) : option Z :=
  last (omap (fun c => match c with Offset n => Some n | _ => None end) q).

(** Modelled from the spec: the adapter's [execute], which the
    repository calls as [query.all()] and does not contain.  The limit
    is meant for [n >= 0]. *)
Definition execute (q : Query) (rows : list (gmap string value)) :
    list (gmap string value) :=
  let kept := List.filter (fun r => forallb (fun f => selects f r) (filters q)) rows in
  let sorted := sort_rows (orderings q) kept in
  let skipped := match offset_of q with
                 | Some n => drop (Z.to_nat n) sorted
                 | None => sorted
                 end in
  match limit_of q with
  | Some n => take (Z.to_nat n) skipped
  | None => skipped
  end.

End Adapter.

(** A value order for examples: integers by size, strings by code point,
    anything else unknown. *)
Definition sql_compare (a b : value) : option comparison :=
  match a, b with
  | VInt x, VInt y => Some (x ?= y)%Z
  | VStr x, VStr y => Some (String.compare x y)
  | _, _ => None
  end.

(** ** The page description of the interface

    The second description of the output, written from the documentation
    of the algorithm rather than from its loops: a sort specification is a
    list of keys with a direction each, a marker supplies one value per
    key, and the marker predicate is the disjunction over [i] of "the keys
    before [i] are tied with the marker and key [i] strictly advances in
    its own direction". *)

Inductive direction := ascending | descending.

Definition direction_name (d : direction) : option string :=
  match d with
  | ascending => Some "asc"
  | descending => Some "desc"
  end.

Definition spec_ordering (k : string) (d : direction) : order_clause :=
  match d with
  | ascending => asc (ModelAttr k)
  | descending => desc (ModelAttr k)
  end.

Definition spec_tie (kmd : string * value * direction) : expr :=
  let '(k, m, _) := kmd in Eq (ModelAttr k) m.

Definition spec_advance (kmd : string * value * direction) : expr :=
  let '(k, m, d) := kmd in
  match d with
  | ascending => Gt (ModelAttr k) m
  | descending => Lt (ModelAttr k) m
  end.

Definition spec_term (spec : list (string * value * direction)) (i : nat)
    (kmd : string * value * direction) : expr :=
  and_ (map spec_tie (take i spec) ++ [spec_advance kmd]).

Definition spec_marker_predicate (spec : list (string * value * direction)) : expr :=
  or_ (imap (spec_term spec) spec).

(** The value a marker supplies for each key ([None] where it has none). *)
Definition marker_values (marker : gmap string value) (keys : list string) : list value :=
  map (fun k => default VNone (marker !! k)) keys.

Definition zip3 (keys : list string) (ms : list value) (ds : list direction) :
    list (string * value * direction) :=
  zip (zip keys ms) ds.

Definition limit_calls (limit : option Z) : list query_call :=
  match limit with
  | Some n => [Limit n]
  | None => []
  end.

(** The calls a page request amounts to: the orderings in specification
    order, the marker predicate if there is a marker, the limit if there
    is one. *)
Definition spec_page_calls (keys : list string) (ds : list direction)
    (marker : option (gmap string value)) (limit : option Z) : list query_call :=
  map OrderBy (zip_with spec_ordering keys ds)
  ++ match marker with
     | Some m => [Filter (spec_marker_predicate (zip3 keys (marker_values m keys) ds))]
     | None => []
     end
  ++ limit_calls limit.

(** The advisory diagnostic of a call. *)
Definition advisory (keys : list string) : list event :=
  if bool_decide ("id" ∈ keys) then [] else [LogInfo id_warning].

(** The direction strings the function recognizes. *)
Definition recognized (d : option string) : bool :=
  bool_decide (d = Some "asc") || bool_decide (d = Some "desc").

Definition direction_of (d : option string) : direction :=
  if bool_decide (d = Some "desc") then descending else ascending.

(** The calls that pass every check of the function. *)
Definition valid_call (model : gset string) (sort_keys : list string)
    (marker : option (gmap string value)) (sort_dir : option string)
    (sort_dirs : option (list (option string))) : bool :=
  let ds := ensure_sort_dirs sort_keys sort_dir sort_dirs in
  negb (truthy_str sort_dir && truthy_list sort_dirs)
  && bool_decide (length ds = length sort_keys)
  && forallb recognized ds
  && forallb (fun k => bool_decide (k ∈ model)) sort_keys
  && match marker with
     | Some m => forallb (fun k => bool_decide (is_Some (m !! k))) sort_keys
     | None => true
     end.

(** ** The demo data of the module

    The [Meter] model (lines 136-149) by its mapped attributes, and the
    row that [get_marker(alias_meter, 'odd', 'id7')] fetches from the
    data of [prepare_data]: the eighth meter inserted, by its attributes
    that are strings or integers. *)
Definition Meter : gset string :=
  {[ "id"; "counter_name"; "resource_id"; "counter_type"; "counter_unit";
     "counter_volume"; "timestamp" ]}.

Definition odd_id7 : gmap string value :=
  <["id" := VInt 8]> (<["counter_name" := VStr "odd"]> (<["resource_id" := VStr "id7"]>
  (<["counter_type" := VStr "odd"]> (<["counter_unit" := VStr "odd"]> ∅)))).

(** A query that a caller has already narrowed to the meters of type
    [odd]. *)
Definition odd_meters : Query :=
  [Filter (Eq (ModelAttr "counter_type") (VStr "odd"))].

(** ** The failures of the interface

    The interface description names the failures after what went wrong;
    the function signals them with the exceptions below.  Both direction
    checks are assertions, so both failures are the same
    [AssertionError]; a marker without an attribute for a key makes
    [getattr] raise [AttributeError], and one whose attribute holds
    [None] is refused by the comparison with [ArgumentError] (in
    [Checked]). *)
Definition ConflictingDirectionsError : exn := AssertionError.
Definition DirectionCountMismatchError : exn := AssertionError.
Definition UnknownSortDirectionError : exn := ValueError unknown_sort_direction.
Definition UnknownSortKeyError : exn := InvalidSortKey.
Definition MarkerValueMissingError (key : string) : exn := AttributeError key.

(** ** Reasoning about runs

    [emits m P Q E]: from any trace, [m] only appends events that satisfy
    [P], whether it returns or raises; a value it returns satisfies [Q]
    and an exception it raises satisfies [E]. *)
Definition emits {A} (m : M A) (P : event → Prop) (Q : A → Prop)
    (E : exn → Prop) : Prop :=
  ∀ t, ∃ evs, (m t).1 = t ++ evs ∧ Forall P evs ∧
              (∀ a, (m t).2 = inr a → Q a) ∧ (∀ e, (m t).2 = inl e → E e).

(** The inequalities of a predicate, left to right. *)
Fixpoint inequalities (e : expr) : list expr :=
  match e with
  | Eq _ _ => []
  | Lt _ _ | Gt _ _ => [e]
  | and_ clauses | or_ clauses => flat_map inequalities clauses
  end.

Definition is_Gt (e : expr) : Prop :=
  match e with Gt _ _ => True | _ => False end.

Definition is_Lt (e : expr) : Prop :=
  match e with Lt _ _ => True | _ => False end.

(** The inequalities of [f] are [>], or [<] where some direction in
    [dirs] is descending. *)
Definition advances_by (dirs : list (option string)) (f : expr) : Prop :=
  Forall (λ e, is_Gt e ∨ (is_Lt e ∧ Some "desc" ∈ dirs)) (inequalities f).

(** An event of a call whose directions are all ascending. *)
Definition ascending_only (ev : event) : Prop :=
  match ev with
  | Call (OrderBy o) => ∃ c, o = asc c
  | Call (Filter f) => Forall is_Gt (inequalities f)
  | _ => True
  end.

(** The calls that order or filter, as opposed to those that cut. *)
Definition order_or_filter (c : query_call) : Prop :=
  match c with
  | OrderBy _ | Filter _ => True
  | _ => False
  end.

(** ** The outcome of a call, check by check

    A call fails at the first check it does not pass, in the order of the
    function body: the two assertions, then key by key the direction and
    the attribute of the model, then the attributes of the marker.  The
    functions below compute, without running the loops, the orderings
    applied and the exception raised, if any. *)

Fixpoint sorting_outcome (model : gset string) (l : list (string * option string)) :
    list order_clause * option exn :=
  match l with
  | [] => ([], None)
  | (k, d) :: l' =>
      if negb (recognized d) then ([], Some (ValueError unknown_sort_direction))
      else if bool_decide (k ∈ model) then
        let '(os, e) := sorting_outcome model l' in
        (spec_ordering k (direction_of d) :: os, e)
      else ([], Some InvalidSortKey)
  end.

Fixpoint first_missing (marker : gmap string value) (keys : list string) : option string :=
  match keys with
  | [] => None
  | k :: keys' =>
      if bool_decide (is_Some (marker !! k)) then first_missing marker keys'
      else Some k
  end.

Definition paginate_outcome (model : gset string) (limit : option Z)
    (keys : list string) (marker : option (gmap string value))
    (sort_dir : option string) (sort_dirs : option (list (option string))) :
    list event * (exn + list query_call) :=
  let dirs := ensure_sort_dirs keys sort_dir sort_dirs in
  if truthy_str sort_dir && truthy_list sort_dirs then
    (advisory keys, inl AssertionError)
  else if negb (bool_decide (length dirs = length keys)) then
    (advisory keys, inl AssertionError)
  else
    let '(os, e) := sorting_outcome model (zip keys dirs) in
    let ordered := map OrderBy os in
    match e with
    | Some e => (advisory keys ++ map Call ordered, inl e)
    | None =>
        match marker with
        | Some m =>
            match first_missing m keys with
            | Some k => (advisory keys ++ map Call ordered, inl (AttributeError k))
            | None =>
                let f := spec_marker_predicate
                           (zip3 keys (marker_values m keys) (direction_of <$> dirs)) in
                let calls := ordered ++ [Filter f] ++ limit_calls limit in
                (advisory keys ++ map Call calls, inr calls)
            end
        | None =>
            let calls := ordered ++ limit_calls limit in
            (advisory keys ++ map Call calls, inr calls)
        end
    end.

(** The number of comparisons in a predicate. *)
Fixpoint comparisons (e : expr) : nat :=
  match e with
  | Eq _ _ | Lt _ _ | Gt _ _ => 1
  | and_ clauses | or_ clauses => sum_list (map comparisons clauses)
  end.

(** ** How a row compares with a marker

    For one key of the specification with its marker value: the engine
    knows how the row's value compares with the marker's, the two are
    tied, the row's value lies strictly beyond the marker's in the
    direction of the key. *)
Definition comparable (compare_values : value → value → option comparison)
    (r : gmap string value) (kmd : string * value * direction) : Prop :=
  is_Some (compare_values (row_value r (ModelAttr kmd.1.1)) kmd.1.2).

Definition tied (compare_values : value → value → option comparison)
    (r : gmap string value) (kmd : string * value * direction) : bool :=
  bool_decide (compare_values (row_value r (ModelAttr kmd.1.1)) kmd.1.2
               = Some Datatypes.Eq).

Definition advanced (compare_values : value → value → option comparison)
    (r : gmap string value) (kmd : string * value * direction) : bool :=
  bool_decide (compare_values (row_value r (ModelAttr kmd.1.1)) kmd.1.2
               = Some (match kmd.2 with
                       | ascending => Datatypes.Gt
                       | descending => Datatypes.Lt
                       end)).

(** ** [CeilometerBase] (lines 115-128)

    The methods that make a model object behave like a dict.  An object is
    given by its attributes; [setattr] sets one of them and [getattr]
    reads one, as for a marker. *)

Module CeilometerBase.

Definition __setitem__ (self : gmap string value) (key : string) (v : value) :
    gmap string value :=
  <[key := v]> self.

Definition __getitem__ (self : gmap string value) (key : string) : exn + value :=
  getattr_marker self key.

(** [items] is what [values.iteritems()] yields: the items of the dict
    [values], in an order that Python does not specify. *)
Definition update (self : gmap string value) (items : list (string * value)) :
    gmap string value :=
  foldl (λ self kv, <[kv.1 := kv.2]> self) self items.

End CeilometerBase.

(** ** [get_marker] and [get_meters] (lines 184-229)

    Both read the store through the session.  The rows that the session
    holds for the model are a parameter, and so is the engine's comparison
    of values; [query.one()] returns the only row of the result and raises
    [NoResultFound] or [MultipleResultsFound] otherwise. *)

Inductive no_single_row :=
| NoResultFound
| MultipleResultsFound.

Definition one (result : list (gmap string value)) : no_single_row + gmap string value :=
  match result with
  | [] => inl NoResultFound
  | [r] => inr r
  | _ => inl MultipleResultsFound
  end.

(** [session.query(model)]: a query with no call made on it yet. *)
Definition session_query : Query := [].

(** Lines 185-195.  What escapes is an exception of [paginate_query]'s
    kind (the [AttributeError] of [model.counter_name]) or the one of
    [query.one()]. *)
Definition get_marker (compare_values : value → value → option comparison)
    (rows : list (gmap string value)) (model : gset string)
    (counter_name resource_id : value) : M (no_single_row + gmap string value) :=
  let query := session_query in
  c <- lift (getattr_model model "counter_name") ;;
  query <- filter_ query (Eq c counter_name) ;;
  c <- lift (getattr_model model "resource_id") ;;
  query <- filter_ query (Eq c resource_id) ;;
  query <- limit_ query 1 ;;
  ret (one (execute compare_values query rows)).

(** An argument that is a string or [None], as a value. *)
Definition str_value (s : option string) : value :=
  match s with
  | Some s => VStr s
  | None => VNone
  end.

(** Lines 225-229 of [get_meters]: fetch the marker if both of its
    coordinates are given, then paginate.  The joined query of lines
    206-223 and the rows of [alias_meter] are parameters; the loop that
    prints the page is left out. *)
Definition get_meters (compare_values : value → value → option comparison)
    (rows : list (gmap string value)) (alias_meter : gset string) (query : Query)
    (counter_name resource_id : option string) (limit : option Z) :
    M (no_single_row + Query) :=
  marker <- (if truthy_str counter_name && truthy_str resource_id
             then
               marker <- get_marker compare_values rows alias_meter
                           (str_value counter_name) (str_value resource_id) ;;
               ret (sum_map id Some marker)
             else ret (inr None)) ;;
  match marker with
  | inl e => ret (inl e)
  | inr marker =>
      query <- paginate_query query alias_meter limit ["counter_name"; "resource_id"]
                 marker (Some "desc") None ;;
      ret (inr query)
  end.

(** ** What [sqlalchemy] refuses

    The expressions and the query are objects of [sqlalchemy], and two of
    the operations that [paginate_query] performs on them are refused on
    some arguments.  An ordering comparison of a column with [None]
    ([model_attr < None], [model_attr > None], lines 89 and 91) raises
    [ArgumentError]; the equality of line 85 accepts [None], it is the
    test [IS NULL].  And [order_by] and [filter] raise
    [InvalidRequestError] on a query that already has a limit or an
    offset; [limit] makes no such check.

    [Checked.paginate_query] is the function with these refusals: the
    body of [paginate_query] line by line, the comparisons and the two
    query methods replaced by the ones below. *)

(** The check that [order_by] and [filter] make before anything else. *)
Definition no_limit_offset (query : Query) : M unit :=
  match limit_of query, offset_of query with
  | None, None => ret tt
  | _, _ => raise InvalidRequestError
  end.

(** A marker has no value for a key when it lacks the attribute or the
    attribute holds [None]. *)
Definition value_missing (marker : gmap string value) (k : string) : Prop :=
  marker !! k = None ∨ marker !! k = Some VNone.

Module Checked.

(** [query.order_by(o)], [query.filter(f)] *)
Definition order_by (query : Query) (o : order_clause) : M Query :=
  no_limit_offset query ;; order_by query o.

Definition filter_ (query : Query) (f : expr) : M Query :=
  no_limit_offset query ;; filter_ query f.

(** [c < v], [c > v] on a column *)
Definition lt (c : column) (v : value) : exn + expr :=
  match v with
  | VNone => inl ArgumentError
  | _ => inr (Lt c v)
  end.

Definition gt (c : column) (v : value) : exn + expr :=
  match v with
  | VNone => inl ArgumentError
  | _ => inr (Gt c v)
  end.

(** Lines 57-70, one iteration. *)
Definition add_sorting (model : gset string) (query : Query)
    (kd : string * option string) : M Query :=
  let '(current_sort_key, current_sort_dir) := kd in
  sort_dir_func <- try_except (lift (dict_getitem sort_dir_funcs current_sort_dir))
                     is_KeyError (raise (ValueError unknown_sort_direction)) ;;
  sort_key_attr <- try_except (lift (getattr_model model current_sort_key))
                     is_AttributeError (raise InvalidSortKey) ;;
  order_by query (sort_dir_func sort_key_attr).

(** Lines 82-94, one iteration of the outer loop. *)
Definition add_criteria (model : gset string) (sort_keys : list string)
    (sort_dirs : list (option string)) (marker_values : list value)
    (criteria_list : list expr) (i : nat) : M (list expr) :=
  crit_attrs <- for_each (range i) (add_equality model sort_keys marker_values) [] ;;
  k <- lift (getitem sort_keys i) ;;
  model_attr <- lift (getattr_model model k) ;;
  d <- lift (getitem sort_dirs i) ;;
  v <- lift (getitem marker_values i) ;;
  crit_attrs <- (if bool_decide (d = Some "desc")
                 then c <- lift (lt model_attr v) ;; ret (crit_attrs ++ [c])
                 else c <- lift (gt model_attr v) ;; ret (crit_attrs ++ [c])) ;;
  let criteria := and_ crit_attrs in
  ret (criteria_list ++ [criteria]).

(** Lines 73-97. *)
Definition add_pagination (model : gset string) (sort_keys : list string)
    (sort_dirs : list (option string)) (marker : gmap string value)
    (query : Query) : M Query :=
  marker_values <- for_each sort_keys
                     (fun marker_values sort_key =>
                        v <- lift (getattr_marker marker sort_key) ;;
                        ret (marker_values ++ [v])) [] ;;
  criteria_list <- for_each (range (length sort_keys))
                     (add_criteria model sort_keys sort_dirs marker_values) [] ;;
  let f := or_ criteria_list in
  filter_ query f.

Definition paginate_query (query : Query) (model : gset string) (limit : option Z)
    (sort_keys : list string) (marker : option (gmap string value))
    (sort_dir : option string) (sort_dirs : option (list (option string))) : M Query :=
  (if bool_decide ("id" ∉ sort_keys) then logging_info id_warning else ret tt) ;;
  assert (negb (truthy_str sort_dir && truthy_list sort_dirs)) ;;
  let sort_dirs := ensure_sort_dirs sort_keys sort_dir sort_dirs in
  assert (bool_decide (length sort_dirs = length sort_keys)) ;;
  query <- for_each (zip sort_keys sort_dirs) (add_sorting model) query ;;
  query <- match marker with
           | Some marker => add_pagination model sort_keys sort_dirs marker query
           | None => ret query
           end ;;
  query <- match limit with
           | Some limit => limit_ query limit
           | None => ret query
           end ;;
  ret query.

End Checked.

(** Some sort key has an attribute of the marker that holds [None]. *)
Definition has_null (marker : gmap string value) (keys : list string) : bool :=
  existsb (λ k, bool_decide (marker !! k = Some VNone)) keys.

(** The outcome of a call of [Checked.paginate_query], check by check.
    On a query without limit or offset it is the one of
    [paginate_query], except that a marker holding [None] for a sort
    key stops the call after the orderings; on a query with a limit or
    an offset the first [order_by] or [filter] is refused. *)
Definition checked_outcome (query : Query) (model : gset string) (limit : option Z)
    (keys : list string) (marker : option (gmap string value))
    (sort_dir : option string) (sort_dirs : option (list (option string))) :
    list event * (exn + list query_call) :=
  let dirs := ensure_sort_dirs keys sort_dir sort_dirs in
  let out := paginate_outcome model limit keys marker sort_dir sort_dirs in
  match limit_of query, offset_of query with
  | None, None =>
      match out.2, marker with
      | inr _, Some m =>
          if has_null m keys then
            (advisory keys
               ++ map Call (map OrderBy
                    (zip_with spec_ordering keys (direction_of <$> dirs))),
             inl ArgumentError)
          else out
      | _, _ => out
      end
  | _, _ =>
      if (truthy_str sort_dir && truthy_list sort_dirs)
         || negb (bool_decide (length dirs = length keys))
      then (advisory keys, inl AssertionError)
      else
        match zip keys dirs with
        | (k, d) :: _ =>
            (advisory keys,
             inl (if negb (recognized d) then ValueError unknown_sort_direction
                  else if bool_decide (k ∈ model) then InvalidRequestError
                  else InvalidSortKey))
        | [] =>
            match marker with
            | Some _ => (advisory keys, inl InvalidRequestError)
            | None => (advisory keys ++ map Call (limit_calls limit),
                       inr (limit_calls limit))
            end
        end
  end.

(** * Properties *)

Section Runs.

Context {A B : Type}.
Variable P : event → Prop.
Variable E : exn → Prop.

Lemma bind_ok (m : M A) (k : A → M B) t t' a :
  m t = (t', inr a) → bind m k t = k a t'.
Proof. unfold bind. intros ->. reflexivity. Qed.

Lemma bind_err (m : M A) (k : A → M B) t t' e :
  m t = (t', inl e) → bind m k t = (t', inl e).
Proof. unfold bind. intros ->. reflexivity. Qed.

Lemma emits_ret (a : A) (Q : A → Prop) : Q a → emits (ret a) P Q E.
Proof.
  intros Ha t. exists []. rewrite app_nil_r. cbn.
  split_and!; [done | constructor | congruence | discriminate].
Qed.

Lemma emits_raise (e : exn) (Q : A → Prop) : E e → emits (raise e) P Q E.
Proof.
  intros He t. exists []. rewrite app_nil_r. cbn.
  split_and!; [done | constructor | discriminate | congruence].
Qed.

Lemma emits_lift (r : exn + A) (Q : A → Prop) :
  (∀ a, r = inr a → Q a) → (∀ e, r = inl e → E e) → emits (lift r) P Q E.
Proof.
  intros Hr He t. exists []. rewrite app_nil_r. cbn.
  split_and!; [done | constructor | done | done].
Qed.

Lemma emits_bind (m : M A) (k : A → M B) (Q : A → Prop) (R : B → Prop) :
  emits m P Q E → (∀ a, Q a → emits (k a) P R E) → emits (bind m k) P R E.
Proof.
  intros Hm Hk t. destruct (Hm t) as (evs & Ht & Hevs & Hq & He).
  unfold bind. destruct (m t) as [t' [e | a]]; cbn in *; subst t'.
  - exists evs. split_and!; [done | done | discriminate |].
    intros e' [= <-]. by apply He.
  - destruct (Hk a (Hq a eq_refl) (t ++ evs)) as (evs' & Ht' & Hevs' & Hr & He').
    exists (evs ++ evs'). rewrite Ht', app_assoc.
    split_and!; [done | by apply Forall_app | done | done].
Qed.

(** The handler takes over the exceptions of the class; the others
    escape. *)
Lemma emits_try_except (body handler : M A) (cls : exn → bool)
    (Q : A → Prop) (E' : exn → Prop) :
  emits body P Q E' → (∀ e, E' e → cls e = false → E e) →
  emits handler P Q E → emits (try_except body cls handler) P Q E.
Proof.
  intros Hb Hcls Hh t. destruct (Hb t) as (evs & Ht & Hevs & Hq & He).
  unfold try_except. destruct (body t) as [t' [e | a]]; cbn in *; subst t'.
  - destruct (cls e) eqn:Hc.
    + destruct (Hh (t ++ evs)) as (evs' & Ht' & Hevs' & Hr & He').
      exists (evs ++ evs'). rewrite Ht', app_assoc.
      split_and!; [done | by apply Forall_app | done | done].
    + exists evs. split_and!; [done | done | discriminate |].
      intros e' [= <-]. auto.
  - exists evs. split_and!; [done | done | done | discriminate].
Qed.

End Runs.

Lemma emits_weaken {A} (m : M A) (P P' : event → Prop) (Q Q' : A → Prop)
    (E E' : exn → Prop) :
  emits m P Q E → (∀ ev, P ev → P' ev) → (∀ a, Q a → Q' a) →
  (∀ e, E e → E' e) → emits m P' Q' E'.
Proof.
  intros Hm HP HQ HE t. destruct (Hm t) as (evs & Ht & Hevs & Hq & He).
  exists evs. split_and!; [done | by eapply Forall_impl | auto | auto].
Qed.

Lemma emits_emit (ev : event) (P : event → Prop) (Q : unit → Prop)
    (E : exn → Prop) :
  P ev → Q tt → emits (emit ev) P Q E.
Proof.
  intros Hev Hq t. exists [ev]. cbn.
  split_and!; [done | by constructor | by intros [] | discriminate].
Qed.

Lemma emits_assert (b : bool) (P : event → Prop) (Q : unit → Prop)
    (E : exn → Prop) :
  (b = true → Q tt) → E AssertionError → emits (assert b) P Q E.
Proof.
  intros Hq He. unfold assert. destruct b.
  - apply emits_ret. auto.
  - by apply emits_raise.
Qed.

(** A loop keeps an invariant of its state that every iteration keeps. *)
Lemma emits_for_each {A S} (l : list A) (body : S → A → M S)
    (P : event → Prop) (I : S → Prop) (E : exn → Prop) (s : S) :
  I s → (∀ s x, I s → x ∈ l → emits (body s x) P I E) →
  emits (for_each l body s) P I E.
Proof.
  revert s. induction l as [| x l IH]; intros s Hs Hbody; cbn.
  - by apply emits_ret.
  - eapply emits_bind.
    + apply Hbody; [done | left].
    + intros s' Hs'. apply IH; [done |].
      intros s0 y Hs0 Hy. apply Hbody; [done | by right].
Qed.

(** ** The ordering loop *)

Lemma recognized_direction_name d : recognized (direction_name d) = true.
Proof. by destruct d. Qed.

Lemma direction_of_name d : direction_of (direction_name d) = d.
Proof. by destruct d. Qed.

Lemma recognized_direction_of d :
  recognized d = true → direction_name (direction_of d) = d.
Proof.
  unfold recognized, direction_of. intros H.
  apply orb_true_iff in H as [H | H]; apply bool_decide_eq_true in H; by subst d.
Qed.

Lemma sort_dir_func_known d :
  dict_getitem sort_dir_funcs (direction_name d) =
  inr (match d with ascending => asc | descending => desc end).
Proof. by destruct d. Qed.

Lemma sort_dir_func_unknown d :
  recognized d = false → dict_getitem sort_dir_funcs d = inl KeyError.
Proof.
  unfold recognized. intros H. apply orb_false_iff in H as [Ha Hd].
  apply bool_decide_eq_false in Ha, Hd.
  destruct d as [s |]; [| done]. unfold dict_getitem, sort_dir_funcs.
  rewrite lookup_insert_ne by congruence.
  rewrite lookup_insert_ne by congruence.
  by rewrite lookup_empty.
Qed.

Lemma add_sorting_ok model q k d t :
  k ∈ model →
  add_sorting model q (k, direction_name d) t =
  (t ++ [Call (OrderBy (spec_ordering k d))], inr (q ++ [OrderBy (spec_ordering k d)])).
Proof.
  intros Hk. unfold add_sorting, try_except, bind, lift, getattr_model.
  rewrite sort_dir_func_known, bool_decide_eq_true_2 by done.
  by destruct d.
Qed.

Lemma add_sorting_unknown_direction model q k d t :
  recognized d = false →
  add_sorting model q (k, d) t = (t, inl (ValueError unknown_sort_direction)).
Proof.
  intros Hd. unfold add_sorting, try_except, bind, lift.
  by rewrite sort_dir_func_unknown.
Qed.

Lemma add_sorting_unknown_key model q k d t :
  k ∉ model →
  add_sorting model q (k, direction_name d) t = (t, inl InvalidSortKey).
Proof.
  intros Hk. unfold add_sorting, try_except, bind, lift, getattr_model.
  rewrite sort_dir_func_known, bool_decide_eq_false_2 by done.
  reflexivity.
Qed.

(** With known keys and recognized directions the loop orders by every key
    in turn. *)
Lemma sorting_ok model keys ds q t :
  Forall (.∈ model) keys →
  for_each (zip keys (direction_name <$> ds)) (add_sorting model) q t =
  (t ++ map Call (map OrderBy (zip_with spec_ordering keys ds)),
   inr (q ++ map OrderBy (zip_with spec_ordering keys ds))).
Proof.
  intros Hkeys. revert ds q t.
  induction Hkeys as [| k keys Hk _ IH]; intros ds q t.
  - cbn. by rewrite !app_nil_r.
  - destruct ds as [| d ds]; cbn.
    + by rewrite !app_nil_r.
    + erewrite bind_ok by by apply add_sorting_ok.
      rewrite IH, <- !app_assoc. reflexivity.
Qed.

(** The loop stops with a [ValueError] at the first direction it does not
    recognize, provided the keys before it are attributes of the model. *)
Lemma sorting_unknown_direction model l q t i k d :
  l !! i = Some (k, d) → recognized d = false →
  (∀ j k' d', j < i → l !! j = Some (k', d') → k' ∈ model) →
  ∃ evs, for_each l (add_sorting model) q t =
           (t ++ evs, inl (ValueError unknown_sort_direction)) ∧
         Forall (λ ev, ∃ o, ev = Call (OrderBy o)) evs.
Proof.
  revert i q t. induction l as [| [k0 d0] l IH]; intros i q t Hi Hd Hbefore; [done |].
  cbn [for_each]. destruct (recognized d0) eqn:Hd0.
  - destruct i as [| i]; [cbn in Hi; congruence |].
    assert (k0 ∈ model) as Hk0 by (apply (Hbefore 0 k0 d0); [lia | done]).
    rewrite <- (recognized_direction_of d0 Hd0).
    erewrite bind_ok by by apply add_sorting_ok.
    destruct (IH i (q ++ [OrderBy (spec_ordering k0 (direction_of d0))])
                (t ++ [Call (OrderBy (spec_ordering k0 (direction_of d0)))]))
      as (evs & Hrun & Hevs); [done | done | |].
    { intros j k' d' Hj Hl. apply (Hbefore (S j) k' d'); [lia | done]. }
    exists (Call (OrderBy (spec_ordering k0 (direction_of d0))) :: evs).
    rewrite Hrun, <- app_assoc. split; [done |].
    constructor; [by eexists | done].
  - exists []. rewrite app_nil_r. split; [| constructor].
    erewrite bind_err; [done |]. by apply add_sorting_unknown_direction.
Qed.

(** ** The marker loops *)

Lemma marker_values_ok (marker : gmap string value) keys acc t :
  Forall (λ k, is_Some (marker !! k)) keys →
  for_each keys
    (fun marker_values sort_key =>
       v <- lift (getattr_marker marker sort_key) ;;
       ret (marker_values ++ [v])) acc t =
  (t, inr (acc ++ marker_values marker keys)).
Proof.
  intros Hkeys. revert acc.
  induction Hkeys as [| k keys [v Hv] _ IH]; intros acc; cbn.
  - by rewrite app_nil_r.
  - unfold bind at 1, lift, getattr_marker. rewrite Hv. cbn.
    rewrite IH, <- app_assoc. reflexivity.
Qed.

(** The first key the marker has no attribute for stops the loop. *)
Lemma marker_values_missing (marker : gmap string value) pre k post acc t :
  Forall (λ k, is_Some (marker !! k)) pre → marker !! k = None →
  for_each (pre ++ k :: post)
    (fun marker_values sort_key =>
       v <- lift (getattr_marker marker sort_key) ;;
       ret (marker_values ++ [v])) acc t =
  (t, inl (AttributeError k)).
Proof.
  intros Hpre Hk. revert acc.
  induction Hpre as [| k0 pre [v Hv] _ IH]; intros acc; cbn.
  - unfold bind, lift, getattr_marker. by rewrite Hk.
  - unfold bind at 1, lift, getattr_marker. rewrite Hv. cbn. apply IH.
Qed.

Section Criteria.

Variable model : gset string.
Variable spec : list (string * value * direction).

Let keys : list string := spec.*1.*1.
Let ms : list value := spec.*1.*2.
Let dirs : list (option string) := direction_name <$> spec.*2.

Hypothesis keys_known : Forall (.∈ model) keys.

Lemma spec_lookup i k m d :
  spec !! i = Some (k, m, d) →
  getitem keys i = inr k ∧ getitem ms i = inr m ∧
  getitem dirs i = inr (direction_name d) ∧
  getattr_model model k = inr (ModelAttr k).
Proof using keys_known.
  intros Hi. unfold getitem, keys, ms, dirs, getattr_model.
  rewrite !list_lookup_fmap, Hi. cbn. split_and!; try done.
  rewrite bool_decide_eq_true_2; [done |].
  apply (Forall_lookup_1 _ _ i k keys_known).
  unfold keys. by rewrite !list_lookup_fmap, Hi.
Qed.

(** Lines 83-85: the equalities on the keys before [i]. *)
Lemma equalities_ok n a acc t :
  a + n ≤ length spec →
  for_each (seq a n) (add_equality model keys ms) acc t =
  (t, inr (acc ++ map spec_tie (take n (drop a spec)))).
Proof using keys_known.
  revert a acc. induction n as [| n IH]; intros a acc Hlen; cbn [seq for_each].
  - by rewrite take_0, app_nil_r.
  - destruct (lookup_lt_is_Some_2 spec a) as [[[k m] d] Hi]; [lia |].
    destruct (spec_lookup a k m d Hi) as (Hk & Hm & _ & Hattr).
    unfold bind at 1, add_equality at 1, bind, lift, ret.
    rewrite Hk, Hattr, Hm. rewrite IH by lia.
    rewrite (drop_S _ _ _ Hi). cbn. by rewrite <- app_assoc.
Qed.

(** Lines 82-94: one term per key, the ties before it and its own
    strict comparison. *)
Lemma criteria_ok n a acc t :
  a + n = length spec →
  for_each (seq a n) (add_criteria model keys dirs ms) acc t =
  (t, inr (acc ++ imap (λ j, spec_term spec (a + j)) (drop a spec))).
Proof using keys_known.
  revert a acc. induction n as [| n IH]; intros a acc Hlen; cbn [seq for_each].
  - rewrite drop_ge by lia. by rewrite app_nil_r.
  - destruct (lookup_lt_is_Some_2 spec a) as [[[k m] d] Hi]; [lia |].
    destruct (spec_lookup a k m d Hi) as (Hk & Hm & Hd & Hattr).
    unfold bind at 1, add_criteria at 1, range.
    erewrite bind_ok by (apply equalities_ok; lia).
    unfold bind, lift, ret. rewrite Hk, Hattr, Hd, Hm.
    rewrite IH by lia. rewrite (drop_S _ _ _ Hi), imap_cons, <- app_assoc.
    do 3 f_equal. cbn [app]. f_equal.
    + unfold spec_term. rewrite Nat.add_0_r, drop_0. by destruct d.
    + apply imap_ext. intros j x _. cbn. f_equal. lia.
Qed.

End Criteria.

Lemma zip3_keys keys ms ds :
  length ms = length keys → length ds = length keys →
  (zip3 keys ms ds).*1.*1 = keys ∧ (zip3 keys ms ds).*1.*2 = ms ∧
  (zip3 keys ms ds).*2 = ds ∧ length (zip3 keys ms ds) = length keys.
Proof.
  intros Hms Hds. unfold zip3.
  assert (length (zip keys ms) = length keys) as Hzip
    by (rewrite length_zip_with; lia).
  rewrite fst_zip, snd_zip, length_zip_with by lia.
  rewrite fst_zip, snd_zip by lia. split_and!; [done | done | done | lia].
Qed.

Lemma length_marker_values marker keys :
  length (marker_values marker keys) = length keys.
Proof. apply length_map. Qed.

(** Lines 73-97 on a marker that has a value for every key. *)
Lemma add_pagination_ok model keys ds (marker : gmap string value) q t :
  Forall (.∈ model) keys → Forall (λ k, is_Some (marker !! k)) keys →
  length ds = length keys →
  let f := spec_marker_predicate (zip3 keys (marker_values marker keys) ds) in
  add_pagination model keys (direction_name <$> ds) marker q t =
  (t ++ [Call (Filter f)], inr (q ++ [Filter f])).
Proof.
  intros Hkeys Hmarker Hds f. unfold add_pagination.
  erewrite bind_ok by by apply marker_values_ok.
  destruct (zip3_keys keys (marker_values marker keys) ds)
    as (Hk & Hm & Hd & Hlen); [apply length_marker_values | done |].
  set (spec := zip3 keys (marker_values marker keys) ds) in *.
  pose proof (criteria_ok model spec) as Hcrit.
  rewrite Hk, Hm, Hd in Hcrit.
  erewrite bind_ok; last first.
  { unfold range. rewrite <- Hlen. by apply Hcrit. }
  rewrite drop_0. reflexivity.
Qed.

(** When the marker lacks a key the function raises before it filters. *)
Lemma add_pagination_missing model pre k post dirs (marker : gmap string value) q t :
  Forall (λ k, is_Some (marker !! k)) pre → marker !! k = None →
  add_pagination model (pre ++ k :: post) dirs marker q t =
  (t, inl (AttributeError k)).
Proof.
  intros Hpre Hk. unfold add_pagination.
  erewrite bind_err; [done |]. by apply marker_values_missing.
Qed.

Lemma advisory_run keys t :
  (if bool_decide ("id" ∉ keys) then logging_info id_warning else ret tt) t =
  (t ++ advisory keys, inr tt).
Proof.
  unfold advisory. destruct (decide ("id" ∈ keys)) as [Hin | Hout].
  - rewrite bool_decide_eq_false_2, bool_decide_eq_true_2 by auto.
    cbn. by rewrite app_nil_r.
  - by rewrite bool_decide_eq_true_2, bool_decide_eq_false_2.
Qed.

(** ** The whole function on a call that passes every check *)

Lemma paginate_query_ok q model limit keys ds marker sort_dir sort_dirs t :
  negb (truthy_str sort_dir && truthy_list sort_dirs) = true →
  ensure_sort_dirs keys sort_dir sort_dirs = direction_name <$> ds →
  length ds = length keys →
  Forall (.∈ model) keys →
  (∀ m, marker = Some m → Forall (λ k, is_Some (m !! k)) keys) →
  paginate_query q model limit keys marker sort_dir sort_dirs t =
  (t ++ advisory keys ++ map Call (spec_page_calls keys ds marker limit),
   inr (q ++ spec_page_calls keys ds marker limit)).
Proof.
  intros Hconflict Hdirs Hlen Hkeys Hmarker. unfold paginate_query.
  erewrite bind_ok by apply advisory_run.
  rewrite Hconflict. cbn [assert]. erewrite bind_ok by reflexivity.
  rewrite Hdirs, length_fmap, bool_decide_eq_true_2 by done.
  cbn [assert]. erewrite bind_ok by reflexivity.
  erewrite bind_ok by by apply sorting_ok.
  unfold spec_page_calls, limit_calls. rewrite !map_app, <- !app_assoc.
  destruct marker as [m |].
  - erewrite bind_ok by (apply add_pagination_ok; auto).
    destruct limit as [n |]; unfold bind, limit_, emit, ret; cbn;
      by rewrite <- ?app_assoc, ?app_nil_r.
  - erewrite bind_ok by reflexivity.
    destruct limit as [n |]; unfold bind, limit_, emit, ret; cbn;
      by rewrite <- ?app_assoc, ?app_nil_r.
Qed.

(** [valid_call] says exactly that. *)
Lemma valid_call_true model keys marker sort_dir sort_dirs :
  valid_call model keys marker sort_dir sort_dirs = true →
  let ds := direction_of <$> ensure_sort_dirs keys sort_dir sort_dirs in
  negb (truthy_str sort_dir && truthy_list sort_dirs) = true ∧
  ensure_sort_dirs keys sort_dir sort_dirs = direction_name <$> ds ∧
  length ds = length keys ∧
  Forall (.∈ model) keys ∧
  (∀ m, marker = Some m → Forall (λ k, is_Some (m !! k)) keys).
Proof.
  intros H ds. unfold valid_call in H.
  apply andb_true_iff in H as [H Hmarker].
  apply andb_true_iff in H as [H Hkeys].
  apply andb_true_iff in H as [H Hdirs].
  apply andb_true_iff in H as [Hconflict Hlen].
  apply bool_decide_eq_true in Hlen.
  rewrite forallb_forall in Hdirs. rewrite forallb_forall in Hkeys.
  split_and!.
  - done.
  - unfold ds. rewrite <- list_fmap_compose.
    rewrite <- (list_fmap_id (ensure_sort_dirs _ _ _)) at 1.
    apply list_fmap_ext. intros i d Hd. cbn. symmetry.
    apply recognized_direction_of, Hdirs.
    apply list_elem_of_In. by eapply list_elem_of_lookup_2.
  - unfold ds. by rewrite length_fmap.
  - apply Forall_forall. intros k Hk.
    eapply bool_decide_eq_true, Hkeys. by apply list_elem_of_In.
  - intros m ->. rewrite forallb_forall in Hmarker.
    apply Forall_forall. intros k Hk.
    eapply bool_decide_eq_true, Hmarker. by apply list_elem_of_In.
Qed.

(** ** What any call may emit and raise

    Whatever the arguments, the events of a call are the advisory
    diagnostic, orderings in the directions of the per-key list, one
    filter if there is a marker and the limit if there is one; this holds
    for the calls that raise as well. *)

Section Footprint.

Variable P : event → Prop.
Variable E : exn → Prop.
Variable model : gset string.
Variable keys : list string.
Variable dirs : list (option string).

Hypothesis P_asc : ∀ k, Some "asc" ∈ dirs → P (Call (OrderBy (asc (ModelAttr k)))).
Hypothesis P_desc : ∀ k, Some "desc" ∈ dirs → P (Call (OrderBy (desc (ModelAttr k)))).
Hypothesis E_direction :
  (∃ d, d ∈ dirs ∧ recognized d = false) → E (ValueError unknown_sort_direction).
Hypothesis E_key : E InvalidSortKey.

Lemma add_sorting_emits q k d :
  d ∈ dirs → emits (add_sorting model q (k, d)) P (λ _, True) E.
Proof using P_asc P_desc E_direction E_key.
  intros Hd t. destruct (recognized d) eqn:Hrec.
  - apply recognized_direction_of in Hrec. rewrite <- Hrec in Hd |- *.
    destruct (decide (k ∈ model)) as [Hk | Hk].
    + rewrite add_sorting_ok by done. eexists. cbn.
      split_and!; [done | | done | discriminate].
      constructor; [| constructor].
      destruct (direction_of d); cbn; auto.
    + rewrite add_sorting_unknown_key by done. exists []. cbn.
      rewrite app_nil_r. split_and!; [done | constructor | discriminate |].
      by intros e [= <-].
  - rewrite add_sorting_unknown_direction by done. exists []. cbn.
    rewrite app_nil_r. split_and!; [done | constructor | discriminate |].
    intros e [= <-]. apply E_direction. eauto.
Qed.

Lemma sorting_emits q :
  emits (for_each (zip keys dirs) (add_sorting model) q) P (λ _, True) E.
Proof using P_asc P_desc E_direction E_key.
  apply emits_for_each; [done |].
  intros q' [k d] _ Hkd. apply add_sorting_emits.
  apply list_elem_of_lookup in Hkd as [i Hi].
  apply lookup_zip_with_Some in Hi as (k' & d' & [= <- <-] & _ & Hd).
  by eapply list_elem_of_lookup_2.
Qed.

Variable marker : gmap string value.

Hypothesis P_filter : ∀ f, advances_by dirs f → P (Call (Filter f)).
Hypothesis E_attribute : ∀ k, E (AttributeError k).
Hypothesis E_index : E IndexError.

Lemma getitem_emits {A} (l : list A) i (Q : A → Prop) :
  (∀ x, x ∈ l → Q x) → emits (lift (getitem l i)) P Q E.
Proof using E_index.
  intros HQ. unfold getitem. apply emits_lift.
  - intros a. destruct (l !! i) eqn:Hi; intros [= <-].
    apply HQ. by eapply list_elem_of_lookup_2.
  - intros e. by destruct (l !! i); intros [= <-].
Qed.

Lemma getattr_model_emits k :
  emits (lift (getattr_model model k)) P (λ _, True) E.
Proof using E_attribute.
  unfold getattr_model. apply emits_lift; [done |].
  intros e. by case_bool_decide; intros [= <-].
Qed.

Lemma add_equality_emits ms crit_attrs j :
  flat_map inequalities crit_attrs = [] →
  emits (add_equality model keys ms crit_attrs j) P
    (λ crit_attrs, flat_map inequalities crit_attrs = []) E.
Proof using E_attribute E_index.
  intros Hinv. unfold add_equality.
  eapply emits_bind; [by apply getitem_emits with (Q := λ _, True) |].
  intros k _. eapply emits_bind; [apply getattr_model_emits |].
  intros c _. eapply emits_bind; [by apply getitem_emits with (Q := λ _, True) |].
  intros v _. apply emits_ret.
  by rewrite flat_map_app, Hinv.
Qed.

Lemma add_criteria_emits ms criteria_list i :
  advances_by dirs (or_ criteria_list) →
  emits (add_criteria model keys dirs ms criteria_list i) P
    (λ criteria_list, advances_by dirs (or_ criteria_list)) E.
Proof using E_attribute E_index.
  intros Hinv. unfold add_criteria.
  eapply emits_bind.
  { apply emits_for_each with (I := λ ca, flat_map inequalities ca = []); [done |].
    intros ca j Hca _. by apply add_equality_emits. }
  intros ca Hca. eapply emits_bind; [by apply getitem_emits with (Q := λ _, True) |].
  intros k _. eapply emits_bind; [apply getattr_model_emits |].
  intros c _. eapply emits_bind; [apply getitem_emits with (Q := λ d, d ∈ dirs); auto |].
  intros d Hd. eapply emits_bind; [by apply getitem_emits with (Q := λ _, True) |].
  intros v _. apply emits_ret.
  unfold advances_by in *. cbn [inequalities] in *.
  rewrite flat_map_app. apply Forall_app. split; [done |].
  cbn. rewrite app_nil_r. case_bool_decide as Hdesc.
  - rewrite flat_map_app, Hca. cbn. constructor; [| constructor].
    right. split; [done |]. by rewrite <- Hdesc.
  - rewrite flat_map_app, Hca. cbn. constructor; [| constructor]. by left.
Qed.

Lemma add_pagination_emits q :
  emits (add_pagination model keys dirs marker q) P (λ _, True) E.
Proof using P_filter E_attribute E_index.
  unfold add_pagination. eapply emits_bind.
  { apply emits_for_each with (I := λ _, True); [done |].
    intros mv k _ _. eapply emits_bind.
    - apply emits_lift with (Q := λ _, True); [done |].
      intros e. unfold getattr_marker. by destruct (marker !! k); intros [= <-].
    - intros v _. by apply emits_ret. }
  intros ms _. eapply emits_bind.
  { apply emits_for_each
      with (I := λ cl, advances_by dirs (or_ cl)); [constructor |].
    intros cl i Hcl _. by apply add_criteria_emits. }
  intros cl Hcl. unfold filter_. eapply emits_bind.
  - apply emits_emit with (Q := λ _, True); auto.
  - intros _ _. by apply emits_ret.
Qed.

End Footprint.

Lemma paginate_query_emits (P : event → Prop) (E : exn → Prop)
    q model limit keys marker sort_dir sort_dirs :
  let dirs := ensure_sort_dirs keys sort_dir sort_dirs in
  P (LogInfo id_warning) →
  (∀ k, Some "asc" ∈ dirs → P (Call (OrderBy (asc (ModelAttr k))))) →
  (∀ k, Some "desc" ∈ dirs → P (Call (OrderBy (desc (ModelAttr k))))) →
  (∀ f, is_Some marker → advances_by dirs f → P (Call (Filter f))) →
  (∀ n, limit = Some n → P (Call (Limit n))) →
  E AssertionError →
  ((∃ d, d ∈ dirs ∧ recognized d = false) → E (ValueError unknown_sort_direction)) →
  E InvalidSortKey →
  (is_Some marker → ∀ k, E (AttributeError k)) →
  (is_Some marker → E IndexError) →
  emits (paginate_query q model limit keys marker sort_dir sort_dirs) P (λ _, True) E.
Proof.
  intros dirs Plog Pasc Pdesc Pfilter Plimit Eassert Edir Ekey Eattr Eindex.
  unfold paginate_query. fold dirs.
  eapply emits_bind with (Q := λ _, True).
  { case_bool_decide; [by apply emits_emit | by apply emits_ret]. }
  intros _ _. eapply emits_bind; [by apply emits_assert with (Q := λ _, True) |].
  intros _ _. eapply emits_bind; [by apply emits_assert with (Q := λ _, True) |].
  intros _ _. eapply emits_bind; [by apply sorting_emits |].
  intros q1 _. eapply emits_bind with (Q := λ _, True).
  { destruct marker as [m |]; [| by apply emits_ret].
    apply add_pagination_emits; eauto. }
  intros q2 _. eapply emits_bind with (Q := λ _, True).
  { destruct limit as [n |]; [| by apply emits_ret].
    unfold limit_. eapply emits_bind.
    - apply emits_emit with (Q := λ _, True); auto.
    - intros _ _. by apply emits_ret. }
  intros q3 _. by apply emits_ret.
Qed.

(** ** Calls that stop at a check *)

Lemma paginate_query_conflict q model limit keys marker sort_dir sort_dirs t :
  truthy_str sort_dir = true → truthy_list sort_dirs = true →
  paginate_query q model limit keys marker sort_dir sort_dirs t =
  (t ++ advisory keys, inl AssertionError).
Proof.
  intros Hd Hds. unfold paginate_query.
  erewrite bind_ok by apply advisory_run.
  rewrite Hd, Hds. reflexivity.
Qed.

Lemma paginate_query_mismatch q model limit keys marker sort_dir sort_dirs t :
  length (ensure_sort_dirs keys sort_dir sort_dirs) ≠ length keys →
  paginate_query q model limit keys marker sort_dir sort_dirs t =
  (t ++ advisory keys, inl AssertionError).
Proof.
  intros Hlen. unfold paginate_query.
  erewrite bind_ok by apply advisory_run.
  destruct (negb (truthy_str sort_dir && truthy_list sort_dirs)); [| done].
  cbn [assert]. erewrite bind_ok by reflexivity.
  by rewrite bool_decide_eq_false_2.
Qed.

(** Past the two assertions, a failure of the ordering loop is the
    failure of the call. *)
Lemma paginate_query_sorting_fails q model limit keys marker sort_dir sort_dirs t t' e :
  negb (truthy_str sort_dir && truthy_list sort_dirs) = true →
  length (ensure_sort_dirs keys sort_dir sort_dirs) = length keys →
  for_each (zip keys (ensure_sort_dirs keys sort_dir sort_dirs))
    (add_sorting model) q (t ++ advisory keys) = (t', inl e) →
  paginate_query q model limit keys marker sort_dir sort_dirs t = (t', inl e).
Proof.
  intros Hconflict Hlen Hloop. unfold paginate_query.
  erewrite bind_ok by apply advisory_run.
  rewrite Hconflict. cbn [assert]. erewrite bind_ok by reflexivity.
  rewrite bool_decide_eq_true_2 by done.
  cbn [assert]. erewrite bind_ok by reflexivity.
  by erewrite bind_err.
Qed.

(** A marker that lacks a key stops the call after the orderings. *)
Lemma paginate_query_missing q model limit pre k post ds (marker : gmap string value)
    sort_dir sort_dirs t :
  let keys := pre ++ k :: post in
  negb (truthy_str sort_dir && truthy_list sort_dirs) = true →
  ensure_sort_dirs keys sort_dir sort_dirs = direction_name <$> ds →
  length ds = length keys →
  Forall (.∈ model) keys →
  Forall (λ k, is_Some (marker !! k)) pre → marker !! k = None →
  paginate_query q model limit keys (Some marker) sort_dir sort_dirs t =
  (t ++ advisory keys ++ map Call (map OrderBy (zip_with spec_ordering keys ds)),
   inl (AttributeError k)).
Proof.
  intros keys Hconflict Hdirs Hlen Hkeys Hpre Hk. unfold paginate_query.
  erewrite bind_ok by apply advisory_run.
  rewrite Hconflict. cbn [assert]. erewrite bind_ok by reflexivity.
  rewrite Hdirs, length_fmap, bool_decide_eq_true_2 by done.
  cbn [assert]. erewrite bind_ok by reflexivity.
  erewrite bind_ok by by apply sorting_ok.
  erewrite bind_err; [| by apply add_pagination_missing].
  by rewrite <- app_assoc.
Qed.

(** ** The calls that return

    [valid_call] is exactly the condition under which the function
    returns a query. *)

Lemma sorting_returns (model : gset string) l q t t' q' :
  for_each l (add_sorting model) q t = (t', inr q') →
  Forall (λ kd, kd.1 ∈ model ∧ recognized kd.2 = true) l.
Proof.
  revert q t. induction l as [| [k d] l IH]; intros q t Hrun; [constructor |].
  cbn [for_each] in Hrun. destruct (recognized d) eqn:Hd.
  - rewrite <- (recognized_direction_of d Hd) in Hrun.
    destruct (decide (k ∈ model)) as [Hk | Hk].
    + erewrite bind_ok in Hrun by by apply add_sorting_ok.
      constructor; [done | by eapply IH].
    + erewrite bind_err in Hrun by by apply add_sorting_unknown_key.
      discriminate.
  - erewrite bind_err in Hrun by by apply add_sorting_unknown_direction.
    discriminate.
Qed.

Lemma marker_values_returns (marker : gmap string value) keys acc t t' ms :
  for_each keys
    (fun marker_values sort_key =>
       v <- lift (getattr_marker marker sort_key) ;;
       ret (marker_values ++ [v])) acc t = (t', inr ms) →
  Forall (λ k, is_Some (marker !! k)) keys.
Proof.
  revert acc. induction keys as [| k keys IH]; intros acc Hrun; [constructor |].
  cbn [for_each] in Hrun. destruct (marker !! k) as [v |] eqn:Hk.
  - erewrite bind_ok in Hrun;
      [| unfold bind, lift, getattr_marker; rewrite Hk; reflexivity].
    constructor; [by eexists | by eapply IH].
  - erewrite bind_err in Hrun;
      [discriminate | unfold bind, lift, getattr_marker; by rewrite Hk].
Qed.

Lemma add_pagination_returns model keys dirs (marker : gmap string value) q t t' q' :
  add_pagination model keys dirs marker q t = (t', inr q') →
  Forall (λ k, is_Some (marker !! k)) keys.
Proof.
  unfold add_pagination. intros Hrun.
  destruct (for_each keys
              (fun marker_values sort_key =>
                 v <- lift (getattr_marker marker sort_key) ;;
                 ret (marker_values ++ [v])) [] t) as [t1 [e | ms]] eqn:Hms.
  - erewrite bind_err in Hrun by done. discriminate.
  - by eapply marker_values_returns.
Qed.

Lemma paginate_query_returns q model limit keys marker sort_dir sort_dirs t t' q' :
  paginate_query q model limit keys marker sort_dir sort_dirs t = (t', inr q') →
  valid_call model keys marker sort_dir sort_dirs = true.
Proof.
  unfold paginate_query, valid_call. intros Hrun.
  erewrite bind_ok in Hrun by apply advisory_run.
  destruct (negb (truthy_str sort_dir && truthy_list sort_dirs)); [| discriminate].
  cbn [assert] in Hrun. erewrite bind_ok in Hrun by reflexivity.
  set (dirs := ensure_sort_dirs keys sort_dir sort_dirs) in *.
  case_bool_decide as Hlen; [| discriminate].
  cbn [assert] in Hrun. erewrite bind_ok in Hrun by reflexivity.
  destruct (for_each (zip keys dirs) (add_sorting model) q (t ++ advisory keys))
    as [t1 [e | q1]] eqn:Hsort.
  { erewrite bind_err in Hrun by done. discriminate. }
  erewrite bind_ok in Hrun by done.
  apply sorting_returns in Hsort.
  assert (forallb recognized dirs = true) as ->.
  { apply forallb_forall. intros d Hd%list_elem_of_In.
    apply list_elem_of_lookup in Hd as [i Hi].
    destruct (lookup_lt_is_Some_2 keys i) as [k Hk].
    { rewrite <- Hlen. by eapply lookup_lt_Some. }
    apply (Forall_lookup_1 _ _ i (k, d)) in Hsort as [_ Hd]; [done |].
    apply lookup_zip_with_Some. eauto. }
  assert (forallb (λ k, bool_decide (k ∈ model)) keys = true) as ->.
  { apply forallb_forall. intros k Hk%list_elem_of_In.
    apply list_elem_of_lookup in Hk as [i Hi].
    destruct (lookup_lt_is_Some_2 dirs i) as [d Hd].
    { rewrite Hlen. by eapply lookup_lt_Some. }
    apply (Forall_lookup_1 _ _ i (k, d)) in Hsort as [Hk _].
    - by apply bool_decide_eq_true.
    - apply lookup_zip_with_Some. eauto. }
  cbn [andb]. destruct marker as [m |]; [| done].
  destruct (add_pagination model keys dirs m q1 t1) as [t2 [e | q2]] eqn:Hpage.
  { erewrite bind_err in Hrun by done. discriminate. }
  apply add_pagination_returns in Hpage.
  apply forallb_forall. intros k Hk%list_elem_of_In.
  apply bool_decide_eq_true. by eapply Forall_forall in Hpage.
Qed.

(** A call returns a query exactly when it is valid, and the query is the
    page description added to the one it was given. *)
Lemma paginate_query_returns_iff q model limit keys marker sort_dir sort_dirs t :
  valid_call model keys marker sort_dir sort_dirs = true ↔
  (paginate_query q model limit keys marker sort_dir sort_dirs t).2 =
  inr (q ++ spec_page_calls keys
              (direction_of <$> ensure_sort_dirs keys sort_dir sort_dirs) marker limit).
Proof.
  split.
  - intros Hvalid.
    destruct (valid_call_true _ _ _ _ _ Hvalid) as (Hconflict & Hdirs & Hlen & Hkeys & Hm).
    by erewrite paginate_query_ok.
  - intros Hrun.
    destruct (paginate_query q model limit keys marker sort_dir sort_dirs t)
      as [t' r] eqn:Hcall.
    cbn in Hrun. subst r. by eapply paginate_query_returns.
Qed.

(** ** Executing the queries *)

Section Execution.

Variable compare_values : value → value → option comparison.

(** A disjunction of one conjunction of one comparison is that
    comparison. *)
Lemma eval_single r e :
  eval compare_values r (or_ [and_ [e]]) = eval compare_values r e.
Proof. cbn. by destruct (eval compare_values r e) as [[] |]. Qed.

(** A conjunction of one clause is that clause. *)
Lemma eval_and_single r e :
  eval compare_values r (and_ [e]) = eval compare_values r e.
Proof. cbn. by destruct (eval compare_values r e) as [[] |]. Qed.

Lemma filters_filter a f b : filters (a ++ Filter f :: b) = filters a ++ f :: filters b.
Proof. unfold filters. by rewrite omap_app. Qed.

Lemma orderings_filter a f b : orderings (a ++ Filter f :: b) = orderings (a ++ b).
Proof. unfold orderings. by rewrite !omap_app. Qed.

Lemma limit_of_filter a f b : limit_of (a ++ Filter f :: b) = limit_of (a ++ b).
Proof. unfold limit_of. by rewrite !omap_app. Qed.

Lemma offset_of_filter a f b : offset_of (a ++ Filter f :: b) = offset_of (a ++ b).
Proof. unfold offset_of. by rewrite !omap_app. Qed.

Lemma limit_of_snoc q n : limit_of (q ++ [Limit n]) = Some n.
Proof. unfold limit_of. rewrite omap_app. apply last_snoc. Qed.

(** Replacing a filter by one that is equivalent on every row does not
    change what the query returns. *)
Lemma execute_filter_ext a b f g rows :
  (∀ r, eval compare_values r f = eval compare_values r g) →
  execute compare_values (a ++ Filter f :: b) rows =
  execute compare_values (a ++ Filter g :: b) rows.
Proof.
  intros Hfg. unfold execute.
  rewrite !filters_filter, !orderings_filter, !limit_of_filter, !offset_of_filter.
  replace (List.filter _ rows) with
    (List.filter
       (λ r, forallb (λ f0, selects compare_values f0 r) (filters a ++ g :: filters b))
       rows); [done |].
  apply List.filter_ext. intros r. rewrite !forallb_app. cbn [forallb].
  unfold selects at 2 5. by rewrite Hfg.
Qed.

(** The limit set last caps the rows returned. *)
Lemma execute_limit q n rows :
  length (execute compare_values (q ++ [Limit n]) rows) ≤ Z.to_nat n.
Proof.
  unfold execute. rewrite limit_of_snoc, length_take. lia.
Qed.

Lemma execute_limit_0 q rows :
  execute compare_values (q ++ [Limit 0]) rows = [].
Proof.
  apply nil_length_inv. pose proof (execute_limit q 0 rows). lia.
Qed.

End Execution.

(** ** Sort specifications with their marker values *)

Lemma spec_resolved (model : gset string) (marker : gmap string value)
    (spec : list (string * value * direction)) :
  Forall (λ kmd, kmd.1.1 ∈ model ∧ marker !! kmd.1.1 = Some kmd.1.2) spec →
  Forall (.∈ model) spec.*1.*1 ∧
  Forall (λ k, is_Some (marker !! k)) spec.*1.*1 ∧
  zip3 spec.*1.*1 (marker_values marker spec.*1.*1) spec.*2 = spec.
Proof.
  intros Hspec. split_and!.
  - rewrite <- list_fmap_compose. apply Forall_fmap.
    eapply Forall_impl; [exact Hspec |]. by intros kmd [? _].
  - rewrite <- list_fmap_compose. apply Forall_fmap.
    eapply Forall_impl; [exact Hspec |]. intros kmd [_ Hm]. cbn. by rewrite Hm.
  - assert (marker_values marker spec.*1.*1 = spec.*1.*2) as ->.
    { unfold marker_values. rewrite <- !list_fmap_compose.
      apply Forall_fmap_ext. eapply Forall_impl; [exact Hspec |].
      intros kmd [_ Hm]. cbn. by rewrite Hm. }
    unfold zip3. by rewrite !zip_fst_snd.
Qed.

(** * The statements of the specification *)

(** C1.  With a marker that supplies the values [m_1..m_n] for the sort
    keys [k_1..k_n] of directions [d_1..d_n], the filter that
    [paginate_query] adds is the disjunction over [i] of the conjunction of
    the equalities [k_j == m_j] for [j < i] and of the strict comparison
    of [k_i] with [m_i], [>] for an ascending and [<] for a descending
    key, the marker values taken as they are.  On the call of
    [get_meters('odd', 'id7')], keys [counter_name] and [resource_id] both
    descending, the filter is
    [(counter_name < "odd") OR (counter_name == "odd" AND resource_id < "id7")],
    the first disjunct built as a conjunction of one comparison. *)
Theorem marker_predicate_is_lexicographic_disjunction :
  (∀ q (model : gset string) limit (spec : list (string * value * direction))
     (marker : gmap string value) sort_dir sort_dirs t,
     negb (truthy_str sort_dir && truthy_list sort_dirs) = true →
     ensure_sort_dirs spec.*1.*1 sort_dir sort_dirs = direction_name <$> spec.*2 →
     Forall (λ kmd, kmd.1.1 ∈ model ∧ marker !! kmd.1.1 = Some kmd.1.2) spec →
     let calls := map OrderBy (zip_with spec_ordering spec.*1.*1 spec.*2)
                  ++ [Filter (spec_marker_predicate spec)] ++ limit_calls limit in
     paginate_query q model limit spec.*1.*1 (Some marker) sort_dir sort_dirs t =
     (t ++ advisory spec.*1.*1 ++ map Call calls, inr (q ++ calls))) ∧
  (∀ q limit t,
     let counter_name := ModelAttr "counter_name" in
     let resource_id := ModelAttr "resource_id" in
     let calls := [OrderBy (desc counter_name); OrderBy (desc resource_id);
                   Filter (or_ [and_ [Lt counter_name (VStr "odd")];
                                and_ [Eq counter_name (VStr "odd");
                                      Lt resource_id (VStr "id7")]])]
                  ++ limit_calls limit in
     paginate_query q Meter limit ["counter_name"; "resource_id"] (Some odd_id7)
       (Some "desc") None t =
     (t ++ [LogInfo id_warning] ++ map Call calls, inr (q ++ calls))) ∧
  (∀ compare_values r,
     let counter_name := ModelAttr "counter_name" in
     let resource_id := ModelAttr "resource_id" in
     eval compare_values r
       (or_ [and_ [Lt counter_name (VStr "odd")];
             and_ [Eq counter_name (VStr "odd"); Lt resource_id (VStr "id7")]]) =
     eval compare_values r
       (or_ [Lt counter_name (VStr "odd");
             and_ [Eq counter_name (VStr "odd"); Lt resource_id (VStr "id7")]])).
Proof.
  assert (∀ q (model : gset string) limit (spec : list (string * value * direction))
     (marker : gmap string value) sort_dir sort_dirs t,
     negb (truthy_str sort_dir && truthy_list sort_dirs) = true →
     ensure_sort_dirs spec.*1.*1 sort_dir sort_dirs = direction_name <$> spec.*2 →
     Forall (λ kmd, kmd.1.1 ∈ model ∧ marker !! kmd.1.1 = Some kmd.1.2) spec →
     let calls := map OrderBy (zip_with spec_ordering spec.*1.*1 spec.*2)
                  ++ [Filter (spec_marker_predicate spec)] ++ limit_calls limit in
     paginate_query q model limit spec.*1.*1 (Some marker) sort_dir sort_dirs t =
     (t ++ advisory spec.*1.*1 ++ map Call calls, inr (q ++ calls))) as General.
  { intros q model limit spec marker sort_dir sort_dirs t Hconflict Hdirs Hspec calls.
    destruct (spec_resolved model marker spec Hspec) as (Hkeys & Hmarker & Hzip).
    rewrite (paginate_query_ok q model limit spec.*1.*1 spec.*2 (Some marker)
               sort_dir sort_dirs t); try done.
    - unfold spec_page_calls. by rewrite Hzip.
    - by rewrite !length_fmap.
    - by intros m [= <-]. }
  split_and!; [exact General | |].
  - intros q limit t.
    apply (General q Meter limit
             [("counter_name", VStr "odd", descending);
              ("resource_id", VStr "id7", descending)] odd_id7 (Some "desc") None t);
      [done | done |].
    repeat constructor; compute_done.
  - intros compare_values r counter_name resource_id. cbn [eval map foldr].
    by destruct (holds_cmp compare_values Datatypes.Lt r counter_name (VStr "odd"))
      as [[] |].
Qed.

Lemma marker_predicate_is_lexicographic_disjunction_witness :
  run (paginate_query [] Meter (Some 3%Z) ["resource_id"; "id"] (Some odd_id7)
         None (Some [Some "desc"; Some "asc"])) =
  ([Call (OrderBy (desc (ModelAttr "resource_id")));
    Call (OrderBy (asc (ModelAttr "id")));
    Call (Filter (or_ [and_ [Lt (ModelAttr "resource_id") (VStr "id7")];
                       and_ [Eq (ModelAttr "resource_id") (VStr "id7");
                             Gt (ModelAttr "id") (VInt 8)]]));
    Call (Limit 3)],
   inr [OrderBy (desc (ModelAttr "resource_id"));
        OrderBy (asc (ModelAttr "id"));
        Filter (or_ [and_ [Lt (ModelAttr "resource_id") (VStr "id7")];
                     and_ [Eq (ModelAttr "resource_id") (VStr "id7");
                           Gt (ModelAttr "id") (VInt 8)]]);
        Limit 3]).
Proof.
  apply (proj1 marker_predicate_is_lexicographic_disjunction [] Meter (Some 3%Z)
           [("resource_id", VStr "id7", descending); ("id", VInt 8, ascending)]
           odd_id7 None (Some [Some "desc"; Some "asc"]) []).
  - reflexivity.
  - reflexivity.
  - repeat constructor; vm_compute; reflexivity.
Defined.

(** C2.  With exactly one sort key and a marker, the predicate that
    [paginate_query] adds, a disjunction of one conjunction of one
    comparison, is equivalent to the bare strict inequality on that key
    ([>] for ascending, [<] for descending): both have the same truth
    value on every row, whatever the engine's comparison of values, and
    the query returns the same rows with either. *)
Theorem single_key_predicate_is_bare_inequality :
  ∀ compare_values q (model : gset string) limit k v d
    (marker : gmap string value) sort_dir sort_dirs t,
    negb (truthy_str sort_dir && truthy_list sort_dirs) = true →
    ensure_sort_dirs [k] sort_dir sort_dirs = [direction_name d] →
    k ∈ model → marker !! k = Some v →
    let bare := match d with
                | ascending => Gt (ModelAttr k) v
                | descending => Lt (ModelAttr k) v
                end in
    ∃ f,
      paginate_query q model limit [k] (Some marker) sort_dir sort_dirs t =
      (t ++ advisory [k]
         ++ map Call ([OrderBy (spec_ordering k d); Filter f] ++ limit_calls limit),
       inr (q ++ [OrderBy (spec_ordering k d); Filter f] ++ limit_calls limit)) ∧
      (∀ r, eval compare_values r f = eval compare_values r bare) ∧
      (∀ r, selects compare_values f r = selects compare_values bare r) ∧
      (∀ rows,
         execute compare_values
           (q ++ [OrderBy (spec_ordering k d); Filter f] ++ limit_calls limit) rows =
         execute compare_values
           (q ++ [OrderBy (spec_ordering k d); Filter bare] ++ limit_calls limit) rows).
Proof.
  intros compare_values q model limit k v d marker sort_dir sort_dirs t
    Hconflict Hdirs Hk Hv bare.
  exists (or_ [and_ [bare]]).
  assert (∀ r, eval compare_values r (or_ [and_ [bare]]) = eval compare_values r bare)
    as Heval by (intros r; apply eval_single).
  split_and!.
  - rewrite (paginate_query_ok q model limit [k] [d] (Some marker) sort_dir sort_dirs t);
      [| done | done | done | by repeat constructor |].
    + unfold spec_page_calls, marker_values, spec_marker_predicate, zip3. cbn.
      rewrite Hv. cbn. unfold bare. by destruct d.
    + intros m [= <-]. repeat constructor. by rewrite Hv.
  - exact Heval.
  - intros r. unfold selects. by rewrite Heval.
  - intros rows.
    change (q ++ [OrderBy (spec_ordering k d); Filter (or_ [and_ [bare]])] ++ limit_calls limit)
      with (q ++ [OrderBy (spec_ordering k d)] ++ Filter (or_ [and_ [bare]]) :: limit_calls limit).
    change (q ++ [OrderBy (spec_ordering k d); Filter bare] ++ limit_calls limit)
      with (q ++ [OrderBy (spec_ordering k d)] ++ Filter bare :: limit_calls limit).
    rewrite !(app_assoc q). by apply execute_filter_ext.
Qed.

Lemma single_key_predicate_is_bare_inequality_witness :
  ∃ f,
    run (paginate_query [] Meter None ["id"] (Some odd_id7) (Some "desc") None) =
    ([Call (OrderBy (desc (ModelAttr "id"))); Call (Filter f)],
     inr [OrderBy (desc (ModelAttr "id")); Filter f]) ∧
    (∀ r, eval sql_compare r f = eval sql_compare r (Lt (ModelAttr "id") (VInt 8))) ∧
    (∀ r, selects sql_compare f r = selects sql_compare (Lt (ModelAttr "id") (VInt 8)) r) ∧
    (∀ rows,
       execute sql_compare [OrderBy (desc (ModelAttr "id")); Filter f] rows =
       execute sql_compare
         [OrderBy (desc (ModelAttr "id")); Filter (Lt (ModelAttr "id") (VInt 8))] rows).
Proof.
  apply (single_key_predicate_is_bare_inequality sql_compare [] Meter None "id"
           (VInt 8) descending odd_id7 (Some "desc") None []).
  - reflexivity.
  - reflexivity.
  - vm_compute. reflexivity.
  - reflexivity.
Defined.

(** ** The directions of a call *)

Lemma ensure_sort_dirs_recognized keys sort_dir sort_dirs :
  (∀ d, sort_dir = Some d → recognized (Some d) = true) →
  (∀ ds, sort_dirs = Some ds → Forall (λ d, recognized d = true) ds) →
  Forall (λ d, recognized d = true) (ensure_sort_dirs keys sort_dir sort_dirs).
Proof.
  intros Hdir Hdirs. unfold ensure_sort_dirs.
  destruct sort_dirs as [ds |]; [by apply Hdirs |].
  apply Forall_fmap, Forall_forall. intros k _. cbn.
  destruct sort_dir as [d |]; [by apply Hdir | done].
Qed.

Lemma recognized_dirs_no_value_error q model limit keys marker sort_dir sort_dirs t msg :
  Forall (λ d, recognized d = true) (ensure_sort_dirs keys sort_dir sort_dirs) →
  (paginate_query q model limit keys marker sort_dir sort_dirs t).2 ≠ inl (ValueError msg).
Proof.
  intros Hrec Hrun.
  destruct (paginate_query_emits (λ _, True) (λ e, ∀ msg, e ≠ ValueError msg)
              q model limit keys marker sort_dir sort_dirs) with (t := t)
    as (evs & _ & _ & _ & He); try done.
  - intros (d & Hd & Hunknown).
    rewrite Forall_forall in Hrec. specialize (Hrec d Hd). congruence.
  - by eapply He.
Qed.

(** C4, as the code has it.  The check is on the truth values of the two
    arguments: a call with a non-empty shared direction and a non-empty
    per-key list fails with the assertion error, having logged at most
    the advisory diagnostic and before any ordering, filter or limit is
    applied.  (An empty string or an empty list passes the check.) *)
Theorem conflicting_directions_fail :
  ∀ q (model : gset string) limit keys marker sort_dir sort_dirs t,
    truthy_str sort_dir = true → truthy_list sort_dirs = true →
    paginate_query q model limit keys marker sort_dir sort_dirs t =
    (t ++ advisory keys, inl ConflictingDirectionsError) ∧
    Forall (λ ev, ∀ c, ev ≠ Call c) (advisory keys).
Proof.
  intros q model limit keys marker sort_dir sort_dirs t Hd Hds. split.
  - by apply paginate_query_conflict.
  - unfold advisory. case_bool_decide; by repeat constructor.
Qed.

Lemma conflicting_directions_fail_witness :
  run (paginate_query [] Meter (Some 3%Z) ["counter_name"; "resource_id"] None
         (Some "desc") (Some [Some "asc"; Some "asc"])) =
  ([LogInfo id_warning], inl AssertionError) ∧
  Forall (λ ev, ∀ c, ev ≠ Call c) [LogInfo id_warning].
Proof.
  apply (conflicting_directions_fail [] Meter (Some 3%Z) ["counter_name"; "resource_id"]
           None (Some "desc") (Some [Some "asc"; Some "asc"]) []); reflexivity.
Defined.

(** C4 as stated fails: both arguments are supplied in these two calls,
    an empty shared direction next to a per-key list, and a shared
    direction next to an empty list for no keys, and both return. *)
Lemma conflicting_directions_counterexample :
  run (paginate_query [] Meter None ["id"] None (Some "") (Some [Some "desc"])) =
  ([Call (OrderBy (desc (ModelAttr "id")))], inr [OrderBy (desc (ModelAttr "id"))]) ∧
  run (paginate_query [] Meter None [] None (Some "asc") (Some [])) =
  ([LogInfo id_warning], inr []).
Proof. split; vm_compute; reflexivity. Qed.

(** C5.  A per-key direction list whose length differs from the number
    of sort keys makes [paginate_query] fail with the assertion error of
    the direction checks, before anything is applied to the query; so
    does a list of one direction for two keys. *)
Theorem direction_count_mismatch_fails :
  ∀ q (model : gset string) limit keys marker sort_dir ds t,
    length ds ≠ length keys →
    paginate_query q model limit keys marker sort_dir (Some ds) t =
    (t ++ advisory keys, inl DirectionCountMismatchError).
Proof.
  intros q model limit keys marker sort_dir ds t Hlen.
  by apply paginate_query_mismatch.
Qed.

Lemma direction_count_mismatch_fails_witness :
  run (paginate_query [] Meter None ["counter_name"; "resource_id"] None None
         (Some [Some "desc"])) =
  ([LogInfo id_warning], inl AssertionError).
Proof.
  apply (direction_count_mismatch_fails [] Meter None ["counter_name"; "resource_id"]
           None None [Some "desc"] []).
  cbn. lia.
Defined.

(** C6, as the code has it.  Directions are looked up one key at a time,
    after the two assertions and interleaved with the resolution of the
    keys.  So: on a call that passes the assertions, a direction of the
    per-key list that is not ['asc'] or ['desc'] makes the function fail
    with the [ValueError], provided the keys before it are attributes of
    the model; only orderings have been applied by then.  And when every
    direction supplied is one of the two, no [ValueError] is raised. *)
Theorem unknown_direction_fails :
  ∀ q (model : gset string) limit keys marker sort_dir sort_dirs t,
    let dirs := ensure_sort_dirs keys sort_dir sort_dirs in
    (∀ i d,
       negb (truthy_str sort_dir && truthy_list sort_dirs) = true →
       length dirs = length keys →
       dirs !! i = Some d → recognized d = false →
       (∀ j k, j < i → keys !! j = Some k → k ∈ model) →
       ∃ evs,
         paginate_query q model limit keys marker sort_dir sort_dirs t =
         (t ++ advisory keys ++ evs, inl UnknownSortDirectionError) ∧
         Forall (λ ev, ∃ o, ev = Call (OrderBy o)) evs) ∧
    ((∀ d, sort_dir = Some d → recognized (Some d) = true) →
     (∀ ds, sort_dirs = Some ds → Forall (λ d, recognized d = true) ds) →
     ∀ msg, (paginate_query q model limit keys marker sort_dir sort_dirs t).2
            ≠ inl (ValueError msg)).
Proof.
  intros q model limit keys marker sort_dir sort_dirs t dirs. split.
  - intros i d Hconflict Hlen Hi Hd Hbefore.
    destruct (lookup_lt_is_Some_2 keys i) as [k Hk].
    { rewrite <- Hlen. by eapply lookup_lt_Some. }
    destruct (sorting_unknown_direction model (zip keys dirs) q (t ++ advisory keys) i k d)
      as (evs & Hrun & Hevs); [| done | |].
    + apply lookup_zip_with_Some. eauto.
    + intros j k' d' Hj Hl.
      apply lookup_zip_with_Some in Hl as (? & ? & [= <- <-] & Hk' & _). eauto.
    + exists evs. split; [| done]. rewrite app_assoc.
      by apply paginate_query_sorting_fails.
  - intros Hdir Hdirs msg.
    by apply recognized_dirs_no_value_error, ensure_sort_dirs_recognized.
Qed.

Lemma unknown_direction_fails_witness :
  ∃ evs,
    paginate_query [] Meter None ["id"; "counter_name"; "resource_id"] None None
      (Some [Some "asc"; Some "up"; Some "desc"]) [] =
    ([] ++ advisory ["id"; "counter_name"; "resource_id"] ++ evs,
     inl (ValueError unknown_sort_direction)) ∧
    Forall (λ ev, ∃ o, ev = Call (OrderBy o)) evs.
Proof.
  apply (proj1 (unknown_direction_fails [] Meter None ["id"; "counter_name"; "resource_id"]
                  None None (Some [Some "asc"; Some "up"; Some "desc"]) [])
           1 (Some "up")).
  - reflexivity.
  - reflexivity.
  - reflexivity.
  - reflexivity.
  - intros j k Hj Hk. destruct j as [| j]; [| lia].
    cbn in Hk. injection Hk as <-. vm_compute. reflexivity.
Defined.

(** C6 as stated fails: in the first call the second direction is unknown
    but the first key is not an attribute of the model, and the function
    fails on the key; in the second the unknown shared direction comes
    with a per-key list, and the function fails on the assertion. *)
Lemma unknown_direction_counterexample :
  recognized (Some "up") = false ∧
  run (paginate_query [] Meter None ["project_id"; "id"] None None
         (Some [Some "asc"; Some "up"])) =
  ([], inl InvalidSortKey) ∧
  run (paginate_query [] Meter None ["id"] None (Some "up") (Some [Some "asc"])) =
  ([], inl AssertionError).
Proof. split_and!; vm_compute; reflexivity. Qed.

(** ** Default directions *)

Lemma ensure_sort_dirs_default keys :
  ensure_sort_dirs keys None None = direction_name <$> replicate (length keys) ascending.
Proof.
  unfold ensure_sort_dirs. induction keys as [| k keys IH]; [done |].
  cbn. by rewrite IH.
Qed.

Lemma ascending_orderings keys :
  zip_with spec_ordering keys (replicate (length keys) ascending) =
  map (λ k, asc (ModelAttr k)) keys.
Proof. induction keys as [| k keys IH]; [done |]. cbn. by rewrite IH. Qed.

(** C7.  When neither a shared direction nor a per-key list is given,
    every ordering that [paginate_query] emits is ascending and every
    inequality of the predicate it adds is [>], on the calls that raise as
    well; and a call whose keys resolve returns the query ordered
    ascending by each key in turn. *)
Theorem default_direction_is_ascending :
  ∀ q (model : gset string) limit keys marker t,
    (∃ evs, (paginate_query q model limit keys marker None None t).1 = t ++ evs ∧
            Forall ascending_only evs) ∧
    (Forall (.∈ model) keys →
     (∀ m, marker = Some m → Forall (λ k, is_Some (m !! k)) keys) →
     let all_ascending := replicate (length keys) ascending in
     let calls :=
       map OrderBy (map (λ k, asc (ModelAttr k)) keys)
       ++ match marker with
          | Some m => [Filter (spec_marker_predicate
                                 (zip3 keys (marker_values m keys) all_ascending))]
          | None => []
          end
       ++ limit_calls limit in
     paginate_query q model limit keys marker None None t =
     (t ++ advisory keys ++ map Call calls, inr (q ++ calls))).
Proof.
  intros q model limit keys marker t. split.
  - assert (Some "desc" ∉ ensure_sort_dirs keys None None) as Hasc.
    { unfold ensure_sort_dirs. intros Hin.
      apply list_elem_of_fmap in Hin as (k & Hk & _). discriminate. }
    destruct (paginate_query_emits ascending_only (λ _, True)
                q model limit keys marker None None) with (t := t)
      as (evs & Ht & Hevs & _); try done.
    + intros k _. cbn. eauto.
    + intros f _ Hf. cbn. eapply Forall_impl; [exact Hf |].
      intros e [He | [_ Hdesc]]; [done | by destruct Hasc].
    + eauto.
  - intros Hkeys Hmarker all_ascending calls.
    rewrite (paginate_query_ok q model limit keys all_ascending marker None None t);
      try done.
    + unfold spec_page_calls, calls, all_ascending. by rewrite ascending_orderings.
    + apply ensure_sort_dirs_default.
    + apply length_replicate.
Qed.

Lemma default_direction_is_ascending_witness :
  run (paginate_query [] Meter None ["resource_id"; "id"] (Some odd_id7) None None) =
  ([Call (OrderBy (asc (ModelAttr "resource_id")));
    Call (OrderBy (asc (ModelAttr "id")));
    Call (Filter (or_ [and_ [Gt (ModelAttr "resource_id") (VStr "id7")];
                       and_ [Eq (ModelAttr "resource_id") (VStr "id7");
                             Gt (ModelAttr "id") (VInt 8)]]))],
   inr [OrderBy (asc (ModelAttr "resource_id"));
        OrderBy (asc (ModelAttr "id"));
        Filter (or_ [and_ [Gt (ModelAttr "resource_id") (VStr "id7")];
                     and_ [Eq (ModelAttr "resource_id") (VStr "id7");
                           Gt (ModelAttr "id") (VInt 8)]])]).
Proof.
  apply (proj2 (default_direction_is_ascending [] Meter None ["resource_id"; "id"]
                  (Some odd_id7) [])).
  - repeat constructor; vm_compute; reflexivity.
  - intros m [= <-]. repeat constructor; vm_compute; eauto.
Defined.

(** ** Queries built from orderings and filters *)

Lemma limit_offset_unchanged q calls :
  Forall order_or_filter calls →
  limit_of (q ++ calls) = limit_of q ∧ offset_of (q ++ calls) = offset_of q.
Proof.
  intros Hcalls. unfold limit_of, offset_of. rewrite !omap_app.
  assert (omap (λ c, match c with Limit n => Some n | _ => None end) calls = [] ∧
          omap (λ c, match c with Offset n => Some n | _ => None end) calls = [])
    as [-> ->]; [| by rewrite !app_nil_r].
  induction Hcalls as [| c calls Hc _ [IHl IHo]]; [done |].
  by destruct c.
Qed.

Lemma filters_orderings q os limit :
  filters (q ++ map OrderBy os ++ limit_calls limit) = filters q.
Proof.
  unfold filters. rewrite !omap_app.
  assert (omap (λ c, match c with Filter f => Some f | _ => None end)
            (map OrderBy os) = []) as ->
    by (induction os; [done | by cbn]).
  destruct limit; cbn; by rewrite app_nil_r.
Qed.

(** C8.  Without a marker [paginate_query] adds no filter, on any call;
    and a call that passes the checks still orders by every sort key in
    turn, each in its own direction, before the limit. *)
Theorem first_page_has_no_filter :
  ∀ q (model : gset string) limit keys sort_dir sort_dirs t,
    (∃ evs, (paginate_query q model limit keys None sort_dir sort_dirs t).1 = t ++ evs ∧
            Forall (λ ev, ∀ f, ev ≠ Call (Filter f)) evs) ∧
    (valid_call model keys None sort_dir sort_dirs = true →
     let ds := direction_of <$> ensure_sort_dirs keys sort_dir sort_dirs in
     let orders := zip_with spec_ordering keys ds in
     let calls := map OrderBy orders ++ limit_calls limit in
     paginate_query q model limit keys None sort_dir sort_dirs t =
     (t ++ advisory keys ++ map Call calls, inr (q ++ calls)) ∧
     length orders = length keys ∧
     filters (q ++ calls) = filters q).
Proof.
  intros q model limit keys sort_dir sort_dirs t. split.
  - destruct (paginate_query_emits (λ ev, ∀ f, ev ≠ Call (Filter f)) (λ _, True)
                q model limit keys None sort_dir sort_dirs) with (t := t)
      as (evs & Ht & Hevs & _); try done.
    eauto.
  - intros Hvalid ds orders calls.
    destruct (valid_call_true _ _ _ _ _ Hvalid) as (Hconflict & Hdirs & Hlen & Hkeys & Hm).
    split_and!.
    + by rewrite (paginate_query_ok q model limit keys ds None sort_dir sort_dirs t).
    + unfold orders. rewrite length_zip_with. fold ds in Hlen. lia.
    + apply filters_orderings.
Qed.

Lemma first_page_has_no_filter_witness :
  run (paginate_query [] Meter (Some 3%Z) ["counter_name"; "resource_id"] None
         None (Some [Some "desc"; Some "asc"])) =
  ([LogInfo id_warning;
    Call (OrderBy (desc (ModelAttr "counter_name")));
    Call (OrderBy (asc (ModelAttr "resource_id")));
    Call (Limit 3)],
   inr [OrderBy (desc (ModelAttr "counter_name"));
        OrderBy (asc (ModelAttr "resource_id"));
        Limit 3]) ∧
  length [desc (ModelAttr "counter_name"); asc (ModelAttr "resource_id")] = 2 ∧
  filters ([] ++ [OrderBy (desc (ModelAttr "counter_name"));
                  OrderBy (asc (ModelAttr "resource_id")); Limit 3]) = filters [].
Proof.
  apply (proj2 (first_page_has_no_filter [] Meter (Some 3%Z) ["counter_name"; "resource_id"]
                  None (Some [Some "desc"; Some "asc"]) [])).
  vm_compute. reflexivity.
Defined.

Lemma page_calls_order_or_filter keys ds marker :
  Forall order_or_filter (spec_page_calls keys ds marker None).
Proof.
  unfold spec_page_calls, limit_calls. rewrite app_nil_r. apply Forall_app. split.
  - apply Forall_fmap, Forall_true. by intros o.
  - destruct marker; by repeat constructor.
Qed.

Lemma page_calls_limit keys ds marker limit :
  spec_page_calls keys ds marker limit =
  spec_page_calls keys ds marker None ++ limit_calls limit.
Proof. unfold spec_page_calls. cbn. by rewrite app_nil_r, <- app_assoc. Qed.

(** C9.  A limit that is given is applied to the query, last, after the
    orderings and the filter, and the function never sets an offset: the
    query then returns at most that many rows, none for a limit of 0.
    When no limit is given the function applies none, and the limit and
    offset of the query stay what they were. *)
Theorem limit_is_a_hard_cap :
  ∀ compare_values q (model : gset string) limit keys marker sort_dir sort_dirs t,
    (∃ evs,
       (paginate_query q model limit keys marker sort_dir sort_dirs t).1 = t ++ evs ∧
       Forall (λ ev, (∀ n, ev ≠ Call (Offset n)) ∧
                     (∀ n, ev = Call (Limit n) → limit = Some n)) evs) ∧
    (valid_call model keys marker sort_dir sort_dirs = true →
     ∃ calls,
       Forall order_or_filter calls ∧
       paginate_query q model limit keys marker sort_dir sort_dirs t =
       (t ++ advisory keys ++ map Call (calls ++ limit_calls limit),
        inr (q ++ calls ++ limit_calls limit)) ∧
       (∀ n, limit = Some n →
             limit_of (q ++ calls ++ limit_calls limit) = Some n ∧
             offset_of (q ++ calls ++ limit_calls limit) = offset_of q ∧
             ∀ rows, length (execute compare_values (q ++ calls ++ limit_calls limit) rows)
                     ≤ Z.to_nat n) ∧
       (limit = Some 0%Z →
        ∀ rows, execute compare_values (q ++ calls ++ limit_calls limit) rows = []) ∧
       (limit = None →
        limit_of (q ++ calls ++ limit_calls limit) = limit_of q ∧
        offset_of (q ++ calls ++ limit_calls limit) = offset_of q)).
Proof.
  intros compare_values q model limit keys marker sort_dir sort_dirs t. split.
  - destruct (paginate_query_emits
                (λ ev, (∀ n, ev ≠ Call (Offset n)) ∧
                       (∀ n, ev = Call (Limit n) → limit = Some n))
                (λ _, True) q model limit keys marker sort_dir sort_dirs) with (t := t)
      as (evs & Ht & Hevs & _); try done.
    + intros n ->. split; [done |]. by intros n' [= <-].
    + eauto.
  - intros Hvalid.
    destruct (valid_call_true _ _ _ _ _ Hvalid) as (Hconflict & Hdirs & Hlen & Hkeys & Hm).
    set (ds := direction_of <$> ensure_sort_dirs keys sort_dir sort_dirs) in *.
    exists (spec_page_calls keys ds marker None).
    pose proof (page_calls_order_or_filter keys ds marker) as Hcalls.
    split_and!.
    + done.
    + rewrite <- page_calls_limit. by apply paginate_query_ok.
    + intros n ->. cbn [limit_calls]. rewrite !app_assoc. split_and!.
      * apply limit_of_snoc.
      * unfold offset_of. rewrite omap_app. cbn. rewrite app_nil_r.
        by apply limit_offset_unchanged.
      * intros rows. apply execute_limit.
    + intros ->. intros rows. cbn [limit_calls]. rewrite !app_assoc.
      apply execute_limit_0.
    + intros ->. cbn [limit_calls]. rewrite app_nil_r.
      by apply limit_offset_unchanged.
Qed.

Lemma limit_is_a_hard_cap_witness :
  ∃ calls,
    Forall order_or_filter calls ∧
    paginate_query odd_meters Meter (Some 0%Z) ["counter_name"; "resource_id"]
      (Some odd_id7) (Some "desc") None [] =
    ([] ++ advisory ["counter_name"; "resource_id"]
        ++ map Call (calls ++ limit_calls (Some 0%Z)),
     inr (odd_meters ++ calls ++ limit_calls (Some 0%Z))) ∧
    (∀ n, Some 0%Z = Some n →
          limit_of (odd_meters ++ calls ++ limit_calls (Some 0%Z)) = Some n ∧
          offset_of (odd_meters ++ calls ++ limit_calls (Some 0%Z)) =
          offset_of odd_meters ∧
          ∀ rows, length (execute sql_compare
                            (odd_meters ++ calls ++ limit_calls (Some 0%Z)) rows)
                  ≤ Z.to_nat n) ∧
    (Some 0%Z = Some 0%Z →
     ∀ rows, execute sql_compare
               (odd_meters ++ calls ++ limit_calls (Some 0%Z)) rows = []) ∧
    (Some 0%Z = None →
     limit_of (odd_meters ++ calls ++ limit_calls (Some 0%Z)) =
     limit_of odd_meters ∧
     offset_of (odd_meters ++ calls ++ limit_calls (Some 0%Z)) =
     offset_of odd_meters).
Proof.
  apply (proj2 (limit_is_a_hard_cap sql_compare odd_meters Meter (Some 0%Z)
                  ["counter_name"; "resource_id"] (Some odd_id7) (Some "desc") None [])).
  vm_compute. reflexivity.
Defined.

(** C10.  On a call that passes every check and whose sort keys do not
    include [id], [paginate_query] logs the advisory diagnostic, once and
    before anything else, and returns the same query as it would
    otherwise: the orderings, the marker predicate and the limit.  The
    missing [id] raises nothing. *)
Theorem missing_id_is_only_advisory :
  ∀ q (model : gset string) limit keys marker sort_dir sort_dirs t,
    valid_call model keys marker sort_dir sort_dirs = true → "id" ∉ keys →
    let ds := direction_of <$> ensure_sort_dirs keys sort_dir sort_dirs in
    let calls := spec_page_calls keys ds marker limit in
    paginate_query q model limit keys marker sort_dir sort_dirs t =
    (t ++ [LogInfo id_warning] ++ map Call calls, inr (q ++ calls)).
Proof.
  intros q model limit keys marker sort_dir sort_dirs t Hvalid Hid ds calls.
  destruct (valid_call_true _ _ _ _ _ Hvalid) as (Hconflict & Hdirs & Hlen & Hkeys & Hm).
  rewrite (paginate_query_ok q model limit keys ds marker sort_dir sort_dirs t) by done.
  unfold advisory. by rewrite bool_decide_eq_false_2.
Qed.

Lemma missing_id_is_only_advisory_witness :
  run (paginate_query [] Meter (Some 3%Z) ["counter_name"; "resource_id"] (Some odd_id7)
         (Some "desc") None) =
  ([LogInfo id_warning;
    Call (OrderBy (desc (ModelAttr "counter_name")));
    Call (OrderBy (desc (ModelAttr "resource_id")));
    Call (Filter (or_ [and_ [Lt (ModelAttr "counter_name") (VStr "odd")];
                       and_ [Eq (ModelAttr "counter_name") (VStr "odd");
                             Lt (ModelAttr "resource_id") (VStr "id7")]]));
    Call (Limit 3)],
   inr [OrderBy (desc (ModelAttr "counter_name"));
        OrderBy (desc (ModelAttr "resource_id"));
        Filter (or_ [and_ [Lt (ModelAttr "counter_name") (VStr "odd")];
                     and_ [Eq (ModelAttr "counter_name") (VStr "odd");
                           Lt (ModelAttr "resource_id") (VStr "id7")]]);
        Limit 3]).
Proof.
  apply (missing_id_is_only_advisory [] Meter (Some 3%Z) ["counter_name"; "resource_id"]
           (Some odd_id7) (Some "desc") None []).
  - vm_compute. reflexivity.
  - compute_done.
Defined.

(** * Further properties of [paginate_query] *)

(** ** The outcome of every call *)

Lemma sorting_run (model : gset string) l q t :
  for_each l (add_sorting model) q t =
  (t ++ map Call (map OrderBy (sorting_outcome model l).1),
   match (sorting_outcome model l).2 with
   | Some e => inl e
   | None => inr (q ++ map OrderBy (sorting_outcome model l).1)
   end).
Proof.
  revert q t. induction l as [| [k d] l IH]; intros q t.
  - cbn. by rewrite !app_nil_r.
  - cbn [for_each sorting_outcome]. destruct (recognized d) eqn:Hd; cbn [negb].
    + rewrite <- (recognized_direction_of d Hd) at 1.
      case_bool_decide as Hk.
      * erewrite bind_ok by by apply add_sorting_ok.
        rewrite IH. destruct (sorting_outcome model l) as [os [e |]]; cbn;
          by rewrite <- !app_assoc.
      * erewrite bind_err by by apply add_sorting_unknown_key.
        cbn. by rewrite app_nil_r.
    + erewrite bind_err by by apply add_sorting_unknown_direction.
      cbn. by rewrite app_nil_r.
Qed.

Lemma sorting_outcome_directions (model : gset string) keys dirs :
  length dirs = length keys →
  (sorting_outcome model (zip keys dirs)).2 = None →
  Forall (.∈ model) keys ∧
  dirs = direction_name <$> (direction_of <$> dirs) ∧
  (sorting_outcome model (zip keys dirs)).1 =
  zip_with spec_ordering keys (direction_of <$> dirs).
Proof.
  revert dirs. induction keys as [| k keys IH]; intros [| d dirs] Hlen Hnone;
    try done.
  cbn [zip_with sorting_outcome] in *. destruct (recognized d) eqn:Hd; [| done].
  cbn [negb] in *. case_bool_decide as Hk; [| done].
  destruct (sorting_outcome model (zip keys dirs)) as [os e] eqn:Hout.
  destruct (IH dirs) as (Hkeys & Hdirs & Hos); [by injection Hlen | by rewrite Hout |].
  rewrite Hout in Hos. cbn in *. split_and!.
  - by constructor.
  - by rewrite (recognized_direction_of d Hd), <- Hdirs.
  - by rewrite Hos.
Qed.

Lemma first_missing_None (marker : gmap string value) keys :
  first_missing marker keys = None → Forall (λ k, is_Some (marker !! k)) keys.
Proof.
  induction keys as [| k keys IH]; [constructor |]. cbn.
  case_bool_decide; [| done]. intros Hrest. constructor; auto.
Qed.

Lemma first_missing_Some (marker : gmap string value) keys k :
  first_missing marker keys = Some k →
  ∃ pre post, keys = pre ++ k :: post ∧
              Forall (λ k, is_Some (marker !! k)) pre ∧ marker !! k = None.
Proof.
  induction keys as [| k0 keys IH]; [done |]. cbn.
  case_bool_decide as Hk0.
  - intros (pre & post & -> & Hpre & Hk)%IH.
    exists (k0 :: pre), post. split_and!; [done | by constructor | done].
  - intros [= <-]. exists [], keys. split_and!; [done | constructor |].
    by apply eq_None_not_Some.
Qed.

(** Every call does what [paginate_outcome] says, on the query and from
    the trace it is given. *)
Lemma paginate_query_outcome q model limit keys marker sort_dir sort_dirs t :
  paginate_query q model limit keys marker sort_dir sort_dirs t =
  (t ++ (paginate_outcome model limit keys marker sort_dir sort_dirs).1,
   sum_map id (q ++.) (paginate_outcome model limit keys marker sort_dir sort_dirs).2).
Proof.
  unfold paginate_outcome.
  destruct (truthy_str sort_dir && truthy_list sort_dirs) eqn:Hconflict.
  { apply andb_true_iff in Hconflict as [Hd Hds]. by apply paginate_query_conflict. }
  case_bool_decide as Hlen; cbn [negb]; [| by apply paginate_query_mismatch].
  set (dirs := ensure_sort_dirs keys sort_dir sort_dirs) in *.
  pose proof (sorting_run model (zip keys dirs) q (t ++ advisory keys)) as Hsort.
  pose proof (sorting_outcome_directions model keys dirs Hlen) as Hnone.
  destruct (sorting_outcome model (zip keys dirs)) as [os [e |]]; cbn in Hsort.
  { cbn. rewrite app_assoc. apply paginate_query_sorting_fails; [| done | done].
    by rewrite Hconflict. }
  destruct Hnone as (Hkeys & Hdirs & Hos); [done |]. cbn in Hos. subst os.
  set (ds := direction_of <$> dirs) in *.
  destruct marker as [m |].
  - destruct (first_missing m keys) as [k |] eqn:Hmissing.
    + apply first_missing_Some in Hmissing as (pre & post & -> & Hpre & Hk).
      rewrite (paginate_query_missing q model limit pre k post ds m
                 sort_dir sort_dirs t);
        [done | by rewrite Hconflict | done | | done | done | done].
      unfold ds. by rewrite length_fmap.
    + apply first_missing_None in Hmissing.
      rewrite (paginate_query_ok q model limit keys ds (Some m) sort_dir sort_dirs t);
        [done | by rewrite Hconflict | done | | done |].
      * unfold ds. by rewrite length_fmap.
      * by intros ? [= <-].
  - rewrite (paginate_query_ok q model limit keys ds None sort_dir sort_dirs t);
      [done | by rewrite Hconflict | done | | done | done].
    unfold ds. by rewrite length_fmap.
Qed.

Lemma sorting_outcome_error (model : gset string) l e :
  (sorting_outcome model l).2 = Some e →
  (e = ValueError unknown_sort_direction ∧ ∃ k d, (k, d) ∈ l ∧ recognized d = false) ∨
  (e = InvalidSortKey ∧ ∃ k d, (k, d) ∈ l ∧ k ∉ model).
Proof.
  induction l as [| [k d] l IH]; [done |]. cbn [sorting_outcome].
  destruct (recognized d) eqn:Hd; cbn [negb].
  - case_bool_decide as Hk.
    + destruct (sorting_outcome model l) as [os e']. cbn in *.
      intros He. destruct (IH He) as [[-> (k' & d' & Hin & Hrec)] | [-> (k' & d' & Hin & Hout)]].
      * left. split; [done |]. exists k', d'. split; [by right | done].
      * right. split; [done |]. exists k', d'. split; [by right | done].
    + intros [= <-]. right. split; [done |]. exists k, d. split; [left | done].
  - intros [= <-]. left. split; [done |]. exists k, d. split; [left | done].
Qed.

Lemma sorting_outcome_unknown_key (model : gset string) l i k d :
  l !! i = Some (k, d) → k ∉ model →
  (∀ j k' d', j ≤ i → l !! j = Some (k', d') → recognized d' = true) →
  (∀ j k' d', j < i → l !! j = Some (k', d') → k' ∈ model) →
  sorting_outcome model l =
  (take i (map (λ kd, spec_ordering kd.1 (direction_of kd.2)) l), Some InvalidSortKey).
Proof.
  revert i. induction l as [| [k0 d0] l IH]; intros i Hi Hk Hdirs Hkeys; [done |].
  cbn [sorting_outcome]. rewrite (Hdirs 0 k0 d0) by (done || lia). cbn [negb].
  destruct i as [| i].
  - injection Hi as -> ->. by rewrite bool_decide_eq_false_2.
  - rewrite bool_decide_eq_true_2 by (apply (Hkeys 0 k0 d0); [lia | done]).
    rewrite (IH i); [done | done | done | |].
    + intros j k' d' Hj Hl. apply (Hdirs (S j) k' d'); [lia | done].
    + intros j k' d' Hj Hl. apply (Hkeys (S j) k' d'); [lia | done].
Qed.

Lemma orderings_of_zip keys (dirs : list (option string)) :
  map (λ kd, spec_ordering kd.1 (direction_of kd.2)) (zip keys dirs) =
  zip_with spec_ordering keys (direction_of <$> dirs).
Proof.
  revert dirs. induction keys as [| k keys IH]; intros [| d dirs]; try done.
  cbn. by rewrite IH.
Qed.

Lemma ensure_sort_dirs_length keys sort_dir :
  length (ensure_sort_dirs keys sort_dir None) = length keys.
Proof. unfold ensure_sort_dirs. by rewrite length_map. Qed.

(** X2.  An unknown sort key.  On a call that passes the two assertions,
    the first sort key that is not an attribute of the model makes the
    function fail with [InvalidSortKey], provided the directions up to and
    including its own are recognized; the orderings of the keys before it
    have been applied by then, and nothing else. *)
Theorem unknown_sort_key_fails :
  ∀ q (model : gset string) limit keys marker sort_dir sort_dirs t i k,
    let dirs := ensure_sort_dirs keys sort_dir sort_dirs in
    negb (truthy_str sort_dir && truthy_list sort_dirs) = true →
    length dirs = length keys →
    keys !! i = Some k → k ∉ model →
    (∀ j d, j ≤ i → dirs !! j = Some d → recognized d = true) →
    (∀ j k', j < i → keys !! j = Some k' → k' ∈ model) →
    paginate_query q model limit keys marker sort_dir sort_dirs t =
    (t ++ advisory keys
       ++ map Call (map OrderBy
            (take i (zip_with spec_ordering keys (direction_of <$> dirs)))),
     inl InvalidSortKey).
Proof.
  intros q model limit keys marker sort_dir sort_dirs t i k dirs
    Hconflict Hlen Hi Hk Hdirs Hkeys.
  destruct (lookup_lt_is_Some_2 dirs i) as [d Hd].
  { rewrite Hlen. by eapply lookup_lt_Some. }
  apply paginate_query_sorting_fails; [done | done |]. fold dirs.
  rewrite sorting_run.
  rewrite (sorting_outcome_unknown_key model (zip keys dirs) i k d); [| | done | |].
  - cbn. by rewrite orderings_of_zip, app_assoc.
  - apply lookup_zip_with_Some. eauto.
  - intros j k' d' Hj Hl.
    apply lookup_zip_with_Some in Hl as (? & ? & [= <- <-] & _ & Hd'). eauto.
  - intros j k' d' Hj Hl.
    apply lookup_zip_with_Some in Hl as (? & ? & [= <- <-] & Hk' & _). eauto.
Qed.

Lemma unknown_sort_key_fails_witness :
  paginate_query [] Meter (Some 3%Z) ["counter_name"; "project_id"; "bogus"]
    (Some odd_id7) None (Some [Some "desc"; Some "asc"; Some "up"]) [] =
  ([] ++ advisory ["counter_name"; "project_id"; "bogus"]
      ++ map Call (map OrderBy
           (take 1 (zip_with spec_ordering ["counter_name"; "project_id"; "bogus"]
                      (direction_of <$>
                         ensure_sort_dirs ["counter_name"; "project_id"; "bogus"] None
                           (Some [Some "desc"; Some "asc"; Some "up"]))))),
   inl InvalidSortKey).
Proof.
  apply (unknown_sort_key_fails [] Meter (Some 3%Z)
           ["counter_name"; "project_id"; "bogus"] (Some odd_id7) None
           (Some [Some "desc"; Some "asc"; Some "up"]) [] 1 "project_id").
  - reflexivity.
  - reflexivity.
  - reflexivity.
  - compute_done.
  - intros j d Hj Hd. destruct j as [| [| j]]; [| | lia];
      cbn in Hd; injection Hd as <-; reflexivity.
  - intros j k' Hj Hk'. destruct j as [| j]; [| lia].
    cbn in Hk'. injection Hk' as <-. compute_done.
Defined.

(** X4.  The limit is never checked.  Whether a call fails, and with
    which exception after which events, does not depend on the limit:
    a call that fails with one limit fails the same way with any other,
    a negative one included. *)
Theorem limit_decides_no_failure :
  ∀ q (model : gset string) limit limit' keys marker sort_dir sort_dirs t t' e,
    paginate_query q model limit keys marker sort_dir sort_dirs t = (t', inl e) →
    paginate_query q model limit' keys marker sort_dir sort_dirs t = (t', inl e).
Proof.
  intros q model limit limit' keys marker sort_dir sort_dirs t t' e.
  rewrite !paginate_query_outcome. unfold paginate_outcome.
  destruct (truthy_str sort_dir && truthy_list sort_dirs); [done |].
  destruct (negb _); [done |].
  destruct (sorting_outcome model _) as [os [e' |]]; [done |].
  destruct marker as [m |]; [| done].
  by destruct (first_missing m keys).
Qed.

Lemma limit_decides_no_failure_witness :
  paginate_query [] Meter (Some (-1)%Z) ["id"] None (Some "up") None [] =
  ([], inl (ValueError unknown_sort_direction)).
Proof.
  apply (limit_decides_no_failure [] Meter None (Some (-1)%Z) ["id"] None (Some "up") None
           [] [] (ValueError unknown_sort_direction)).
  vm_compute. reflexivity.
Defined.

(** ** What the marker predicate means *)

Section Meaning.

Variable compare_values : value → value → option comparison.
Variable marker : gmap string value.
Variable r : gmap string value.

#[local] Abbreviation known := (comparable compare_values r).
#[local] Abbreviation tie := (tied compare_values r).
#[local] Abbreviation adv := (advanced compare_values r).

Lemma eval_tie kmd :
  known kmd → eval compare_values r (spec_tie kmd) = Some (tie kmd).
Proof.
  destruct kmd as [[k m] d].
  unfold comparable, tied. cbn [fst snd spec_tie eval].
  unfold holds_cmp. intros [o Ho]. rewrite Ho. f_equal.
  apply bool_decide_ext. split; congruence.
Qed.

Lemma eval_advance kmd :
  known kmd → eval compare_values r (spec_advance kmd) = Some (adv kmd).
Proof.
  destruct kmd as [[k m] d].
  unfold comparable, advanced. cbn [fst snd spec_advance].
  intros [o Ho]. destruct d; cbn [eval]; unfold holds_cmp; rewrite Ho; f_equal;
    apply bool_decide_ext; split; congruence.
Qed.

Lemma eval_term pre kmd :
  Forall known pre → known kmd →
  foldr and3 (Some true)
    (map (eval compare_values r) (map spec_tie pre ++ [spec_advance kmd])) =
  Some (forallb tie pre && adv kmd).
Proof.
  intros Hpre Hkmd. induction Hpre as [| x pre Hx _ IH]; cbn.
  - rewrite eval_advance by done. by destruct (adv kmd).
  - rewrite IH, eval_tie by done.
    by destruct (tie x), (forallb tie pre), (adv kmd).
Qed.

Hypothesis compare_antisym :
  ∀ a b, compare_values a b = CompOpp <$> compare_values b a.

Lemma row_before_cons kmd spec :
  known kmd → marker !! kmd.1.1 = Some kmd.1.2 →
  row_before compare_values
    (map (λ kmd, spec_ordering kmd.1.1 kmd.2) (kmd :: spec)) marker r =
  adv kmd ||
  (tie kmd && row_before compare_values
                 (map (λ kmd, spec_ordering kmd.1.1 kmd.2) spec) marker r).
Proof using compare_antisym.
  destruct kmd as [[k m] d].
  unfold comparable, advanced, tied. cbn [fst snd].
  intros [o Ho] Hm.
  assert (compare_values (row_value marker (ModelAttr k)) (row_value r (ModelAttr k))
          = Some (CompOpp o)) as Hopp.
  { assert (row_value marker (ModelAttr k) = m) as Hrow by (cbn; by rewrite Hm).
    by rewrite compare_antisym, Hrow, Ho. }
  rewrite Ho. destruct d; cbn [map row_before spec_ordering fst snd];
    rewrite Hopp; by destruct o.
Qed.

(** The disjunction over the keys from some position on, given how the
    keys before it compare. *)
Lemma eval_terms_from pre suf :
  Forall known (pre ++ suf) →
  Forall (λ kmd, marker !! kmd.1.1 = Some kmd.1.2) suf →
  foldr or3 (Some false)
    (map (eval compare_values r)
       (imap (λ j, spec_term (pre ++ suf) (length pre + j)) suf)) =
  Some (forallb tie pre &&
        row_before compare_values
          (map (λ kmd, spec_ordering kmd.1.1 kmd.2) suf) marker r).
Proof using compare_antisym.
  revert pre. induction suf as [| x suf IH]; intros pre Hcmp Hmarker.
  - cbn. by rewrite andb_false_r.
  - apply Forall_app in Hcmp as Hboth. destruct Hboth as [Hpre Hsuf].
    apply Forall_cons in Hsuf as [Hx Hsuf].
    apply Forall_cons in Hmarker as [Hmx Hmarker].
    rewrite row_before_cons by done.
    rewrite imap_cons. cbn [map foldr]. unfold spec_term at 1.
    cbn [eval]. rewrite Nat.add_0_r, take_app_length, eval_term by done.
    assert (imap ((λ j, spec_term (pre ++ x :: suf) (length pre + j)) ∘ S) suf =
            imap (λ j, spec_term ((pre ++ [x]) ++ suf) (length (pre ++ [x]) + j)) suf)
      as ->.
    { apply imap_ext. intros j y _. cbn. rewrite <- app_assoc, length_app. cbn.
      f_equal. lia. }
    rewrite IH; [| by rewrite <- app_assoc | done].
    rewrite forallb_app. cbn.
    by destruct (forallb tie pre), (tie x), (adv x),
         (row_before compare_values _ marker r).
Qed.

Lemma eval_marker_predicate spec :
  Forall known spec →
  Forall (λ kmd, marker !! kmd.1.1 = Some kmd.1.2) spec →
  eval compare_values r (spec_marker_predicate spec) =
  Some (row_before compare_values
          (zip_with spec_ordering spec.*1.*1 spec.*2) marker r).
Proof using compare_antisym.
  intros Hcmp Hmarker.
  unfold spec_marker_predicate. cbn [eval].
  etransitivity; [exact (eval_terms_from [] spec Hcmp Hmarker) |].
  cbn [forallb andb]. do 2 f_equal.
  clear. induction spec as [| [[k m] d] spec IH]; [done |]. cbn. by rewrite IH.
Qed.

End Meaning.

Lemma sql_compare_antisym a b : sql_compare a b = CompOpp <$> sql_compare b a.
Proof.
  destruct a, b; cbn; try done.
  - by rewrite Z.compare_antisym.
  - by rewrite String.compare_antisym.
Qed.

Lemma foldr_and3_true l :
  foldr and3 (Some true) l = Some true → Forall (.= Some true) l.
Proof.
  induction l as [| [[] |] l IH]; cbn; [constructor | | |].
  - intros H. constructor; [done |]. apply IH.
    by destruct (foldr and3 (Some true) l) as [[] |].
  - by destruct (foldr and3 (Some true) l) as [[] |].
  - by destruct (foldr and3 (Some true) l) as [[] |].
Qed.

Lemma foldr_or3_true l :
  foldr or3 (Some false) l = Some true → Exists (.= Some true) l.
Proof.
  induction l as [| [[] |] l IH]; cbn; [done | | |].
  - intros _. by left.
  - intros H. right. apply IH. by destruct (foldr or3 (Some false) l) as [[] |].
  - intros H. right. apply IH. by destruct (foldr or3 (Some false) l) as [[] |].
Qed.

(** A row that compares with itself as smaller or greater on no key
    satisfies no term of its own predicate. *)
Lemma eval_marker_predicate_self compare_values (marker : gmap string value) spec :
  (∀ a b, compare_values a b = CompOpp <$> compare_values b a) →
  Forall (λ kmd, marker !! kmd.1.1 = Some kmd.1.2) spec →
  eval compare_values marker (spec_marker_predicate spec) ≠ Some true.
Proof.
  intros Hanti Hmarker Htrue. unfold spec_marker_predicate in Htrue. cbn [eval] in Htrue.
  apply foldr_or3_true, Exists_exists in Htrue as (b & Hin & ->).
  apply list_elem_of_fmap in Hin as (term & Hterm & Hin).
  apply elem_of_lookup_imap in Hin as (i & [[k m] d] & -> & Hi).
  unfold spec_term in Hterm. cbn [eval] in Hterm. symmetry in Hterm.
  apply foldr_and3_true in Hterm. rewrite map_app in Hterm.
  apply Forall_app in Hterm as [_ Hadv]. apply Forall_cons in Hadv as [Hadv _].
  apply (Forall_lookup_1 _ _ i (k, m, d)) in Hmarker; [| done]. cbn in Hmarker.
  assert (row_value marker (ModelAttr k) = m) as Hrow by (cbn; by rewrite Hmarker).
  pose proof (Hanti m m) as Hself.
  destruct d; cbn in Hadv; unfold holds_cmp in Hadv; rewrite Hrow in Hadv;
    destruct (compare_values m m) as [[] |]; done.
Qed.

Lemma orderings_page os f limit :
  orderings (map OrderBy os ++ [Filter f] ++ limit_calls limit) = os.
Proof.
  unfold orderings. rewrite !omap_app.
  assert (omap (λ c, match c with OrderBy o => Some o | _ => None end)
            (map OrderBy os) = os) as ->
    by (induction os as [| o os IH]; [done | cbn; by rewrite IH]).
  destruct limit; cbn; by rewrite app_nil_r.
Qed.

Lemma filter_of_page os f limit f' :
  Filter f' ∈ map OrderBy os ++ [Filter f] ++ limit_calls limit → f' = f.
Proof.
  intros [Hin | [Hin | Hin]%elem_of_app]%elem_of_app.
  - by apply list_elem_of_fmap in Hin as (o & [=] & _).
  - apply list_elem_of_singleton in Hin. by injection Hin.
  - destruct limit; cbn in Hin; [| by apply elem_of_nil in Hin].
    by apply list_elem_of_singleton in Hin.
Qed.

(** What a call with a marker returns, on the empty query. *)
Lemma returned_with_marker (model : gset string) limit keys (marker : gmap string value)
    sort_dir sort_dirs q' :
  (run (paginate_query [] model limit keys (Some marker) sort_dir sort_dirs)).2 = inr q' →
  ∃ spec,
    spec.*1.*1 = keys ∧
    Forall (λ kmd, marker !! kmd.1.1 = Some kmd.1.2) spec ∧
    orderings q' = zip_with spec_ordering spec.*1.*1 spec.*2 ∧
    Filter (spec_marker_predicate spec) ∈ q' ∧
    ∀ f, Filter f ∈ q' → f = spec_marker_predicate spec.
Proof.
  unfold run. intros Hrun.
  destruct (paginate_query [] model limit keys (Some marker) sort_dir sort_dirs [])
    as [t' r] eqn:Hcall. cbn in Hrun. subst r.
  pose proof (paginate_query_returns _ _ _ _ _ _ _ _ _ _ Hcall) as Hvalid.
  destruct (valid_call_true _ _ _ _ _ Hvalid) as (Hconflict & Hdirs & Hlen & Hkeys & Hm).
  set (ds := direction_of <$> ensure_sort_dirs keys sort_dir sort_dirs) in *.
  rewrite (paginate_query_ok [] model limit keys ds (Some marker) sort_dir sort_dirs [])
    in Hcall by done.
  injection Hcall as _ <-. unfold spec_page_calls.
  destruct (zip3_keys keys (marker_values marker keys) ds)
    as (Hk & Hms & Hd & _); [apply length_marker_values | done |].
  exists (zip3 keys (marker_values marker keys) ds).
  rewrite orderings_page, Hk, Hd. split_and!; [done | | done | |].
  - apply Forall_lookup_2. intros i [[k m] d] Hi. cbn.
    assert (keys !! i = Some k) as Hki
      by (rewrite <- Hk, !list_lookup_fmap, Hi; done).
    assert (marker_values marker keys !! i = Some m) as Hmi
      by (rewrite <- Hms, !list_lookup_fmap, Hi; done).
    unfold marker_values in Hmi. rewrite list_lookup_fmap, Hki in Hmi.
    injection Hmi as <-.
    destruct (Forall_lookup_1 _ _ i k (Hm marker eq_refl) Hki) as [v ->]. done.
  - apply elem_of_app. right. left.
  - apply filter_of_page.
Qed.

(** The filter of a call that returns, against the order it asks for. *)
Lemma filter_selects_after :
  ∀ compare_values (model : gset string) limit keys (marker : gmap string value)
    sort_dir sort_dirs q' f r,
    (∀ a b, compare_values a b = CompOpp <$> compare_values b a) →
    (run (paginate_query [] model limit keys (Some marker) sort_dir sort_dirs)).2
    = inr q' →
    Filter f ∈ q' →
    Forall (λ k, is_Some (compare_values (row_value r (ModelAttr k))
                                         (row_value marker (ModelAttr k)))) keys →
    eval compare_values r f = Some (row_before compare_values (orderings q') marker r) ∧
    selects compare_values f r = row_before compare_values (orderings q') marker r.
Proof.
  intros compare_values model limit keys marker sort_dir sort_dirs q' f r
    Hanti Hrun Hf Hcmp.
  destruct (returned_with_marker _ _ _ _ _ _ _ Hrun)
    as (spec & Hkeys & Hmarker & -> & _ & Hfilter).
  rewrite (Hfilter f Hf).
  assert (eval compare_values r (spec_marker_predicate spec) =
          Some (row_before compare_values
                  (zip_with spec_ordering spec.*1.*1 spec.*2) marker r)) as Heval.
  { apply eval_marker_predicate; [done | | done].
    apply Forall_lookup_2. intros i [[k m] d] Hi. unfold comparable. cbn.
    assert (keys !! i = Some k) as Hki
      by (rewrite <- Hkeys, !list_lookup_fmap, Hi; done).
    pose proof (Forall_lookup_1 _ _ i k Hcmp Hki) as Hk.
    pose proof (Forall_lookup_1 _ _ i _ Hmarker Hi) as Hm. cbn in Hk, Hm.
    by rewrite Hm in Hk. }
  split; [done |]. unfold selects. rewrite Heval.
  by destruct (row_before compare_values _ marker r).
Qed.

(** X5.  What the filter means.  On a call that returns, the filter added
    for the marker is true on a row exactly when the row comes strictly
    after the marker in the order that the same call asks for, on every
    row whose sort-key values the engine can compare with the marker's
    (the engine's comparison being antisymmetric). *)
Theorem marker_filter_selects_rows_after_marker :
  ∀ compare_values (model : gset string) limit keys (marker : gmap string value)
    sort_dir sort_dirs q' f r,
    (∀ a b, compare_values a b = CompOpp <$> compare_values b a) →
    (run (paginate_query [] model limit keys (Some marker) sort_dir sort_dirs)).2
    = inr q' →
    Filter f ∈ q' →
    Forall (λ k, is_Some (compare_values (row_value r (ModelAttr k))
                                         (row_value marker (ModelAttr k)))) keys →
    eval compare_values r f = Some (row_before compare_values (orderings q') marker r) ∧
    selects compare_values f r = row_before compare_values (orderings q') marker r.
Proof.
  intros compare_values model limit keys marker sort_dir sort_dirs q' f r.
  apply filter_selects_after.
Qed.

Lemma marker_filter_selects_rows_after_marker_witness :
  let f := or_ [and_ [Lt (ModelAttr "counter_name") (VStr "odd")];
                and_ [Eq (ModelAttr "counter_name") (VStr "odd");
                      Lt (ModelAttr "resource_id") (VStr "id7")]] in
  let q' := [OrderBy (desc (ModelAttr "counter_name"));
             OrderBy (desc (ModelAttr "resource_id")); Filter f; Limit 3] in
  let r : gmap string value :=
    <["counter_name" := VStr "odd"]> (<["resource_id" := VStr "id4"]> ∅) in
  eval sql_compare r f = Some (row_before sql_compare (orderings q') odd_id7 r) ∧
  selects sql_compare f r = row_before sql_compare (orderings q') odd_id7 r.
Proof.
  intros f q' r.
  apply (marker_filter_selects_rows_after_marker sql_compare Meter (Some 3%Z)
           ["counter_name"; "resource_id"] odd_id7 (Some "desc") None q' f r).
  - exact sql_compare_antisym.
  - vm_compute. reflexivity.
  - do 2 apply list_elem_of_further. apply list_elem_of_here.
  - repeat constructor; vm_compute; eauto.
Defined.

(** X6.  No row twice.  On a call that returns, the marker row itself
    does not pass the filter added for it, whatever values it holds
    (the engine's comparison being antisymmetric). *)
Theorem marker_row_is_not_selected :
  ∀ compare_values (model : gset string) limit keys (marker : gmap string value)
    sort_dir sort_dirs q' f,
    (∀ a b, compare_values a b = CompOpp <$> compare_values b a) →
    (run (paginate_query [] model limit keys (Some marker) sort_dir sort_dirs)).2
    = inr q' →
    Filter f ∈ q' →
    selects compare_values f marker = false.
Proof.
  intros compare_values model limit keys marker sort_dir sort_dirs q' f Hanti Hrun Hf.
  destruct (returned_with_marker _ _ _ _ _ _ _ Hrun)
    as (spec & Hkeys & Hmarker & _ & _ & Hfilter).
  rewrite (Hfilter f Hf). unfold selects. apply bool_decide_eq_false.
  by apply eval_marker_predicate_self.
Qed.

Lemma marker_row_is_not_selected_witness :
  selects sql_compare
    (or_ [and_ [Lt (ModelAttr "counter_name") (VStr "odd")];
          and_ [Eq (ModelAttr "counter_name") (VStr "odd");
                Lt (ModelAttr "resource_id") (VStr "id7")]]) odd_id7 = false.
Proof.
  apply (marker_row_is_not_selected sql_compare Meter (Some 3%Z)
           ["counter_name"; "resource_id"] odd_id7 (Some "desc") None
           [OrderBy (desc (ModelAttr "counter_name"));
            OrderBy (desc (ModelAttr "resource_id"));
            Filter (or_ [and_ [Lt (ModelAttr "counter_name") (VStr "odd")];
                         and_ [Eq (ModelAttr "counter_name") (VStr "odd");
                               Lt (ModelAttr "resource_id") (VStr "id7")]]);
            Limit 3]).
  - exact sql_compare_antisym.
  - vm_compute. reflexivity.
  - do 2 apply list_elem_of_further. apply list_elem_of_here.
Defined.

(** ** The size of the marker predicate *)

Lemma comparisons_term spec i kmd :
  comparisons (spec_term spec i kmd) = S (length (take i spec)).
Proof.
  unfold spec_term. cbn [comparisons]. rewrite map_app, sum_list_with_app.
  assert (∀ l, sum_list (map comparisons (map spec_tie l)) = length l) as ->.
  { intros l. induction l as [| [[k m] d] l IH]; [done |]. cbn. by rewrite IH. }
  destruct kmd as [[k m] []]; cbn; lia.
Qed.

Lemma comparisons_terms_from pre suf :
  2 * sum_list (map comparisons
                  (imap (λ j, spec_term (pre ++ suf) (length pre + j)) suf)) =
  length suf * (2 * length pre + length suf + 1).
Proof.
  revert pre. induction suf as [| x suf IH]; intros pre; [done |].
  rewrite imap_cons. cbn [map sum_list_with sum_list length].
  rewrite comparisons_term, Nat.add_0_r, take_app_length.
  assert (imap ((λ j, spec_term (pre ++ x :: suf) (length pre + j)) ∘ S) suf =
          imap (λ j, spec_term ((pre ++ [x]) ++ suf) (length (pre ++ [x]) + j)) suf)
    as ->.
  { apply imap_ext. intros j y _. cbn. rewrite <- app_assoc, length_app. cbn.
    f_equal. lia. }
  specialize (IH (pre ++ [x])).
  set (s := sum_list (map comparisons (imap _ suf))) in *.
  rewrite length_app in IH. cbn [length] in IH. unfold id. nia.
Qed.

(** X7.  The size of the filter.  On a call that returns, the filter
    added for a marker is a disjunction with one term per sort key, and
    for [n] sort keys it holds [n (n + 1) / 2] comparisons in all. *)
Theorem marker_filter_size :
  ∀ (model : gset string) limit keys (marker : gmap string value)
    sort_dir sort_dirs q' f,
    (run (paginate_query [] model limit keys (Some marker) sort_dir sort_dirs)).2
    = inr q' →
    Filter f ∈ q' →
    (∃ terms, f = or_ terms ∧ length terms = length keys) ∧
    2 * comparisons f = length keys * (length keys + 1).
Proof.
  intros model limit keys marker sort_dir sort_dirs q' f Hrun Hf.
  destruct (returned_with_marker _ _ _ _ _ _ _ Hrun)
    as (spec & Hkeys & _ & _ & _ & Hfilter).
  rewrite (Hfilter f Hf), <- Hkeys, !length_fmap. split.
  - eexists. split; [done |]. by rewrite length_imap.
  - unfold spec_marker_predicate. cbn [comparisons].
    etransitivity; [exact (comparisons_terms_from [] spec) |]. cbn [length]. lia.
Qed.

Lemma marker_filter_size_witness :
  let f := or_ [and_ [Lt (ModelAttr "counter_name") (VStr "odd")];
                and_ [Eq (ModelAttr "counter_name") (VStr "odd");
                      Lt (ModelAttr "resource_id") (VStr "id7")]] in
  (∃ terms, f = or_ terms ∧ length terms = length ["counter_name"; "resource_id"]) ∧
  2 * comparisons f =
  length ["counter_name"; "resource_id"] * (length ["counter_name"; "resource_id"] + 1).
Proof.
  intros f.
  apply (marker_filter_size Meter None ["counter_name"; "resource_id"] odd_id7
           (Some "desc") None
           [OrderBy (desc (ModelAttr "counter_name"));
            OrderBy (desc (ModelAttr "resource_id")); Filter f] f).
  - vm_compute. reflexivity.
  - do 2 apply list_elem_of_further. apply list_elem_of_here.
Defined.

(** * [CeilometerBase] *)

Lemma update_union (self : gmap string value) items :
  NoDup items.*1 → CeilometerBase.update self items = list_to_map items ∪ self.
Proof.
  unfold CeilometerBase.update. revert self.
  induction items as [| [k v] items IH]; intros self Hnodup; cbn.
  - by rewrite (left_id_L ∅ (∪)).
  - apply NoDup_cons in Hnodup as [Hk Hnodup].
    rewrite IH by done.
    rewrite <- insert_union_r by by apply not_elem_of_list_to_map_1.
    by rewrite insert_union_l.
Qed.

(** X9.  [update] is a merge.  Whatever the order in which the items of
    the dict come, [update] leaves the object with the attributes of the
    dict and, for the names the dict does not have, the attributes it had:
    every name reads as in the dict if it is there and as before if not. *)
Theorem update_merges :
  ∀ (self values : gmap string value) items,
    items ≡ₚ map_to_list values →
    CeilometerBase.update self items = values ∪ self ∧
    ∀ key, CeilometerBase.__getitem__ (CeilometerBase.update self items) key =
           match values !! key with
           | Some v => inr v
           | None => CeilometerBase.__getitem__ self key
           end.
Proof.
  intros self values items Hperm.
  assert (CeilometerBase.update self items = values ∪ self) as ->.
  { rewrite update_union.
    - rewrite (list_to_map_proper items (map_to_list values)); [| | done].
      + by rewrite list_to_map_to_list.
      + rewrite Hperm. apply NoDup_fst_map_to_list.
    - rewrite Hperm. apply NoDup_fst_map_to_list. }
  split; [done |]. intros key.
  unfold CeilometerBase.__getitem__, getattr_marker. rewrite lookup_union.
  by destruct (values !! key), (self !! key).
Qed.

Lemma update_merges_witness :
  let values : gmap string value :=
    <["counter_volume" := VInt 7]> (<["counter_name" := VStr "even"]> ∅) in
  let items := [("counter_volume", VInt 7); ("counter_name", VStr "even")] in
  CeilometerBase.update odd_id7 items = values ∪ odd_id7 ∧
  ∀ key, CeilometerBase.__getitem__ (CeilometerBase.update odd_id7 items) key =
         match values !! key with
         | Some v => inr v
         | None => CeilometerBase.__getitem__ odd_id7 key
         end.
Proof.
  intros values items. apply (update_merges odd_id7 values items).
  vm_compute. apply perm_swap.
Defined.

(** * [get_marker] and [get_meters] *)

Lemma sort_rows_unordered compare_values l : sort_rows compare_values [] l = l.
Proof.
  unfold sort_rows. induction l as [| r l IH]; [done |]. cbn. rewrite IH.
  by destruct l.
Qed.

Lemma filter_first {A} (p : A → bool) l x l' :
  List.filter p l = x :: l' →
  ∃ pre post, l = pre ++ x :: post ∧ Forall (λ y, p y = false) pre ∧ p x = true.
Proof.
  induction l as [| y l IH]; [done |]. cbn. destruct (p y) eqn:Hy.
  - intros [= -> _]. exists [], l. by repeat split.
  - intros (pre & post & -> & Hpre & Hx)%IH.
    exists (y :: pre), post. split_and!; [done | by constructor | done].
Qed.

Lemma filter_none {A} (p : A → bool) l :
  List.filter p l = [] → Forall (λ y, p y = false) l.
Proof.
  induction l as [| y l IH]; [constructor |]. cbn. destruct (p y) eqn:Hy; [done |].
  intros Hl. constructor; auto.
Qed.

Lemma filter_skip {A} (p : A → bool) pre x post :
  Forall (λ y, p y = false) pre → p x = true →
  List.filter p (pre ++ x :: post) = x :: List.filter p post.
Proof.
  intros Hpre Hx. induction Hpre as [| y pre Hy _ IH]; cbn.
  - by rewrite Hx.
  - by rewrite Hy.
Qed.

(** The row that [get_marker] asks for: both equalities are true on it. *)
Lemma get_marker_run compare_values rows (model : gset string) counter_name resource_id t :
  "counter_name" ∈ model → "resource_id" ∈ model →
  let by_name := Eq (ModelAttr "counter_name") counter_name in
  let by_resource := Eq (ModelAttr "resource_id") resource_id in
  get_marker compare_values rows model counter_name resource_id t =
  (t ++ [Call (Filter by_name); Call (Filter by_resource); Call (Limit 1)],
   inr (one (take 1 (List.filter
                       (λ r, selects compare_values by_name r &&
                             selects compare_values by_resource r) rows)))).
Proof.
  intros Hname Hresource by_name by_resource.
  unfold get_marker, getattr_model. rewrite !bool_decide_eq_true_2 by done.
  cbv [session_query bind lift filter_ limit_ emit ret].
  rewrite <- !app_assoc. cbn [app]. do 3 f_equal.
  unfold execute. cbn. rewrite sort_rows_unordered. f_equal.
  apply List.filter_ext. intros r. by rewrite andb_true_r.
Qed.

(** X10.  The marker row.  On a model that has both attributes,
    [get_marker] asks the store for at most one row and never fails with
    [MultipleResultsFound]: it returns the first row of the model on
    which both equalities are true, and raises [NoResultFound] when they
    are true on no row. *)
Theorem get_marker_returns_first_match :
  ∀ compare_values rows (model : gset string) counter_name resource_id t,
    "counter_name" ∈ model → "resource_id" ∈ model →
    let by_name := Eq (ModelAttr "counter_name") counter_name in
    let by_resource := Eq (ModelAttr "resource_id") resource_id in
    let found r := selects compare_values by_name r &&
                   selects compare_values by_resource r in
    ∃ result,
      get_marker compare_values rows model counter_name resource_id t =
      (t ++ [Call (Filter by_name); Call (Filter by_resource); Call (Limit 1)],
       inr result) ∧
      result ≠ inl MultipleResultsFound ∧
      (result = inl NoResultFound ↔ Forall (λ r, found r = false) rows) ∧
      (∀ r, result = inr r ↔
            ∃ pre post, rows = pre ++ r :: post ∧
                        Forall (λ r', found r' = false) pre ∧ found r = true).
Proof.
  intros compare_values rows model counter_name resource_id t Hname Hresource
    by_name by_resource found.
  eexists. split; [by apply get_marker_run |].
  fold by_name by_resource. change (λ r, _ && _) with found.
  destruct (List.filter found rows) as [| r l] eqn:Hfilter.
  - apply filter_none in Hfilter as Hnone. cbn. split_and!; [done | done |].
    intros r. split; [done |]. intros (pre & post & -> & _ & Hr).
    apply Forall_app in Hnone as [_ Hnone]. apply Forall_cons in Hnone as [Hr' _].
    congruence.
  - apply filter_first in Hfilter as Hfirst.
    destruct Hfirst as (pre & post & -> & Hpre & Hr). cbn. split_and!; [done | |].
    + split; [done |]. intros Hnone.
      apply Forall_app in Hnone as [_ Hnone]. apply Forall_cons in Hnone as [Hr' _].
      congruence.
    + intros r'. split.
      * intros [= <-]. eauto.
      * intros (pre' & post' & Heq & Hpre' & Hr').
        rewrite Heq, filter_skip in Hfilter by done. by injection Hfilter as <- _.
Qed.

Lemma get_marker_returns_first_match_witness :
  ∃ result,
    get_marker sql_compare
      [<["counter_name" := VStr "even"]> (<["resource_id" := VStr "id7"]> ∅); odd_id7]
      Meter (VStr "odd") (VStr "id7") [] =
    ([] ++ [Call (Filter (Eq (ModelAttr "counter_name") (VStr "odd")));
            Call (Filter (Eq (ModelAttr "resource_id") (VStr "id7")));
            Call (Limit 1)],
     inr result) ∧
    result ≠ inl MultipleResultsFound ∧
    (result = inl NoResultFound ↔
     Forall (λ r, selects sql_compare (Eq (ModelAttr "counter_name") (VStr "odd")) r &&
                  selects sql_compare (Eq (ModelAttr "resource_id") (VStr "id7")) r
                  = false)
       [<["counter_name" := VStr "even"]> (<["resource_id" := VStr "id7"]> ∅); odd_id7]) ∧
    (∀ r, result = inr r ↔
          ∃ pre post,
            [<["counter_name" := VStr "even"]> (<["resource_id" := VStr "id7"]> ∅); odd_id7]
            = pre ++ r :: post ∧
            Forall (λ r', selects sql_compare (Eq (ModelAttr "counter_name") (VStr "odd")) r' &&
                          selects sql_compare (Eq (ModelAttr "resource_id") (VStr "id7")) r'
                          = false) pre ∧
            selects sql_compare (Eq (ModelAttr "counter_name") (VStr "odd")) r &&
            selects sql_compare (Eq (ModelAttr "resource_id") (VStr "id7")) r = true).
Proof.
  apply (get_marker_returns_first_match sql_compare
           [<["counter_name" := VStr "even"]> (<["resource_id" := VStr "id7"]> ∅); odd_id7]
           Meter (VStr "odd") (VStr "id7") []); compute_done.
Defined.

Lemma filter_all_false {A} (p : A → bool) l :
  Forall (λ y, p y = false) l → List.filter p l = [].
Proof. induction 1 as [| y l Hy _ IH]; [done |]. cbn. by rewrite Hy. Qed.

(** X11.  The first page of meters.  When the name or the resource of
    the marker is missing or empty, [get_meters] does not look for a
    marker row, even if the other one is given: it logs the advisory
    diagnostic and returns the query ordered by name and by resource,
    both descending, with the limit and no filter. *)
Theorem get_meters_first_page :
  ∀ compare_values rows (alias_meter : gset string) query counter_name resource_id
    limit t,
    truthy_str counter_name && truthy_str resource_id = false →
    "counter_name" ∈ alias_meter → "resource_id" ∈ alias_meter →
    let calls := [OrderBy (desc (ModelAttr "counter_name"));
                  OrderBy (desc (ModelAttr "resource_id"))] ++ limit_calls limit in
    get_meters compare_values rows alias_meter query counter_name resource_id limit t =
    (t ++ [LogInfo id_warning] ++ map Call calls, inr (inr (query ++ calls))).
Proof.
  intros compare_values rows alias_meter query counter_name resource_id limit t
    Hempty Hname Hresource calls.
  unfold get_meters. rewrite Hempty. erewrite bind_ok by reflexivity.
  lazy beta iota. erewrite bind_ok.
  2: { apply (paginate_query_ok query alias_meter limit ["counter_name"; "resource_id"]
                [descending; descending] None (Some "desc") None t);
         [done | done | done | by repeat constructor | done]. }
  reflexivity.
Qed.

Lemma get_meters_first_page_witness :
  get_meters sql_compare [odd_id7] Meter [] (Some "odd") None (Some 3%Z) [] =
  ([LogInfo id_warning;
    Call (OrderBy (desc (ModelAttr "counter_name")));
    Call (OrderBy (desc (ModelAttr "resource_id")));
    Call (Limit 3)],
   inr (inr [OrderBy (desc (ModelAttr "counter_name"));
             OrderBy (desc (ModelAttr "resource_id"));
             Limit 3])).
Proof.
  apply (get_meters_first_page sql_compare [odd_id7] Meter [] (Some "odd") None
           (Some 3%Z) []); compute_done.
Defined.

(** X12.  The next page of meters.  When both the name and the resource
    are given, [get_meters] first fetches the marker row.  If the
    equalities are true on no row, [NoResultFound] escapes and nothing is
    applied to the query.  Otherwise the marker is the first matching row
    and the query is ordered by name and by resource, both descending, and
    filtered on the values that this row holds:
    [name < m.name OR (name == m.name AND resource < m.resource)]. *)
Theorem get_meters_next_page :
  ∀ compare_values rows (alias_meter : gset string) query counter_name resource_id
    limit t,
    truthy_str counter_name && truthy_str resource_id = true →
    "counter_name" ∈ alias_meter → "resource_id" ∈ alias_meter →
    let by_name := Eq (ModelAttr "counter_name") (str_value counter_name) in
    let by_resource := Eq (ModelAttr "resource_id") (str_value resource_id) in
    let found r := selects compare_values by_name r &&
                   selects compare_values by_resource r in
    let lookup := [Call (Filter by_name); Call (Filter by_resource); Call (Limit 1)] in
    (Forall (λ r, found r = false) rows →
     get_meters compare_values rows alias_meter query counter_name resource_id limit t =
     (t ++ lookup, inr (inl NoResultFound))) ∧
    (∀ pre m post name resource,
       rows = pre ++ m :: post → Forall (λ r, found r = false) pre → found m = true →
       m !! "counter_name" = Some name → m !! "resource_id" = Some resource →
       let f := or_ [and_ [Lt (ModelAttr "counter_name") name];
                     and_ [Eq (ModelAttr "counter_name") name;
                           Lt (ModelAttr "resource_id") resource]] in
       let calls := [OrderBy (desc (ModelAttr "counter_name"));
                     OrderBy (desc (ModelAttr "resource_id")); Filter f]
                    ++ limit_calls limit in
       get_meters compare_values rows alias_meter query counter_name resource_id limit t =
       (t ++ lookup ++ [LogInfo id_warning] ++ map Call calls,
        inr (inr (query ++ calls)))).
Proof.
  intros compare_values rows alias_meter query counter_name resource_id limit t
    Hgiven Hname Hresource by_name by_resource found lookup.
  unfold get_meters. rewrite Hgiven. split.
  - intros Hnone.
    erewrite bind_ok.
    2: { erewrite bind_ok by by apply get_marker_run.
         fold by_name by_resource. change (λ r, _ && _) with found.
         rewrite filter_all_false by done. reflexivity. }
    reflexivity.
  - intros pre m post name resource -> Hpre Hm Hmname Hmresource.
    erewrite bind_ok.
    2: { erewrite bind_ok by by apply get_marker_run.
         fold by_name by_resource. change (λ r, _ && _) with found.
         rewrite filter_skip by done. reflexivity. }
    cbn [one firstn]. rewrite take_0. cbn [sum_map id]. lazy beta iota.
    erewrite bind_ok.
    2: { apply (paginate_query_ok query alias_meter limit ["counter_name"; "resource_id"]
                  [descending; descending] (Some m) (Some "desc") None);
           [done | done | done | by repeat constructor |].
         intros ? [= <-]. repeat constructor; eauto. }
    unfold spec_page_calls, marker_values, spec_marker_predicate, zip3. cbn.
    rewrite Hmname, Hmresource. cbn. by rewrite <- !app_assoc.
Qed.

Lemma get_meters_next_page_witness :
  get_meters sql_compare
    [<["counter_name" := VStr "even"]> (<["resource_id" := VStr "id7"]> ∅); odd_id7]
    Meter [] (Some "odd") (Some "id7") (Some 3%Z) [] =
  ([Call (Filter (Eq (ModelAttr "counter_name") (VStr "odd")));
    Call (Filter (Eq (ModelAttr "resource_id") (VStr "id7")));
    Call (Limit 1);
    LogInfo id_warning;
    Call (OrderBy (desc (ModelAttr "counter_name")));
    Call (OrderBy (desc (ModelAttr "resource_id")));
    Call (Filter (or_ [and_ [Lt (ModelAttr "counter_name") (VStr "odd")];
                       and_ [Eq (ModelAttr "counter_name") (VStr "odd");
                             Lt (ModelAttr "resource_id") (VStr "id7")]]));
    Call (Limit 3)],
   inr (inr [OrderBy (desc (ModelAttr "counter_name"));
             OrderBy (desc (ModelAttr "resource_id"));
             Filter (or_ [and_ [Lt (ModelAttr "counter_name") (VStr "odd")];
                          and_ [Eq (ModelAttr "counter_name") (VStr "odd");
                                Lt (ModelAttr "resource_id") (VStr "id7")]]);
             Limit 3])).
Proof.
  apply (proj2 (get_meters_next_page sql_compare
                  [<["counter_name" := VStr "even"]> (<["resource_id" := VStr "id7"]> ∅);
                   odd_id7]
                  Meter [] (Some "odd") (Some "id7") (Some 3%Z) []
                  eq_refl ltac:(compute_done) ltac:(compute_done))
           [<["counter_name" := VStr "even"]> (<["resource_id" := VStr "id7"]> ∅)]
           odd_id7 [] (VStr "odd") (VStr "id7")).
  - reflexivity.
  - repeat constructor.
  - reflexivity.
  - reflexivity.
  - reflexivity.
Defined.

(** * The pages of a table *)

Section Pages.

Variable compare_values : value → value → option comparison.
Hypothesis compare_antisym :
  ∀ a b, compare_values a b = CompOpp <$> compare_values b a.

Variable os : list order_clause.

#[local] Abbreviation before := (row_before compare_values os).

(** No row comes before itself, and of two rows at most one comes before
    the other. *)
Lemma row_before_asym a b : before a b = true → before b a = false.
Proof using compare_antisym.
  induction os as [| o os' IH]; [done |]. cbn [row_before].
  destruct o as [c | c];
    rewrite (compare_antisym (row_value b c) (row_value a c));
    destruct (compare_values (row_value a c) (row_value b c)) as [[] |]; cbn; auto.
Qed.

Lemma row_before_irrefl a : before a a = false.
Proof using compare_antisym.
  destruct (before a a) eqn:Hself; [| done].
  by rewrite (row_before_asym a a Hself) in Hself.
Qed.

Lemma insert_row_perm a l : insert_row compare_values os a l ≡ₚ a :: l.
Proof.
  induction l as [| b l IH]; [done |]. cbn. destruct (before b a); [| done].
  rewrite IH. apply perm_swap.
Qed.

Lemma sort_rows_perm l : sort_rows compare_values os l ≡ₚ l.
Proof.
  unfold sort_rows. induction l as [| a l IH]; [done |]. cbn.
  by rewrite insert_row_perm, IH.
Qed.

Lemma filter_perm (p : gmap string value → bool) l l' :
  l ≡ₚ l' → List.filter p l ≡ₚ List.filter p l'.
Proof.
  induction 1 as [| x l l' _ IH | x y l | l l' l'' _ IH _ IH']; cbn.
  - done.
  - destruct (p x); by rewrite IH.
  - destruct (p x), (p y); (done || apply perm_swap).
  - by rewrite IH.
Qed.

Lemma elem_of_filter_bool (p : gmap string value → bool) l x :
  x ∈ List.filter p l ↔ x ∈ l ∧ p x = true.
Proof. rewrite !list_elem_of_In. apply List.filter_In. Qed.

(** The rows of the table are ordered by the sort keys strictly and
    totally: two different rows are never tied. *)
Variable rows : list (gmap string value).
Hypothesis rows_distinct : NoDup rows.
Hypothesis rows_total :
  ∀ a b, a ∈ rows → b ∈ rows → a ≠ b → before a b = true ∨ before b a = true.
Hypothesis rows_trans :
  ∀ a b c, a ∈ rows → b ∈ rows → c ∈ rows →
           before a b = true → before b c = true → before a c = true.

Lemma insert_row_sorted a l :
  a ∈ rows → l ⊆ rows → a ∉ l →
  StronglySorted (λ x y, before x y = true) l →
  StronglySorted (λ x y, before x y = true) (insert_row compare_values os a l).
Proof using rows_total rows_trans.
  intros Ha Hl Hfresh Hsorted.
  induction Hsorted as [| b l Hsorted IH Hb]; cbn.
  - repeat constructor.
  - assert (b ∈ rows) as Hbrows by (apply Hl; left).
    assert (l ⊆ rows) as Hlrows by (intros x Hx; apply Hl; by right).
    apply not_elem_of_cons in Hfresh as [Hab Hfresh].
    destruct (before b a) eqn:Hba.
    + constructor; [by apply IH |].
      rewrite insert_row_perm. by constructor.
    + destruct (rows_total a b) as [Hlt | Hlt]; [done | done | done | | congruence].
      constructor; [by constructor |]. constructor; [done |].
      rewrite Forall_forall in Hb |- *. intros x Hx.
      eapply (rows_trans a b x); eauto.
Qed.

Lemma sort_rows_sorted l :
  l ⊆ rows → NoDup l →
  StronglySorted (λ x y, before x y = true) (sort_rows compare_values os l).
Proof using rows_total rows_trans.
  unfold sort_rows. induction l as [| a l IH]; intros Hl Hnodup; cbn.
  - constructor.
  - apply NoDup_cons in Hnodup as [Ha Hnodup].
    assert (l ⊆ rows) as Hlrows by (intros x Hx; apply Hl; by right).
    apply insert_row_sorted.
    + apply Hl. left.
    + intros x Hx. apply Hlrows.
      by rewrite <- (sort_rows_perm l).
    + fold (sort_rows compare_values os l). by rewrite sort_rows_perm.
    + by apply IH.
Qed.

Lemma filter_sorted (p : gmap string value → bool) l :
  StronglySorted (λ x y, before x y = true) l →
  StronglySorted (λ x y, before x y = true) (List.filter p l).
Proof.
  induction 1 as [| a l _ IH Ha]; cbn; [constructor |].
  destruct (p a); [| done]. constructor; [done |].
  rewrite Forall_forall in Ha |- *. intros x [Hx _]%elem_of_filter_bool. auto.
Qed.

(** Sorting and filtering commute on the table. *)
Lemma sort_filter (p : gmap string value → bool) :
  sort_rows compare_values os (List.filter p rows) =
  List.filter p (sort_rows compare_values os rows).
Proof using compare_antisym rows_distinct rows_total rows_trans.
  apply (StronglySorted_unique_strong (λ x y, before x y = true)).
  - intros x y _ _ Hxy Hyx. by rewrite (row_before_asym x y Hxy) in Hyx.
  - apply sort_rows_sorted.
    + by intros x [Hx _]%elem_of_filter_bool.
    + apply NoDup_ListNoDup, List.NoDup_filter. by apply NoDup_ListNoDup.
  - apply filter_sorted, sort_rows_sorted; [done | done].
  - rewrite sort_rows_perm. apply filter_perm. by rewrite sort_rows_perm.
Qed.

(** In the sorted table, the rows that come after a row are the rows
    that follow it. *)
Lemma filter_after l m l' :
  StronglySorted (λ x y, before x y = true) (l ++ m :: l') →
  List.filter (before m) (l ++ m :: l') = l'.
Proof using compare_antisym.
  intros Hsorted. apply StronglySorted_app in Hsorted as (Hcross & _ & Hright).
  apply StronglySorted_cons in Hright as [Hafter _].
  rewrite List.filter_app. cbn [List.filter]. rewrite row_before_irrefl.
  assert (List.filter (before m) l = []) as ->.
  { apply filter_all_false, Forall_forall. intros x Hx.
    apply row_before_asym, Hcross; [done | left]. }
  cbn [app]. clear -Hafter.
  induction Hafter as [| x l' Hx _ IH]; [done |]. cbn. by rewrite Hx, IH.
Qed.

End Pages.

Lemma returned_page (model : gset string) limit keys marker sort_dir sort_dirs q' :
  (run (paginate_query [] model limit keys marker sort_dir sort_dirs)).2 = inr q' →
  q' = spec_page_calls keys (direction_of <$> ensure_sort_dirs keys sort_dir sort_dirs)
         marker limit.
Proof.
  unfold run. intros Hrun.
  destruct (paginate_query [] model limit keys marker sort_dir sort_dirs [])
    as [t' r] eqn:Hcall. cbn in Hrun. subst r.
  pose proof (paginate_query_returns _ _ _ _ _ _ _ _ _ _ Hcall) as Hvalid.
  destruct (valid_call_true _ _ _ _ _ Hvalid) as (Hconflict & Hdirs & Hlen & Hkeys & Hm).
  rewrite (paginate_query_ok [] model limit keys _ marker sort_dir sort_dirs [])
    in Hcall by done.
  by injection Hcall as _ <-.
Qed.

Lemma elem_of_execute compare_values q rows r :
  r ∈ execute compare_values q rows →
  r ∈ rows ∧ Forall (λ f, selects compare_values f r = true) (filters q).
Proof.
  unfold execute. intros Hr.
  assert (r ∈ sort_rows compare_values (orderings q)
                (List.filter (λ r, forallb (λ f, selects compare_values f r) (filters q))
                   rows)) as Hsorted.
  { destruct (limit_of q); [apply subseteq_take in Hr |];
      (destruct (offset_of q); [apply subseteq_drop in Hr |]); done. }
  rewrite sort_rows_perm in Hsorted.
  apply elem_of_filter_bool in Hsorted as [Hin Hall]. split; [done |].
  apply Forall_forall. intros f Hf. rewrite forallb_forall in Hall.
  by apply Hall, list_elem_of_In.
Qed.

Lemma omap_orderings_none {B} (g : query_call → option B) os :
  (∀ o, g (OrderBy o) = None) → omap g (map OrderBy os) = [].
Proof.
  intros Hg. induction os as [| o os IH]; [done |]. cbn. rewrite Hg. exact IH.
Qed.

Lemma execute_orderings compare_values os rows :
  execute compare_values (map OrderBy os) rows = sort_rows compare_values os rows.
Proof.
  unfold execute, limit_of, offset_of, filters.
  rewrite !omap_orderings_none by done. cbn [last forallb].
  assert (orderings (map OrderBy os) = os) as ->.
  { unfold orderings. clear. induction os as [| o os IH]; [done |]. cbn. by rewrite IH. }
  f_equal. clear. induction rows as [| r rows IH]; [done |]. cbn. by rewrite IH.
Qed.

Lemma execute_page compare_values os f limit rows :
  execute compare_values (map OrderBy os ++ [Filter f] ++ limit_calls limit) rows =
  let page := sort_rows compare_values os (List.filter (selects compare_values f) rows) in
  match limit with
  | Some n => take (Z.to_nat n) page
  | None => page
  end.
Proof.
  unfold execute. rewrite orderings_page.
  assert (filters (map OrderBy os ++ [Filter f] ++ limit_calls limit) = [f]) as ->.
  { unfold filters. rewrite !omap_app, omap_orderings_none by done.
    by destruct limit. }
  assert (offset_of (map OrderBy os ++ [Filter f] ++ limit_calls limit) = None) as ->.
  { unfold offset_of. rewrite !omap_app.
    rewrite omap_orderings_none by done. by destruct limit. }
  assert (limit_of (map OrderBy os ++ [Filter f] ++ limit_calls limit) = limit) as ->.
  { unfold limit_of. rewrite !omap_app.
    rewrite omap_orderings_none by done. by destruct limit. }
  cbn zeta.
  assert (List.filter (λ r, forallb (λ f0, selects compare_values f0 r) [f]) rows =
          List.filter (selects compare_values f) rows) as ->; [| done].
  apply List.filter_ext. intros r. cbn. by rewrite andb_true_r.
Qed.

(** X13.  What a page holds.  When the query that a call with a marker
    returns is executed on a table, every row of the result is a row of
    the table that comes strictly after the marker in the order the call
    asks for (the engine's comparison being antisymmetric and knowing how
    the rows compare with the marker on the sort keys). *)
Theorem page_rows_follow_marker :
  ∀ compare_values (model : gset string) limit keys (marker : gmap string value)
    sort_dir sort_dirs q' rows r,
    (∀ a b, compare_values a b = CompOpp <$> compare_values b a) →
    (run (paginate_query [] model limit keys (Some marker) sort_dir sort_dirs)).2
    = inr q' →
    (∀ row, row ∈ rows →
            Forall (λ k, is_Some (compare_values (row_value row (ModelAttr k))
                                                 (row_value marker (ModelAttr k)))) keys) →
    r ∈ execute compare_values q' rows →
    r ∈ rows ∧ row_before compare_values (orderings q') marker r = true.
Proof.
  intros compare_values model limit keys marker sort_dir sort_dirs q' rows r
    Hanti Hrun Hcmp Hr.
  apply elem_of_execute in Hr as [Hin Hfilters]. split; [done |].
  destruct (returned_with_marker _ _ _ _ _ _ _ Hrun)
    as (spec & _ & _ & _ & Hf & _).
  destruct (filter_selects_after compare_values model limit keys marker sort_dir
              sort_dirs q' (spec_marker_predicate spec) r) as [_ <-]; auto.
  rewrite Forall_forall in Hfilters. apply Hfilters.
  unfold filters. apply list_elem_of_omap. eexists. split; [exact Hf | done].
Qed.

Lemma page_rows_follow_marker_witness :
  let low : gmap string value :=
    <["counter_name" := VStr "even"]> (<["resource_id" := VStr "id8"]> ∅) in
  let high : gmap string value :=
    <["counter_name" := VStr "odd"]> (<["resource_id" := VStr "id9"]> ∅) in
  let q' := [OrderBy (desc (ModelAttr "counter_name"));
             OrderBy (desc (ModelAttr "resource_id"));
             Filter (or_ [and_ [Lt (ModelAttr "counter_name") (VStr "odd")];
                          and_ [Eq (ModelAttr "counter_name") (VStr "odd");
                                Lt (ModelAttr "resource_id") (VStr "id7")]])] in
  low ∈ [low; odd_id7; high] ∧ row_before sql_compare (orderings q') odd_id7 low = true.
Proof.
  intros low high q'.
  apply (page_rows_follow_marker sql_compare Meter None ["counter_name"; "resource_id"]
           odd_id7 (Some "desc") None q' [low; odd_id7; high] low).
  - exact sql_compare_antisym.
  - vm_compute. reflexivity.
  - intros row Hrow.
    repeat (apply elem_of_cons in Hrow as [-> | Hrow]);
      [| | | by apply elem_of_nil in Hrow];
      repeat constructor; vm_compute; eauto.
  - vm_compute. apply list_elem_of_here.
Defined.

(** The result of the query with a marker, in the ordered table. *)
Lemma page_after_marker :
  ∀ compare_values (model : gset string) limit keys (marker : gmap string value)
    sort_dir sort_dirs q0 q' rows prev next,
    (∀ a b, compare_values a b = CompOpp <$> compare_values b a) →
    (run (paginate_query [] model None keys None sort_dir sort_dirs)).2 = inr q0 →
    (run (paginate_query [] model limit keys (Some marker) sort_dir sort_dirs)).2
    = inr q' →
    NoDup rows →
    (∀ a b, a ∈ rows → b ∈ rows → a ≠ b →
            row_before compare_values (orderings q0) a b = true ∨
            row_before compare_values (orderings q0) b a = true) →
    (∀ a b c, a ∈ rows → b ∈ rows → c ∈ rows →
              row_before compare_values (orderings q0) a b = true →
              row_before compare_values (orderings q0) b c = true →
              row_before compare_values (orderings q0) a c = true) →
    (∀ row, row ∈ rows →
            Forall (λ k, is_Some (compare_values (row_value row (ModelAttr k))
                                                 (row_value marker (ModelAttr k)))) keys) →
    execute compare_values q0 rows = prev ++ marker :: next →
    execute compare_values q' rows =
    match limit with
    | Some n => take (Z.to_nat n) next
    | None => next
    end.
Proof.
  intros compare_values model limit keys marker sort_dir sort_dirs q0 q' rows prev next
    Hanti Hrun0 Hrun Hnodup Htotal Htrans Hcmp Hfull.
  pose proof (returned_page _ _ _ _ _ _ _ Hrun0) as Hq0.
  pose proof (returned_page _ _ _ _ _ _ _ Hrun) as Hq'.
  set (os := zip_with spec_ordering keys
               (direction_of <$> ensure_sort_dirs keys sort_dir sort_dirs)) in *.
  unfold spec_page_calls in Hq0, Hq'. fold os in Hq0, Hq'.
  cbn [limit_calls] in Hq0. rewrite !app_nil_r in Hq0.
  assert (orderings q0 = os) as Hos.
  { rewrite Hq0. pose proof (orderings_page os (or_ []) None) as Hpage.
    unfold orderings in *. rewrite !omap_app in Hpage. cbn in Hpage.
    by rewrite app_nil_r in Hpage. }
  rewrite Hos in Htotal, Htrans. rewrite Hq0, execute_orderings in Hfull.
  set (f := spec_marker_predicate _) in Hq'.
  assert (∀ row, row ∈ rows →
                 selects compare_values f row = row_before compare_values os marker row)
    as Hselects.
  { intros row Hrow.
    destruct (filter_selects_after compare_values model limit keys marker sort_dir
                sort_dirs q' f row) as [_ ->]; auto.
    - rewrite Hq'. apply elem_of_app. right. left.
    - by rewrite Hq', orderings_page. }
  rewrite Hq', execute_page. cbn zeta.
  assert (sort_rows compare_values os (List.filter (selects compare_values f) rows)
          = next) as ->; [| done].
  rewrite (List.filter_ext_in (selects compare_values f)
             (row_before compare_values os marker))
    by (intros row Hrow; by apply Hselects, list_elem_of_In).
  rewrite sort_filter by done. rewrite Hfull.
  apply filter_after; [done |]. rewrite <- Hfull.
  by apply (sort_rows_sorted compare_values os rows).
Qed.

(** X14.  Pages follow one another.  Take a table whose rows the sort
    keys order strictly and totally (no two rows are tied), and a marker
    that is one of its rows.  If the call without marker and limit
    returns a query whose result is [prev ++ marker :: next], then the
    query that the call with this marker returns has for result the rows
    of [next], the first [limit] of them if there is a limit: the page
    starts right after the marker, skips no row and repeats none. *)
Theorem next_page_is_next_rows :
  ∀ compare_values (model : gset string) limit keys (marker : gmap string value)
    sort_dir sort_dirs q0 q' rows prev next,
    (∀ a b, compare_values a b = CompOpp <$> compare_values b a) →
    (run (paginate_query [] model None keys None sort_dir sort_dirs)).2 = inr q0 →
    (run (paginate_query [] model limit keys (Some marker) sort_dir sort_dirs)).2
    = inr q' →
    NoDup rows →
    (∀ a b, a ∈ rows → b ∈ rows → a ≠ b →
            row_before compare_values (orderings q0) a b = true ∨
            row_before compare_values (orderings q0) b a = true) →
    (∀ a b c, a ∈ rows → b ∈ rows → c ∈ rows →
              row_before compare_values (orderings q0) a b = true →
              row_before compare_values (orderings q0) b c = true →
              row_before compare_values (orderings q0) a c = true) →
    (∀ row, row ∈ rows →
            Forall (λ k, is_Some (compare_values (row_value row (ModelAttr k))
                                                 (row_value marker (ModelAttr k)))) keys) →
    execute compare_values q0 rows = prev ++ marker :: next →
    execute compare_values q' rows =
    match limit with
    | Some n => take (Z.to_nat n) next
    | None => next
    end.
Proof.
  intros compare_values model limit keys marker sort_dir sort_dirs q0 q' rows prev next.
  apply page_after_marker.
Qed.

Lemma next_page_is_next_rows_witness :
  let row name resource : gmap string value :=
    <["counter_name" := VStr name]> (<["resource_id" := VStr resource]> ∅) in
  let rows := [row "odd" "id4"; row "odd" "id9"; row "even" "id8"; odd_id7] in
  let q' := [OrderBy (desc (ModelAttr "counter_name"));
             OrderBy (desc (ModelAttr "resource_id"));
             Filter (or_ [and_ [Lt (ModelAttr "counter_name") (VStr "odd")];
                          and_ [Eq (ModelAttr "counter_name") (VStr "odd");
                                Lt (ModelAttr "resource_id") (VStr "id7")]]);
             Limit 1] in
  execute sql_compare q' rows =
  take (Z.to_nat 1) [row "odd" "id4"; row "even" "id8"].
Proof.
  intros row rows q'.
  apply (next_page_is_next_rows sql_compare Meter (Some 1%Z)
           ["counter_name"; "resource_id"] odd_id7 (Some "desc") None
           [OrderBy (desc (ModelAttr "counter_name"));
            OrderBy (desc (ModelAttr "resource_id"))]
           q' rows [row "odd" "id9"] [row "odd" "id4"; row "even" "id8"]).
  - exact sql_compare_antisym.
  - vm_compute. reflexivity.
  - vm_compute. reflexivity.
  - compute_done.
  - intros a b Ha Hb Hne.
    repeat (apply elem_of_cons in Ha as [-> | Ha]); [| | | | by apply elem_of_nil in Ha];
      repeat (apply elem_of_cons in Hb as [-> | Hb]);
      try (by apply elem_of_nil in Hb); try (by destruct Hne);
      vm_compute; auto.
  - intros a b c Ha Hb Hc.
    repeat (apply elem_of_cons in Ha as [-> | Ha]); [| | | | by apply elem_of_nil in Ha];
      repeat (apply elem_of_cons in Hb as [-> | Hb]);
      try (by apply elem_of_nil in Hb);
      repeat (apply elem_of_cons in Hc as [-> | Hc]);
      try (by apply elem_of_nil in Hc);
      vm_compute; intros; (reflexivity || discriminate).
  - intros r Hr.
    repeat (apply elem_of_cons in Hr as [-> | Hr]); [| | | | by apply elem_of_nil in Hr];
      repeat constructor; vm_compute; eauto.
  - vm_compute. reflexivity.
Defined.

Lemma execute_first_page compare_values os n rows :
  execute compare_values (map OrderBy os ++ [Limit n]) rows =
  take (Z.to_nat n) (sort_rows compare_values os rows).
Proof.
  unfold execute. rewrite limit_of_snoc.
  assert (offset_of (map OrderBy os ++ [Limit n]) = None) as ->.
  { unfold offset_of. by rewrite omap_app, omap_orderings_none. }
  assert (filters (map OrderBy os ++ [Limit n]) = []) as ->.
  { unfold filters. by rewrite omap_app, omap_orderings_none. }
  assert (orderings (map OrderBy os ++ [Limit n]) = os) as ->.
  { pose proof (orderings_page os (or_ []) (Some n)) as Hpage.
    unfold orderings in *. rewrite !omap_app in *. cbn in Hpage.
    by rewrite !app_nil_r in *. }
  cbn [forallb]. do 2 f_equal. clear.
  induction rows as [| r rows IH]; [done |]. cbn. by rewrite IH.
Qed.

(** X15.  Two pages make the head of the table.  On a table whose rows
    the sort keys order strictly and totally, take the first page, of a
    limit [n], and then the page of the same limit after the last row of
    the first: one after the other they are the first [2 n] rows of the
    table in the order asked for, each row once. *)
Theorem consecutive_pages_concatenate :
  ∀ compare_values (model : gset string) n keys (marker : gmap string value)
    sort_dir sort_dirs q0 q1 q2 rows init,
    (∀ a b, compare_values a b = CompOpp <$> compare_values b a) →
    (run (paginate_query [] model None keys None sort_dir sort_dirs)).2 = inr q0 →
    (run (paginate_query [] model (Some n) keys None sort_dir sort_dirs)).2 = inr q1 →
    (run (paginate_query [] model (Some n) keys (Some marker) sort_dir sort_dirs)).2
    = inr q2 →
    NoDup rows →
    (∀ a b, a ∈ rows → b ∈ rows → a ≠ b →
            row_before compare_values (orderings q0) a b = true ∨
            row_before compare_values (orderings q0) b a = true) →
    (∀ a b c, a ∈ rows → b ∈ rows → c ∈ rows →
              row_before compare_values (orderings q0) a b = true →
              row_before compare_values (orderings q0) b c = true →
              row_before compare_values (orderings q0) a c = true) →
    (∀ row, row ∈ rows →
            Forall (λ k, is_Some (compare_values (row_value row (ModelAttr k))
                                                 (row_value marker (ModelAttr k)))) keys) →
    execute compare_values q1 rows = init ++ [marker] →
    execute compare_values q1 rows ++ execute compare_values q2 rows =
    take (Z.to_nat n + Z.to_nat n) (execute compare_values q0 rows).
Proof.
  intros compare_values model n keys marker sort_dir sort_dirs q0 q1 q2 rows init
    Hanti Hrun0 Hrun1 Hrun2 Hnodup Htotal Htrans Hcmp Hfirst.
  pose proof (returned_page _ _ _ _ _ _ _ Hrun0) as Hq0.
  pose proof (returned_page _ _ _ _ _ _ _ Hrun1) as Hq1.
  set (os := zip_with spec_ordering keys
               (direction_of <$> ensure_sort_dirs keys sort_dir sort_dirs)) in *.
  unfold spec_page_calls in Hq0, Hq1. fold os in Hq0, Hq1.
  cbn [limit_calls app] in Hq0, Hq1. rewrite app_nil_r in Hq0.
  assert (execute compare_values q0 rows = sort_rows compare_values os rows) as Hfull
    by (by rewrite Hq0, execute_orderings).
  assert (execute compare_values q1 rows =
          take (Z.to_nat n) (sort_rows compare_values os rows)) as Hpage
    by (by rewrite Hq1, execute_first_page).
  rewrite (page_after_marker compare_values model (Some n) keys marker sort_dir sort_dirs
             q0 q2 rows init (drop (Z.to_nat n) (execute compare_values q0 rows)));
    try done.
  - rewrite Hpage, Hfull. apply take_take_drop.
  - rewrite <- (take_drop (Z.to_nat n) (execute compare_values q0 rows)) at 1.
    rewrite Hfull, <- Hpage, Hfirst, <- app_assoc. done.
Qed.

Lemma consecutive_pages_concatenate_witness :
  let row name resource : gmap string value :=
    <["counter_name" := VStr name]> (<["resource_id" := VStr resource]> ∅) in
  let rows := [row "odd" "id4"; row "odd" "id9"; row "even" "id8"; odd_id7] in
  let counter_name := ModelAttr "counter_name" in
  let resource_id := ModelAttr "resource_id" in
  let q0 := [OrderBy (desc counter_name); OrderBy (desc resource_id)] in
  let q1 := [OrderBy (desc counter_name); OrderBy (desc resource_id); Limit 2] in
  let q2 := [OrderBy (desc counter_name); OrderBy (desc resource_id);
             Filter (or_ [and_ [Lt counter_name (VStr "odd")];
                          and_ [Eq counter_name (VStr "odd");
                                Lt resource_id (VStr "id7")]]);
             Limit 2] in
  execute sql_compare q1 rows ++ execute sql_compare q2 rows =
  take (Z.to_nat 2 + Z.to_nat 2) (execute sql_compare q0 rows).
Proof.
  intros row rows counter_name resource_id q0 q1 q2.
  apply (consecutive_pages_concatenate sql_compare Meter 2%Z
           ["counter_name"; "resource_id"] odd_id7 (Some "desc") None
           q0 q1 q2 rows [row "odd" "id9"]).
  - exact sql_compare_antisym.
  - vm_compute. reflexivity.
  - vm_compute. reflexivity.
  - vm_compute. reflexivity.
  - compute_done.
  - intros a b Ha Hb Hne.
    repeat (apply elem_of_cons in Ha as [-> | Ha]); [| | | | by apply elem_of_nil in Ha];
      repeat (apply elem_of_cons in Hb as [-> | Hb]);
      try (by apply elem_of_nil in Hb); try (by destruct Hne);
      vm_compute; auto.
  - intros a b c Ha Hb Hc.
    repeat (apply elem_of_cons in Ha as [-> | Ha]); [| | | | by apply elem_of_nil in Ha];
      repeat (apply elem_of_cons in Hb as [-> | Hb]);
      try (by apply elem_of_nil in Hb);
      repeat (apply elem_of_cons in Hc as [-> | Hc]);
      try (by apply elem_of_nil in Hc);
      vm_compute; intros; (reflexivity || discriminate).
  - intros r Hr.
    repeat (apply elem_of_cons in Hr as [-> | Hr]); [| | | | by apply elem_of_nil in Hr];
      repeat constructor; vm_compute; eauto.
  - vm_compute. reflexivity.
Defined.

(** X16.  A model without the marker's attributes.  [get_marker] reads
    [model.counter_name] and [model.resource_id] outside any [try]: on a
    model that lacks the first it raises [AttributeError] before any
    call on the query, and on one that lacks only the second, after the
    filter on the name. *)
Theorem get_marker_missing_attribute :
  ∀ compare_values rows (model : gset string) counter_name resource_id t,
    ("counter_name" ∉ model →
     get_marker compare_values rows model counter_name resource_id t =
     (t, inl (AttributeError "counter_name"))) ∧
    ("counter_name" ∈ model → "resource_id" ∉ model →
     get_marker compare_values rows model counter_name resource_id t =
     (t ++ [Call (Filter (Eq (ModelAttr "counter_name") counter_name))],
      inl (AttributeError "resource_id"))).
Proof.
  intros compare_values rows model counter_name resource_id t. split.
  - intros Hname. unfold get_marker, getattr_model.
    rewrite bool_decide_eq_false_2 by done. reflexivity.
  - intros Hname Hresource. unfold get_marker, getattr_model.
    rewrite bool_decide_eq_true_2, bool_decide_eq_false_2 by done. reflexivity.
Qed.

Lemma get_marker_missing_attribute_witness :
  get_marker sql_compare [odd_id7] {["counter_name"]} (VStr "odd") (VStr "id7") [] =
  ([] ++ [Call (Filter (Eq (ModelAttr "counter_name") (VStr "odd")))],
   inl (AttributeError "resource_id")).
Proof.
  apply (proj2 (get_marker_missing_attribute sql_compare [odd_id7] {["counter_name"]}
                  (VStr "odd") (VStr "id7") [])); compute_done.
Defined.

(** * [paginate_query] with the refusals of [sqlalchemy] *)

(** ** The ordering loop on a query with or without a limit *)

Lemma no_limit_offset_ok q t :
  limit_of q = None → offset_of q = None → no_limit_offset q t = (t, inr tt).
Proof. intros Hl Ho. unfold no_limit_offset. by rewrite Hl, Ho. Qed.

Lemma no_limit_offset_refuses q t :
  ¬ (limit_of q = None ∧ offset_of q = None) →
  no_limit_offset q t = (t, inl InvalidRequestError).
Proof.
  intros H. unfold no_limit_offset.
  destruct (limit_of q), (offset_of q); try done. by destruct H.
Qed.

(** An ordering changes neither the limit nor the offset of a query. *)
Lemma limit_of_order q o : limit_of (q ++ [OrderBy o]) = limit_of q.
Proof. unfold limit_of. by rewrite omap_app, app_nil_r. Qed.

Lemma offset_of_order q o : offset_of (q ++ [OrderBy o]) = offset_of q.
Proof. unfold offset_of. by rewrite omap_app, app_nil_r. Qed.

(** On a query without limit or offset an iteration of the ordering loop
    runs as it does without the check. *)
Lemma checked_add_sorting model q kd t :
  limit_of q = None → offset_of q = None →
  Checked.add_sorting model q kd t = add_sorting model q kd t.
Proof.
  intros Hl Ho. destruct kd as [k d].
  unfold Checked.add_sorting, add_sorting, Checked.order_by, try_except, bind, lift.
  destruct (dict_getitem sort_dir_funcs d) as [e | f].
  { by destruct (is_KeyError e). }
  destruct (getattr_model model k) as [e | c].
  { by destruct (is_AttributeError e). }
  by rewrite no_limit_offset_ok.
Qed.

Lemma add_sorting_result model q kd t t' q' :
  add_sorting model q kd t = (t', inr q') → ∃ o, q' = q ++ [OrderBy o].
Proof.
  destruct kd as [k d].
  unfold add_sorting, order_by, try_except, bind, lift, emit, ret.
  destruct (dict_getitem sort_dir_funcs d) as [e | f].
  { by destruct (is_KeyError e). }
  destruct (getattr_model model k) as [e | c].
  { by destruct (is_AttributeError e). }
  intros [= _ <-]. eauto.
Qed.

Lemma checked_sorting model l q t :
  limit_of q = None → offset_of q = None →
  for_each l (Checked.add_sorting model) q t = for_each l (add_sorting model) q t.
Proof.
  revert q t. induction l as [| kd l IH]; intros q t Hl Ho; [done |].
  cbn [for_each]. unfold bind. rewrite checked_add_sorting by done.
  destruct (add_sorting model q kd t) as [t1 [e | q1]] eqn:Hstep; [done |].
  apply add_sorting_result in Hstep as [o ->].
  apply IH; by rewrite ?limit_of_order, ?offset_of_order.
Qed.

(** On a query that has a limit or an offset the first ordering is refused. *)
Lemma checked_sorting_refused model k d l q t :
  ¬ (limit_of q = None ∧ offset_of q = None) →
  for_each ((k, d) :: l) (Checked.add_sorting model) q t =
  (t, inl (if negb (recognized d) then ValueError unknown_sort_direction
           else if bool_decide (k ∈ model) then InvalidRequestError
           else InvalidSortKey)).
Proof.
  intros Hq. cbn [for_each]. unfold bind.
  unfold Checked.add_sorting, Checked.order_by, try_except, bind, lift.
  destruct (recognized d) eqn:Hd; cbn [negb].
  - rewrite <- (recognized_direction_of d Hd), sort_dir_func_known.
    unfold getattr_model. case_bool_decide; [| done].
    by rewrite no_limit_offset_refuses.
  - by rewrite sort_dir_func_unknown.
Qed.

(** ** The comparisons with the marker values *)

Section CheckedCriteria.

Variable model : gset string.
Variable spec : list (string * value * direction).

Let keys : list string := spec.*1.*1.
Let ms : list value := spec.*1.*2.
Let dirs : list (option string) := direction_name <$> spec.*2.

Hypothesis keys_known : Forall (.∈ model) keys.

(** Lines 82-94 for a key whose marker value is not [None], and for one
    whose marker value is. *)
Lemma checked_add_criteria_ok i k m d acc t :
  spec !! i = Some (k, m, d) → m ≠ VNone →
  Checked.add_criteria model keys dirs ms acc i t =
  (t, inr (acc ++ [spec_term spec i (k, m, d)])).
Proof using keys_known.
  intros Hi Hm.
  destruct (spec_lookup model spec keys_known i k m d Hi) as (Hk & Hv & Hd & Hattr).
  fold keys ms dirs in Hk, Hv, Hd.
  unfold Checked.add_criteria, range.
  erewrite bind_ok; last first.
  { apply (equalities_ok model spec keys_known). apply lookup_lt_Some in Hi. lia. }
  unfold bind, lift, ret. rewrite Hk, Hattr, Hd, Hv.
  unfold spec_term. rewrite drop_0. cbn [app].
  by destruct d, m.
Qed.

Lemma checked_add_criteria_null i k d acc t :
  spec !! i = Some (k, VNone, d) →
  Checked.add_criteria model keys dirs ms acc i t = (t, inl ArgumentError).
Proof using keys_known.
  intros Hi.
  destruct (spec_lookup model spec keys_known i k VNone d Hi) as (Hk & Hv & Hd & Hattr).
  fold keys ms dirs in Hk, Hv, Hd.
  unfold Checked.add_criteria, range.
  erewrite bind_ok; last first.
  { apply (equalities_ok model spec keys_known). apply lookup_lt_Some in Hi. lia. }
  unfold bind, lift, ret. rewrite Hk, Hattr, Hd, Hv.
  by destruct d.
Qed.

(** The outer loop builds every term when no marker value is [None], and
    stops at the first one that is. *)
Lemma checked_criteria_ok n a acc t :
  a + n = length spec →
  Forall (λ kmd, kmd.1.2 ≠ VNone) (drop a spec) →
  for_each (seq a n) (Checked.add_criteria model keys dirs ms) acc t =
  (t, inr (acc ++ imap (λ j, spec_term spec (a + j)) (drop a spec))).
Proof using keys_known.
  revert a acc. induction n as [| n IH]; intros a acc Hlen Hnull; cbn [seq for_each].
  - rewrite drop_ge by lia. by rewrite app_nil_r.
  - destruct (lookup_lt_is_Some_2 spec a) as [[[k m] d] Hi]; [lia |].
    rewrite (drop_S _ _ _ Hi) in Hnull |- *.
    apply Forall_cons in Hnull as [Hm Hnull].
    erewrite bind_ok by by apply checked_add_criteria_ok.
    rewrite IH by (done || lia). rewrite imap_cons, <- app_assoc.
    do 3 f_equal. cbn [app]. f_equal.
    + by rewrite Nat.add_0_r.
    + apply imap_ext. intros j x _. cbn. f_equal. lia.
Qed.

Lemma checked_criteria_null n a acc t :
  a + n = length spec →
  Exists (λ kmd, kmd.1.2 = VNone) (drop a spec) →
  for_each (seq a n) (Checked.add_criteria model keys dirs ms) acc t =
  (t, inl ArgumentError).
Proof using keys_known.
  revert a acc. induction n as [| n IH]; intros a acc Hlen Hnull; cbn [seq for_each].
  - rewrite drop_ge in Hnull by lia. by apply Exists_nil in Hnull.
  - destruct (lookup_lt_is_Some_2 spec a) as [[[k m] d] Hi]; [lia |].
    rewrite (drop_S _ _ _ Hi) in Hnull.
    destruct (decide (m = VNone)) as [-> | Hm].
    + erewrite bind_err; [done |]. by eapply checked_add_criteria_null.
    + erewrite bind_ok by by apply checked_add_criteria_ok.
      apply IH; [lia |]. by apply Exists_cons in Hnull as [? | ?].
Qed.

End CheckedCriteria.

Lemma marker_values_null (marker : gmap string value) keys ds :
  length ds = length keys →
  Forall (λ k, is_Some (marker !! k)) keys →
  has_null marker keys = true →
  Exists (λ kmd : string * value * direction, kmd.1.2 = VNone)
    (zip3 keys (marker_values marker keys) ds).
Proof.
  unfold has_null, zip3. revert ds.
  induction keys as [| k keys IH]; intros [| d ds] Hlen Hall Hnull; try done.
  apply Forall_cons in Hall as [_ Hall]. cbn in Hnull |- *.
  apply orb_true_iff in Hnull as [Hk | Hnull].
  - apply bool_decide_eq_true in Hk. left. cbn. by rewrite Hk.
  - right. apply IH; [by injection Hlen | done | done].
Qed.

Lemma marker_values_not_null (marker : gmap string value) keys ds :
  length ds = length keys →
  Forall (λ k, is_Some (marker !! k)) keys →
  has_null marker keys = false →
  Forall (λ kmd : string * value * direction, kmd.1.2 ≠ VNone)
    (zip3 keys (marker_values marker keys) ds).
Proof.
  unfold has_null, zip3. revert ds.
  induction keys as [| k keys IH]; intros [| d ds] Hlen Hall Hnull; try done.
  apply Forall_cons in Hall as [[v Hv] Hall]. cbn in Hnull |- *.
  apply orb_false_iff in Hnull as [Hk Hnull].
  apply bool_decide_eq_false in Hk. constructor.
  - cbn. rewrite Hv in Hk |- *. cbn. congruence.
  - apply IH; [by injection Hlen | done | done].
Qed.

(** Lines 73-97 on a marker that has an attribute for every key. *)
Lemma checked_add_pagination_run model keys ds (marker : gmap string value) q t :
  Forall (.∈ model) keys → Forall (λ k, is_Some (marker !! k)) keys →
  length ds = length keys →
  limit_of q = None → offset_of q = None →
  let f := spec_marker_predicate (zip3 keys (marker_values marker keys) ds) in
  Checked.add_pagination model keys (direction_name <$> ds) marker q t =
  if has_null marker keys then (t, inl ArgumentError)
  else (t ++ [Call (Filter f)], inr (q ++ [Filter f])).
Proof.
  intros Hkeys Hmarker Hds Hl Ho f. subst f.
  unfold Checked.add_pagination.
  erewrite bind_ok by by apply marker_values_ok.
  destruct (zip3_keys keys (marker_values marker keys) ds)
    as (Hk & Hm & Hd & Hlen); [apply length_marker_values | done |].
  pose proof (marker_values_null marker keys ds Hds Hmarker) as Hnull.
  pose proof (marker_values_not_null marker keys ds Hds Hmarker) as Hfull.
  set (spec := zip3 keys (marker_values marker keys) ds) in *.
  pose proof (checked_criteria_ok model spec) as Hok.
  pose proof (checked_criteria_null model spec) as Hfail.
  rewrite Hk, Hm, Hd in Hok, Hfail. cbn [app].
  destruct (has_null marker keys).
  - erewrite bind_err; [done |]. unfold range. rewrite <- Hlen.
    apply Hfail; [done | done |]. rewrite drop_0. by apply Hnull.
  - erewrite bind_ok; last first.
    { unfold range. rewrite <- Hlen. apply Hok; [done | done |].
      rewrite drop_0. by apply Hfull. }
    rewrite drop_0. unfold Checked.filter_.
    erewrite bind_ok by by apply no_limit_offset_ok.
    reflexivity.
Qed.

Lemma checked_add_pagination_missing model pre k post dirs (marker : gmap string value) q t :
  Forall (λ k, is_Some (marker !! k)) pre → marker !! k = None →
  Checked.add_pagination model (pre ++ k :: post) dirs marker q t =
  (t, inl (AttributeError k)).
Proof.
  intros Hpre Hk. unfold Checked.add_pagination.
  erewrite bind_err; [done |]. by apply marker_values_missing.
Qed.

(** ** The outcome of every call *)

Lemma checked_conflict q model limit keys marker sort_dir sort_dirs t :
  truthy_str sort_dir = true → truthy_list sort_dirs = true →
  Checked.paginate_query q model limit keys marker sort_dir sort_dirs t =
  (t ++ advisory keys, inl AssertionError).
Proof.
  intros Hd Hds. unfold Checked.paginate_query.
  erewrite bind_ok by apply advisory_run.
  rewrite Hd, Hds. reflexivity.
Qed.

Lemma checked_mismatch q model limit keys marker sort_dir sort_dirs t :
  length (ensure_sort_dirs keys sort_dir sort_dirs) ≠ length keys →
  Checked.paginate_query q model limit keys marker sort_dir sort_dirs t =
  (t ++ advisory keys, inl AssertionError).
Proof.
  intros Hlen. unfold Checked.paginate_query.
  erewrite bind_ok by apply advisory_run.
  destruct (negb (truthy_str sort_dir && truthy_list sort_dirs)); [| done].
  cbn [assert]. erewrite bind_ok by reflexivity.
  by rewrite bool_decide_eq_false_2.
Qed.

(** Past the two assertions the call is its three steps, run after the
    advisory diagnostic. *)
Lemma checked_past_assertions q model limit keys marker sort_dir sort_dirs t :
  negb (truthy_str sort_dir && truthy_list sort_dirs) = true →
  length (ensure_sort_dirs keys sort_dir sort_dirs) = length keys →
  Checked.paginate_query q model limit keys marker sort_dir sort_dirs t =
  (let dirs := ensure_sort_dirs keys sort_dir sort_dirs in
   query <- for_each (zip keys dirs) (Checked.add_sorting model) q ;;
   query <- match marker with
            | Some marker => Checked.add_pagination model keys dirs marker query
            | None => ret query
            end ;;
   query <- match limit with
            | Some limit => limit_ query limit
            | None => ret query
            end ;;
   ret query) (t ++ advisory keys).
Proof.
  intros Hconflict Hlen. unfold Checked.paginate_query.
  erewrite bind_ok by apply advisory_run.
  rewrite Hconflict. cbn [assert]. erewrite bind_ok by reflexivity.
  rewrite bool_decide_eq_true_2 by done.
  cbn [assert]. erewrite bind_ok by reflexivity.
  reflexivity.
Qed.

Lemma orderings_keep_limit_offset q os :
  limit_of (q ++ map OrderBy os) = limit_of q ∧
  offset_of (q ++ map OrderBy os) = offset_of q.
Proof.
  apply limit_offset_unchanged, Forall_forall.
  by intros c (o & -> & _)%list_elem_of_fmap.
Qed.

Lemma limit_run (limit : option Z) q t :
  (query <- match limit with
            | Some limit => limit_ q limit
            | None => ret q
            end ;;
   ret query) t = (t ++ map Call (limit_calls limit), inr (q ++ limit_calls limit)).
Proof.
  destruct limit as [n |]; unfold bind, limit_, emit, ret; cbn;
    by rewrite ?app_nil_r.
Qed.

(** Every call does what [checked_outcome] says. *)
Lemma checked_paginate_query_outcome q model limit keys marker sort_dir sort_dirs t :
  Checked.paginate_query q model limit keys marker sort_dir sort_dirs t =
  (t ++ (checked_outcome q model limit keys marker sort_dir sort_dirs).1,
   sum_map id (q ++.) (checked_outcome q model limit keys marker sort_dir sort_dirs).2).
Proof.
  unfold checked_outcome.
  destruct (truthy_str sort_dir && truthy_list sort_dirs) eqn:Hconflict.
  { apply andb_true_iff in Hconflict as [Hd Hds].
    rewrite checked_conflict by done.
    unfold paginate_outcome. rewrite Hd, Hds. cbn.
    by destruct (limit_of q), (offset_of q). }
  cbn [orb].
  case_bool_decide as Hlen; cbn [negb]; last first.
  { rewrite checked_mismatch by done.
    unfold paginate_outcome. rewrite Hconflict, bool_decide_eq_false_2 by done. cbn.
    by destruct (limit_of q), (offset_of q). }
  rewrite checked_past_assertions by (by rewrite ?Hconflict). cbv zeta.
  set (dirs := ensure_sort_dirs keys sort_dir sort_dirs) in *.
  destruct (decide (limit_of q = None ∧ offset_of q = None)) as [[Hl Ho] | Hstale].
  - rewrite Hl, Ho.
    unfold paginate_outcome. rewrite Hconflict, bool_decide_eq_true_2 by done.
    cbn [negb]. fold dirs.
    pose proof (sorting_run model (zip keys dirs) q (t ++ advisory keys)) as Hsort.
    pose proof (sorting_outcome_directions model keys dirs Hlen) as Hnone.
    rewrite <- checked_sorting in Hsort by done.
    destruct (sorting_outcome model (zip keys dirs)) as [os [e |]]; cbn in Hsort.
    { erewrite bind_err by done. cbn. by rewrite app_assoc. }
    destruct Hnone as (Hkeys & Hdirs & Hos); [done |]. cbn in Hos. subst os.
    set (ds := direction_of <$> dirs) in *.
    assert (length ds = length keys) as Hds by (unfold ds; by rewrite length_fmap).
    erewrite bind_ok by done.
    destruct marker as [m |].
    + destruct (first_missing m keys) as [k |] eqn:Hmissing.
      * apply first_missing_Some in Hmissing as (pre & post & Hsplit & Hpre & Hk).
        cbn. rewrite Hsplit at 1.
        erewrite bind_err by by apply checked_add_pagination_missing.
        by rewrite app_assoc.
      * apply first_missing_None in Hmissing. cbn [snd].
        pose proof (checked_add_pagination_run model keys ds m
                      (q ++ map OrderBy (zip_with spec_ordering keys ds))
                      ((t ++ advisory keys)
                         ++ map Call (map OrderBy (zip_with spec_ordering keys ds)))
                      Hkeys Hmissing Hds) as Hpage.
        rewrite <- Hdirs in Hpage. cbv zeta in Hpage.
        rewrite (proj1 (orderings_keep_limit_offset q _)) in Hpage.
        rewrite (proj2 (orderings_keep_limit_offset q _)) in Hpage.
        specialize (Hpage Hl Ho).
        destruct (has_null m keys).
        { erewrite bind_err by done. cbn. by rewrite app_assoc. }
        erewrite bind_ok by done.
        rewrite limit_run. cbn [fst snd sum_map id].
        rewrite !map_app, <- !app_assoc. reflexivity.
    + erewrite bind_ok by reflexivity.
      rewrite limit_run. cbn [fst snd sum_map id].
      rewrite !map_app, <- !app_assoc. reflexivity.
  - destruct (zip keys dirs) as [| [k d] l] eqn:Hzip.
    + assert (keys = []) as ->.
      { destruct keys as [| k keys]; [done |]. by destruct dirs. }
      erewrite bind_ok by reflexivity.
      destruct marker as [m |].
      * erewrite bind_err; last first.
        { unfold Checked.add_pagination. cbn [for_each length range seq].
          erewrite bind_ok by reflexivity. erewrite bind_ok by reflexivity.
          unfold Checked.filter_. erewrite bind_err; [done |].
          by apply no_limit_offset_refuses. }
        destruct (limit_of q), (offset_of q); try done. by destruct Hstale.
      * erewrite bind_ok by reflexivity.
        rewrite limit_run.
        destruct (limit_of q), (offset_of q); cbn; rewrite <- ?app_assoc; try done.
        by destruct Hstale.
    + erewrite bind_err by by apply checked_sorting_refused.
      destruct (limit_of q), (offset_of q); cbn; try done.
      by destruct Hstale.
Qed.

(** Where neither refusal occurs the function runs as [paginate_query]. *)
Lemma checked_paginate_query_agrees q model limit keys marker sort_dir sort_dirs t :
  limit_of q = None → offset_of q = None →
  (∀ m, marker = Some m → has_null m keys = false) →
  Checked.paginate_query q model limit keys marker sort_dir sort_dirs t =
  paginate_query q model limit keys marker sort_dir sort_dirs t.
Proof.
  intros Hl Ho Hnull.
  rewrite checked_paginate_query_outcome, paginate_query_outcome.
  unfold checked_outcome. rewrite Hl, Ho.
  destruct (paginate_outcome model limit keys marker sort_dir sort_dirs)
    as [evs [e | calls]]; [done |].
  destruct marker as [m |]; [| done]. by rewrite (Hnull m).
Qed.

(** ** A marker without a value *)

Lemma no_filter_before_marker keys os f :
  Call (Filter f) ∉ advisory keys ++ map Call (map OrderBy os).
Proof.
  intros [Hin | Hin]%elem_of_app.
  - unfold advisory in Hin. case_bool_decide; [by apply elem_of_nil in Hin |].
    by apply list_elem_of_singleton in Hin.
  - apply list_elem_of_fmap in Hin as (c & [= <-] & Hin).
    by apply list_elem_of_fmap in Hin as (o & ? & _).
Qed.

(** A call that [paginate_query] fails has made orderings at most. *)
Lemma paginate_outcome_failure model limit keys marker sort_dir sort_dirs e :
  (paginate_outcome model limit keys marker sort_dir sort_dirs).2 = inl e →
  ∃ os, (paginate_outcome model limit keys marker sort_dir sort_dirs).1 =
        advisory keys ++ map Call (map OrderBy os).
Proof.
  unfold paginate_outcome.
  destruct (truthy_str sort_dir && truthy_list sort_dirs).
  { intros _. exists []. by rewrite app_nil_r. }
  destruct (negb _).
  { intros _. exists []. by rewrite app_nil_r. }
  destruct (sorting_outcome model _) as [os [e' |]]; [by exists os |].
  destruct marker as [m |]; [| done].
  destruct (first_missing m keys); [by exists os | done].
Qed.

Lemma sorting_outcome_ok (model : gset string) keys ds :
  Forall (.∈ model) keys →
  sorting_outcome model (zip keys (direction_name <$> ds)) =
  (zip_with spec_ordering keys ds, None).
Proof.
  intros Hkeys. revert ds. induction Hkeys as [| k keys Hk _ IH]; intros [| d ds];
    try done.
  cbn [fmap list_fmap zip zip_with sorting_outcome].
  rewrite recognized_direction_name, bool_decide_eq_true_2, IH by done.
  by rewrite direction_of_name.
Qed.

Lemma has_null_true (marker : gmap string value) keys k :
  k ∈ keys → marker !! k = Some VNone → has_null marker keys = true.
Proof.
  intros Hk Hnull. apply existsb_exists. exists k.
  split; [by apply list_elem_of_In | by apply bool_decide_eq_true].
Qed.

Lemma paginate_outcome_returns model limit keys (m : gmap string value)
    sort_dir sort_dirs calls :
  (paginate_outcome model limit keys (Some m) sort_dir sort_dirs).2 = inr calls →
  length (ensure_sort_dirs keys sort_dir sort_dirs) = length keys ∧
  first_missing m keys = None.
Proof.
  unfold paginate_outcome.
  destruct (truthy_str sort_dir && truthy_list sort_dirs); [done |].
  case_bool_decide; [| done]. cbn [negb].
  destruct (sorting_outcome model _) as [os [e' |]]; [done |].
  by destruct (first_missing m keys).
Qed.

(** C3, as the code has it.  A marker that has no value for some sort
    key, because it lacks the attribute or because the attribute holds
    [None], never gets a predicate built from it: whatever the other
    arguments, the call fails and no filter has been added.  Which
    failure it is depends on the checks that come first.  On a query
    without limit or offset, with directions and keys that pass their
    checks, it is the marker's own, raised after the orderings: the
    [AttributeError] of [getattr] for the first key the marker has no
    attribute for, and the [ArgumentError] of the comparison with [None]
    when the marker has an attribute for every key. *)
Theorem missing_marker_value_fails :
  ∀ q (model : gset string) limit keys (marker : gmap string value)
    sort_dir sort_dirs t,
    (∃ k, k ∈ keys ∧ value_missing marker k) →
    (∃ evs e,
       Checked.paginate_query q model limit keys (Some marker) sort_dir sort_dirs t =
       (t ++ evs, inl e) ∧
       ∀ f, Call (Filter f) ∉ evs) ∧
    (limit_of q = None → offset_of q = None →
     valid_call model keys None sort_dir sort_dirs = true →
     Checked.paginate_query q model limit keys (Some marker) sort_dir sort_dirs t =
     (t ++ advisory keys
        ++ map Call (map OrderBy
             (zip_with spec_ordering keys
                (direction_of <$> ensure_sort_dirs keys sort_dir sort_dirs))),
      inl match first_missing marker keys with
          | Some k => MarkerValueMissingError k
          | None => ArgumentError
          end)).
Proof.
  intros q model limit keys marker sort_dir sort_dirs t (k & Hk & Hmissing).
  assert (first_missing marker keys = None → has_null marker keys = true) as Hnull.
  { intros Hall%first_missing_None. apply (has_null_true marker keys k Hk).
    destruct Hmissing as [Habsent | Hnone]; [| done].
    rewrite Forall_forall in Hall. specialize (Hall k Hk).
    rewrite Habsent in Hall. by destruct Hall. }
  rewrite checked_paginate_query_outcome. split.
  - unfold checked_outcome.
    pose proof (paginate_outcome_failure model limit keys (Some marker)
                  sort_dir sort_dirs) as Hfail.
    pose proof (paginate_outcome_returns model limit keys marker
                  sort_dir sort_dirs) as Hret.
    destruct (limit_of q) as [n |], (offset_of q) as [n' |].
    4: { destruct (paginate_outcome model limit keys (Some marker) sort_dir sort_dirs)
           as [evs [e | calls]]; cbn [fst snd] in *.
         - destruct (Hfail e eq_refl) as [os ->].
           eexists _, e. split; [done |]. apply no_filter_before_marker.
         - destruct (Hret calls eq_refl) as [_ Hall]. rewrite (Hnull Hall).
           eexists _, ArgumentError. split; [done |]. apply no_filter_before_marker. }
    all: destruct (_ || _) eqn:Hassert;
      [eexists _, _; split; [done |];
       intros f; rewrite <- (app_nil_r (advisory keys));
       apply (no_filter_before_marker keys []) |].
    all: apply orb_false_iff in Hassert as [_ Hlen%negb_false_iff%bool_decide_eq_true].
    all: destruct (zip keys _) as [| [k0 d0] l] eqn:Hzip;
      [destruct keys; [by apply elem_of_nil in Hk |];
       by destruct (ensure_sort_dirs _ _ _) |].
    all: eexists _, _; split; [done |].
    all: intros f; rewrite <- (app_nil_r (advisory keys)).
    all: apply (no_filter_before_marker keys []).
  - intros Hl Ho Hvalid. unfold checked_outcome. rewrite Hl, Ho.
    destruct (valid_call_true _ _ _ _ _ Hvalid) as (Hconflict & Hdirs & Hlen & Hkeys & _).
    pose proof (sorting_outcome_ok model keys
                  (direction_of <$> ensure_sort_dirs keys sort_dir sort_dirs)
                  Hkeys) as Hsort.
    rewrite <- Hdirs in Hsort. rewrite length_fmap in Hlen.
    unfold paginate_outcome.
    apply negb_true_iff in Hconflict.
    rewrite Hconflict, Hsort, bool_decide_eq_true_2 by done. cbn [negb].
    destruct (first_missing marker keys) eqn:Hfirst; [done |].
    cbn [snd]. by rewrite Hnull.
Qed.

Lemma missing_marker_value_fails_witness :
  let marker : gmap string value :=
    <["counter_name" := VStr "odd"]> (<["resource_id" := VNone]> ∅) in
  run (Checked.paginate_query [] Meter (Some 3%Z) ["counter_name"; "resource_id"]
         (Some marker) (Some "desc") None) =
  ([LogInfo id_warning;
    Call (OrderBy (desc (ModelAttr "counter_name")));
    Call (OrderBy (desc (ModelAttr "resource_id")))],
   inl ArgumentError).
Proof.
  intros marker.
  destruct (missing_marker_value_fails [] Meter (Some 3%Z)
              ["counter_name"; "resource_id"] marker (Some "desc") None [])
    as [_ Hrun].
  - exists "resource_id". split; [compute_done | right; reflexivity].
  - apply Hrun; reflexivity.
Defined.

(** C3 as stated fails where an earlier check fails first: with a marker
    that lacks [id] and an unknown direction the failure is the one of the
    direction, with a marker whose [project_id] is null and a model without
    that attribute it is the one of the sort key, and on a query that
    already has a limit it is the refusal of [order_by]. *)
Lemma missing_marker_value_counterexample :
  value_missing (∅ : gmap string value) "id" ∧
  run (Checked.paginate_query [] Meter None ["id"] (Some ∅) (Some "up") None) =
  ([], inl UnknownSortDirectionError) ∧
  value_missing (<["project_id" := VNone]> ∅) "project_id" ∧
  run (Checked.paginate_query [] Meter None ["project_id"]
         (Some (<["project_id" := VNone]> ∅)) None None) =
  ([LogInfo id_warning], inl UnknownSortKeyError) ∧
  value_missing (<["id" := VNone]> ∅) "id" ∧
  run (Checked.paginate_query [Limit 3] Meter None ["id"]
         (Some (<["id" := VNone]> ∅)) None None) =
  ([], inl InvalidRequestError).
Proof.
  split_and!; try (vm_compute; reflexivity).
  - by left.
  - by right.
  - by right.
Qed.

(** ** The exceptions that escape *)

Lemma paginate_outcome_error (model : gset string) limit keys marker sort_dir sort_dirs e :
  (paginate_outcome model limit keys marker sort_dir sort_dirs).2 = inl e →
  (e = AssertionError ∧ is_Some sort_dirs) ∨
  (e = ValueError unknown_sort_direction ∧
   ∃ d, d ∈ ensure_sort_dirs keys sort_dir sort_dirs ∧ recognized d = false) ∨
  (e = InvalidSortKey ∧ ∃ k, k ∈ keys ∧ k ∉ model) ∨
  (∃ k m, e = AttributeError k ∧ marker = Some m ∧ k ∈ keys ∧ m !! k = None).
Proof.
  unfold paginate_outcome.
  destruct (truthy_str sort_dir && truthy_list sort_dirs) eqn:Hconflict.
  { apply andb_true_iff in Hconflict as [_ Hds]. intros [= <-]. left.
    split; [done |]. by destruct sort_dirs. }
  case_bool_decide as Hlen; cbn [negb].
  2: { intros [= <-]. left. split; [done |]. destruct sort_dirs; [done |].
       by rewrite ensure_sort_dirs_length in Hlen. }
  set (dirs := ensure_sort_dirs keys sort_dir sort_dirs) in *.
  pose proof (sorting_outcome_error model (zip keys dirs)) as Herr.
  destruct (sorting_outcome model (zip keys dirs)) as [os [e' |]]; cbn in *.
  { intros [= <-].
    destruct (Herr e' eq_refl) as [[-> (k & d & Hin & Hd)] | [-> (k & d & Hin & Hk)]].
    - right. left. split; [done |]. exists d. split; [| done].
      apply list_elem_of_lookup in Hin as [i Hi].
      apply lookup_zip_with_Some in Hi as (? & ? & [= <- <-] & _ & Hi).
      by eapply list_elem_of_lookup_2.
    - right. right. left. split; [done |]. exists k. split; [| done].
      apply list_elem_of_lookup in Hin as [i Hi].
      apply lookup_zip_with_Some in Hi as (? & ? & [= <- <-] & Hi & _).
      by eapply list_elem_of_lookup_2. }
  destruct marker as [m |]; [| done].
  destruct (first_missing m keys) as [k |] eqn:Hmissing; [| done].
  intros [= <-]. right. right. right.
  apply first_missing_Some in Hmissing as (pre & post & -> & _ & Hk).
  exists k, m. split_and!; [done | done | | done].
  apply elem_of_app. right. left.
Qed.

Lemma zip_head {A B} (l : list A) (k : list B) x y r :
  zip l k = (x, y) :: r → x ∈ l ∧ y ∈ k.
Proof. destruct l, k; try done. intros [= -> -> _]. split; left. Qed.

(** X1.  The exceptions that escape.  Whatever the arguments, a call that
    fails raises the assertion error, and then a per-key direction list
    was supplied; or the [ValueError], and then some direction paired with
    a key is not recognized; or [InvalidSortKey], and then some sort key
    is not an attribute of the model; or the [AttributeError] of a sort
    key that the marker lacks; or [ArgumentError], and then the marker
    holds [None] for some sort key; or [InvalidRequestError], and then
    the query it was handed has a limit or an offset.  The [KeyError] of
    the direction lookup is always caught, and no index is ever out of
    range. *)
Theorem paginate_query_escaping_exceptions :
  ∀ q (model : gset string) limit keys marker sort_dir sort_dirs t e,
    (Checked.paginate_query q model limit keys marker sort_dir sort_dirs t).2 = inl e →
    (e = AssertionError ∧ is_Some sort_dirs) ∨
    (e = ValueError unknown_sort_direction ∧
     ∃ d, d ∈ ensure_sort_dirs keys sort_dir sort_dirs ∧ recognized d = false) ∨
    (e = InvalidSortKey ∧ ∃ k, k ∈ keys ∧ k ∉ model) ∨
    (∃ k m, e = AttributeError k ∧ marker = Some m ∧ k ∈ keys ∧ m !! k = None) ∨
    (e = ArgumentError ∧
     ∃ k (m : gmap string value), marker = Some m ∧ k ∈ keys ∧ m !! k = Some VNone) ∨
    (e = InvalidRequestError ∧ (is_Some (limit_of q) ∨ is_Some (offset_of q))).
Proof.
  intros q model limit keys marker sort_dir sort_dirs t e.
  rewrite checked_paginate_query_outcome. cbn [snd]. unfold checked_outcome.
  destruct (limit_of q) as [n |] eqn:Hl, (offset_of q) as [n' |] eqn:Ho.
  4: { pose proof (paginate_outcome_error model limit keys marker sort_dir sort_dirs)
         as Herr.
       destruct (paginate_outcome model limit keys marker sort_dir sort_dirs)
         as [evs [e' | calls]]; cbn [snd] in *.
       - intros Hrun.
         assert (e' = e) as -> by (destruct marker; by injection Hrun).
         destruct (Herr e eq_refl) as [? | [? | [? | ?]]]; auto 6.
       - destruct marker as [m |]; [| done].
         destruct (has_null m keys) eqn:Hnull; [| done].
         intros [= <-]. do 4 right. left. split; [done |].
         apply existsb_exists in Hnull as (k & Hk%list_elem_of_In & Hv%bool_decide_eq_true).
         by exists k, m. }
  all: destruct (truthy_str sort_dir && truthy_list sort_dirs) eqn:Hconflict; cbn [orb].
  1,3,5: apply andb_true_iff in Hconflict as [_ Hds]; intros [= <-]; left;
    split; [done |]; by destruct sort_dirs.
  all: case_bool_decide as Hlen; cbn [negb].
  2,4,6: intros [= <-]; left; split; [done |]; destruct sort_dirs; [done |];
    by rewrite ensure_sort_dirs_length in Hlen.
  all: destruct (zip keys _) as [| [k d] l] eqn:Hzip;
    [destruct marker; [| done]; intros [= <-]; do 5 right;
     split; [done |]; first [by left; eexists | by right; eexists] |].
  all: apply zip_head in Hzip as [Hk Hd].
  all: destruct (recognized d) eqn:Hrec; cbn [negb];
    [| intros [= <-]; right; left; eauto].
  all: case_bool_decide as Hmodel; intros [= <-];
    [do 5 right; split; [done |]; first [by left; eexists | by right; eexists]
    | right; right; left; eauto].
Qed.

Lemma paginate_query_escaping_exceptions_witness :
  (InvalidRequestError = AssertionError ∧ is_Some (@None (list (option string)))) ∨
  (InvalidRequestError = ValueError unknown_sort_direction ∧
   ∃ d, d ∈ ensure_sort_dirs ["id"] None None ∧ recognized d = false) ∨
  (InvalidRequestError = InvalidSortKey ∧ ∃ k, k ∈ ["id"] ∧ k ∉ Meter) ∨
  (∃ k (m : gmap string value), InvalidRequestError = AttributeError k ∧
          Some odd_id7 = Some m ∧ k ∈ ["id"] ∧ m !! k = None) ∨
  (InvalidRequestError = ArgumentError ∧
   ∃ k (m : gmap string value), Some odd_id7 = Some m ∧ k ∈ ["id"] ∧
          m !! k = Some VNone) ∨
  (InvalidRequestError = InvalidRequestError ∧
   (is_Some (limit_of [Limit 3]) ∨ is_Some (offset_of [Limit 3]))).
Proof.
  apply (paginate_query_escaping_exceptions [Limit 3] Meter (Some 3%Z) ["id"]
           (Some odd_id7) None None [] InvalidRequestError).
  vm_compute. reflexivity.
Defined.
